(** * genai-experiments: the restaurant ordering back ends

    A shallow embedding of the order state, the menu resolution, the
    text-directive extraction ([server/index.js] and the command-line
    prototype) and of the two JSON-schema chat servers ([server/server.js]),
    with the properties of the specification stated and settled on it.

    Modelling conventions.
    - A JavaScript string is a list of code units; the model covers the
      code units below 256 (Latin-1), one [ascii] each.
    - A JavaScript number holding a price or a quantity is an integer
      of [Z]: the directive patterns only capture decimal digits.
    - An object that the code mutates in place ([session.currentOrder])
      is threaded through the functions as an explicit state. *)

From Stdlib Require Import ZArith Lia Bool.
From Stdlib Require Import Strings.Ascii Strings.String.
From stdpp Require Import base option list gmap strings.

Set Default Proof Using "Type".
Local Open Scope Z_scope.

(** ** JavaScript strings *)

Module JsString.

Definition jsstring := list ascii.

(** A literal of the source, as a list of code units. *)
Definition str (s : string) : jsstring := list_ascii_of_string s.

Definition code (c : ascii) : N := N_of_ascii c.

Definition char_eqb (a b : ascii) : bool := Ascii.eqb a b.

(** [a === b] on strings. *)
Fixpoint jsstring_eqb (a b : jsstring) : bool :=
  match a, b with
  | [], [] => true
  | x :: a', y :: b' => char_eqb x y && jsstring_eqb a' b'
  | _, _ => false
  end.

(** [String.prototype.toLowerCase], on the code units below 256:
    A-Z and the accented capitals U+00C0..U+00DE (but the
    multiplication sign U+00D7) move up by 32. *)
Definition lowerChar (c : ascii) : ascii :=
  let n := code c in
  if ((65 <=? n) && (n <=? 90))%N then ascii_of_N (n + 32)
  else if ((192 <=? n) && (n <=? 222) && negb (n =? 215))%N
       then ascii_of_N (n + 32)
  else c.

Definition toLowerCase (s : jsstring) : jsstring := map lowerChar s.

(** White space and line terminators of [String.prototype.trim]
    below 256: TAB, LF, VT, FF, CR, SP and NBSP. *)
Definition isWhiteSpace (c : ascii) : bool :=
  let n := code c in
  (((9 <=? n) && (n <=? 13)) || (n =? 32) || (n =? 160))%N.

Fixpoint trimStart (s : jsstring) : jsstring :=
  match s with
  | c :: s' => if isWhiteSpace c then trimStart s' else s
  | [] => []
  end.

Definition trimEnd (s : jsstring) : jsstring := rev (trimStart (rev s)).

Definition trim (s : jsstring) : jsstring := trimEnd (trimStart s).

(** [s.startsWith(p)]. *)
Fixpoint startsWith (p s : jsstring) : bool :=
  match p, s with
  | [], _ => true
  | x :: p', y :: s' => char_eqb x y && startsWith p' s'
  | _ :: _, [] => false
  end.

(** [s.includes(p)]: [p] occurs in [s] as a substring. *)
Fixpoint includes (s p : jsstring) : bool :=
  startsWith p s ||
  match s with
  | [] => false
  | _ :: s' => includes s' p
  end.

(** [s.split(' ')[0]]: the text before the first space. *)
Fixpoint firstToken (s : jsstring) : jsstring :=
  match s with
  | [] => []
  | c :: s' => if char_eqb c " "%char then [] else c :: firstToken s'
  end.

Definition isDigit (c : ascii) : bool :=
  let n := code c in ((48 <=? n) && (n <=? 57))%N.

Definition digitValue (c : ascii) : Z := Z.of_N (code c) - 48.


(** [parseInt(s, 10)] on a string of decimal digits (what [\d+]
    captures); stops at the first other character. The value is the one
    of the source for a safe integer (a string of up to 15 digits is
    one); a longer string is rounded by the source. *)
Fixpoint parseDigits (acc : Z) (s : jsstring) : Z :=
  match s with
  | c :: s' => if isDigit c then parseDigits (10 * acc + digitValue c) s'
               else acc
  | [] => acc
  end.

Definition parseInt (s : jsstring) : Z := parseDigits 0 s.

End JsString.

Export JsString.

(** ** The menu catalog *)

Module Menu.

Record MenuItem := mkMenuItem {
  id : jsstring;
  name : jsstring;
  price : Z;
  description : jsstring
}.

Record Category := mkCategory {
  categoryName : jsstring;
  items : list MenuItem
}.

(** [MENU.categories]: an object, iterated in insertion order of its
    keys. *)
Definition Catalog := list (jsstring * Category).

Definition item (i n : string) (p : Z) (d : string) : MenuItem :=
  mkMenuItem (str i) (str n) p (str d).

Definition jollof_rice := item "jollof_rice" "Jollof Rice" 2500
  "Spicy Nigerian rice with tomatoes and spices and chicken".
Definition fried_rice := item "fried_rice" "Fried Rice" 2800
  "Mixed vegetables fried rice and chicken".
Definition chicken_shawarma := item "chicken_shawarma" "Chicken Shawarma" 2800
  "Grilled chicken with vegetables".
Definition pounded_yam := item "pounded_yam" "Pounded Yam with Egusi" 3500
  "Traditional pounded yam with egusi soup".
Definition suya := item "suya" "Suya Platter" 2000
  "Grilled spiced meat skewers".
Definition beef_burger := item "beef_burger" "Beef Burger" 2000
  "Beef burger with lettuce, tomato, and onion".
Definition zobo := item "zobo" "Zobo Drink" 800
  "Traditional Nigerian hibiscus drink".
Definition chapman := item "chapman" "Chapman" 1200
  "Nigerian cocktail with fruits".
Definition water := item "water" "Bottled Water" 300
  "500ml bottled water".
Definition five_alive := item "5_alive" "5 Alive" 1500
  "5 Alive drink".
Definition soft_drink := item "soft_drink" "Soft Drink" 500
  "Coca-Cola, Pepsi, or Sprite".
Definition plantain := item "plantain" "Fried Plantain" 800
  "Sweet fried plantain slices".
Definition moi_moi := item "moi_moi" "Moi Moi" 1000
  "Steamed bean pudding".
Definition salad := item "salad" "Garden Salad" 1200
  "Fresh mixed vegetables".

(** [MENU] of [server/index.js]. *)
Definition MENU : Catalog :=
  [ (str "mains", mkCategory (str "Main Dishes")
       [jollof_rice; fried_rice; chicken_shawarma; pounded_yam; suya;
        beef_burger]);
    (str "drinks", mkCategory (str "Beverages")
       [zobo; chapman; water; five_alive; soft_drink]);
    (str "sides", mkCategory (str "Side Dishes")
       [plantain; moi_moi; salad]) ].

(** The items of a catalog in iteration order. *)
Definition allItems (menu : Catalog) : list MenuItem :=
  concat (map (fun kc => items (snd kc)) menu).

(** *** [findMenuItem] of [server/index.js]

    The body of the inner [for] loop either returns from the function
    ([inl]) or goes on with the current [bestMatch] ([inr]). *)
Definition exactMatch (lowerCaseName : jsstring) (it : MenuItem) : bool :=
  let itemLower := toLowerCase (name it) in
  jsstring_eqb itemLower lowerCaseName.

Definition substringMatch (lowerCaseName : jsstring) (it : MenuItem) : bool :=
  let itemLower := toLowerCase (name it) in
  includes itemLower lowerCaseName || includes lowerCaseName itemLower.

Fixpoint findInItems (lowerCaseName : jsstring) (its : list MenuItem)
    (bestMatch : option MenuItem) : MenuItem + option MenuItem :=
  match its with
  | [] => inr bestMatch
  | it :: rest =>
      if exactMatch lowerCaseName it then inl it
      else if substringMatch lowerCaseName it
           then findInItems lowerCaseName rest (Some it)
           else findInItems lowerCaseName rest bestMatch
  end.

Fixpoint findInCategories (lowerCaseName : jsstring) (menu : Catalog)
    (bestMatch : option MenuItem) : option MenuItem :=
  match menu with
  | [] => bestMatch
  | (_, cat) :: menu' =>
      match findInItems lowerCaseName (items cat) bestMatch with
      | inl it => Some it
      | inr bestMatch' => findInCategories lowerCaseName menu' bestMatch'
      end
  end.

Definition findMenuItem (menu : Catalog) (name : jsstring)
    : option MenuItem :=
  let lowerCaseName := trim (toLowerCase name) in
  findInCategories lowerCaseName menu None.

(** The last fuzzy match seen so far, or the one the loop started with. *)
Definition lastOr (q : jsstring) (its : list MenuItem)
    (bestMatch : option MenuItem) : option MenuItem :=
  match last (List.filter (substringMatch q) its) with
  | Some it => Some it
  | None => bestMatch
  end.

End Menu.

(** ** The command-line prototype: its catalog and its [findMenuItem] *)

Module Prototype.
Import Menu.

Definition jollof_rice := item "jollof_rice" "Jollof Rice" 2500
  "Spicy Nigerian rice with tomatoes and spices".
Definition fried_rice := item "fried_rice" "Fried Rice" 2800
  "Mixed vegetables fried rice".

Definition MENU : Catalog :=
  [ (str "mains", mkCategory (str "Main Dishes")
       [jollof_rice; fried_rice; pounded_yam; suya]);
    (str "drinks", mkCategory (str "Beverages")
       [zobo; chapman; water; soft_drink]);
    (str "sides", mkCategory (str "Side Dishes")
       [plantain; moi_moi; salad]) ].

(** The condition of the [if] in the inner loop. *)
Definition matches (normalizedName : jsstring) (it : MenuItem) : bool :=
  includes (toLowerCase (name it)) normalizedName
  || includes (toLowerCase (id it)) normalizedName
  || includes normalizedName (firstToken (toLowerCase (name it))).

Fixpoint findInItems (normalizedName : jsstring) (its : list MenuItem)
    : option MenuItem :=
  match its with
  | [] => None
  | it :: rest =>
      if matches normalizedName it then Some it
      else findInItems normalizedName rest
  end.

Fixpoint findInCategories (normalizedName : jsstring) (menu : Catalog)
    : option MenuItem :=
  match menu with
  | [] => None
  | (_, cat) :: menu' =>
      match findInItems normalizedName (items cat) with
      | Some it => Some it
      | None => findInCategories normalizedName menu'
      end
  end.

Definition findMenuItem (menu : Catalog) (itemName : jsstring)
    : option MenuItem :=
  let normalizedName := trim (toLowerCase itemName) in
  findInCategories normalizedName menu.

End Prototype.

(** ** Menu resolution as the specification words it

    Three levels, each taking the first match in catalog order: the full
    name, a substring either way, then the first tokens. *)

Module ResolutionSpec.
Import Menu.

(** The text before the first white space. *)
Fixpoint firstWord (s : jsstring) : jsstring :=
  match s with
  | [] => []
  | c :: s' => if isWhiteSpace c then [] else c :: firstWord s'
  end.

Definition tokenMatch (q : jsstring) (it : MenuItem) : bool :=
  jsstring_eqb (firstWord q) (firstWord (toLowerCase (name it))).

Definition resolve (menu : Catalog) (query : jsstring) : option MenuItem :=
  let q := trim (toLowerCase query) in
  match List.find (exactMatch q) (allItems menu) with
  | Some it => Some it
  | None =>
      match List.find (substringMatch q) (allItems menu) with
      | Some it => Some it
      | None => List.find (tokenMatch q) (allItems menu)
      end
  end.

End ResolutionSpec.

(** ** The order of a session ([server/index.js]) *)

Module Order.
Import Menu.

(** A line of [currentOrder.items]. *)
Record OrderLine := mkLine {
  lineId : jsstring;
  lineName : jsstring;
  linePrice : Z;
  quantity : Z
}.

Record CurrentOrder := mkOrder {
  orderItems : list OrderLine;
  totalCost : Z
}.

Inductive Role := user | assistant.

Record Message := mkMessage {
  role : Role;
  content : jsstring
}.

Record Session := mkSession {
  chatHistory : list Message;
  currentOrder : CurrentOrder
}.

Definition createNewSession : Session :=
  mkSession [] (mkOrder [] 0).

(** [items.reduce((total, item) => total + item.price * item.quantity, 0)] *)
Definition calculateTotal (its : list OrderLine) : Z :=
  fold_left (fun total it => total + linePrice it * quantity it) its 0.

Definition hasId (i : jsstring) (it : OrderLine) : bool :=
  jsstring_eqb (lineId it) i.

(** [existingItem.quantity += quantity] on the line that
    [items.find(item => item.id === i)] returned: the first line with
    that id, updated in place. *)
Fixpoint updateFirst (i : jsstring) (f : OrderLine -> OrderLine)
    (its : list OrderLine) : list OrderLine :=
  match its with
  | [] => []
  | it :: rest =>
      if hasId i it then f it :: rest else it :: updateFirst i f rest
  end.

Definition setQuantity (q : Z) (it : OrderLine) : OrderLine :=
  mkLine (lineId it) (lineName it) (linePrice it) q.

Definition withOrder (o : CurrentOrder) (s : Session) : Session :=
  mkSession (chatHistory s) o.

(** [existingItem.quantity += quantity] is the sum of two doubles in the
    source: it is [quantity it + qty] where that sum is a safe
    integer. *)
Definition addItemToOrder (menuItem : MenuItem) (qty : Z) (session : Session)
    : Session :=
  if qty <=? 0 then session
  else
    let its := orderItems (currentOrder session) in
    let its' :=
      match List.find (hasId (id menuItem)) its with
      | Some existingItem =>
          updateFirst (id menuItem)
            (fun it => setQuantity (quantity it + qty) it) its
      | None =>
          its ++ [mkLine (id menuItem) (name menuItem) (price menuItem) qty]
      end in
    withOrder (mkOrder its' (calculateTotal its')) session.

Definition removeItemFromOrder (itemId : jsstring) (session : Session)
    : Session :=
  let initialLength := length (orderItems (currentOrder session)) in
  let its' :=
    List.filter (fun it => jsstring_eqb (lineId it) itemId)
      (orderItems (currentOrder session)) in
  if (length its' <? initialLength)%nat
  then withOrder (mkOrder its' (calculateTotal its')) session
  else withOrder (mkOrder its' (totalCost (currentOrder session))) session.

Definition updateItemInOrder (itemId : jsstring) (newQuantity : Z)
    (session : Session) : Session :=
  match List.find (hasId itemId) (orderItems (currentOrder session)) with
  | Some _ =>
      if newQuantity <=? 0 then removeItemFromOrder itemId session
      else
        let its' :=
          updateFirst itemId (setQuantity newQuantity)
            (orderItems (currentOrder session)) in
        withOrder (mkOrder its' (calculateTotal its')) session
  | None => session
  end.

(** The lines of the order after [addItemToOrder] with a positive
    quantity. *)
Definition addedLines (menuItem : MenuItem) (qty : Z) (its : list OrderLine)
    : list OrderLine :=
  match List.find (hasId (id menuItem)) its with
  | Some _ =>
      updateFirst (id menuItem) (fun it => setQuantity (quantity it + qty) it)
        its
  | None => its ++ [mkLine (id menuItem) (name menuItem) (price menuItem) qty]
  end.

(** The calls of the order mutation engine. *)
Inductive Mutation :=
| AddItem (menuItem : MenuItem) (qty : Z)
| RemoveItem (itemId : jsstring)
| UpdateQuantity (itemId : jsstring) (newQuantity : Z).

Definition applyMutation (m : Mutation) (session : Session) : Session :=
  match m with
  | AddItem menuItem qty => addItemToOrder menuItem qty session
  | RemoveItem itemId => removeItemFromOrder itemId session
  | UpdateQuantity itemId q => updateItemInOrder itemId q session
  end.

(** The sessions after each call of a sequence, oldest first. *)
Fixpoint trace (ms : list Mutation) (session : Session) : list Session :=
  match ms with
  | [] => []
  | m :: ms' =>
      let session' := applyMutation m session in
      session' :: trace ms' session'
  end.


Definition sumOfLines (its : list OrderLine) : Z :=
  foldr (fun it acc => linePrice it * quantity it + acc) 0 its.

(** The invariant of an order: its total is the sum over its lines. *)
Definition totalIsSum (session : Session) : Prop :=
  totalCost (currentOrder session)
  = sumOfLines (orderItems (currentOrder session)).

Definition lineIds (session : Session) : list jsstring :=
  map lineId (orderItems (currentOrder session)).

(** Two lines of the examples. *)
Definition jollofLine (q : Z) : OrderLine :=
  mkLine (id jollof_rice) (name jollof_rice) (price jollof_rice) q.

Definition chapmanLine (q : Z) : OrderLine :=
  mkLine (id chapman) (name chapman) (price chapman) q.

(** An order of two jollof rice and one chapman. *)
Definition twoLineSession : Session :=
  addItemToOrder chapman 1 (addItemToOrder jollof_rice 2 createNewSession).

End Order.

(** ** The regular expressions of the directive protocol

    The three patterns are sequences of two kinds of atoms: a literal
    text, and a captured class repeated once or more ([([^|]+)],
    [(\d+)]).  All carry the flag [i]. A match is searched the way the
    backtracking matcher of the language does: the repetition takes as
    many characters as it can and gives them back one by one while the
    rest of the pattern fails. *)

Module Regex.

(** [Canonicalize] under the flag [i] (without [u]): the upper-case
    code unit. *)
Definition canonicalize (c : ascii) : ascii :=
  let n := code c in
  if ((97 <=? n) && (n <=? 122))%N then ascii_of_N (n - 32)
  else if ((224 <=? n) && (n <=? 254) && negb (n =? 247))%N
       then ascii_of_N (n - 32)
  else c.

Definition sameChar (a b : ascii) : bool :=
  char_eqb (canonicalize a) (canonicalize b).

Inductive Atom :=
| Lit (text : jsstring)
| Plus (class : ascii -> bool).

Definition Pattern := list Atom.

(** [[^|]]. *)
Definition notBar (c : ascii) : bool := negb (sameChar c "|"%char).

(** The literal at the head of the input; the rest of the input. *)
Fixpoint matchLit (text s : jsstring) : option jsstring :=
  match text, s with
  | [], _ => Some s
  | x :: text', y :: s' => if sameChar x y then matchLit text' s' else None
  | _ :: _, [] => None
  end.

(** Greedy repetition of a class, with its continuation [k]: one more
    character first, the continuation on what is [taken] next. *)
Fixpoint matchPlus {R} (class : ascii -> bool)
    (k : jsstring -> jsstring -> option R) (taken s : jsstring)
    : option R :=
  match s with
  | c :: s' =>
      if class c then
        match matchPlus class k (taken ++ [c]) s' with
        | Some r => Some r
        | None => k (taken ++ [c]) s'
        end
      else None
  | [] => None
  end.

(** A match at the head of the input: the captures and the input left. *)
Fixpoint matchHere (p : Pattern) (caps : list jsstring) (s : jsstring)
    : option (list jsstring * jsstring) :=
  match p with
  | [] => Some (caps, s)
  | Lit text :: p' =>
      match matchLit text s with
      | Some s' => matchHere p' caps s'
      | None => None
      end
  | Plus class :: p' =>
      matchPlus class (fun cap s' => matchHere p' (caps ++ [cap]) s') [] s
  end.

(** The number of characters a match at the head consumed. *)
Definition matchLength (p : Pattern) (s : jsstring) : option nat :=
  match matchHere p [] s with
  | Some (_, rest) => Some (length s - length rest)%nat
  | None => None
  end.

(** [s.match(/p/i)]: the first match, as the matched text and its
    captures; [None] is [null]. *)
Fixpoint exec (p : Pattern) (s : jsstring)
    : option (jsstring * list jsstring) :=
  match matchHere p [] s with
  | Some (caps, rest) => Some (take (length s - length rest) s, caps)
  | None =>
      match s with
      | [] => None
      | _ :: s' => exec p s'
      end
  end.

(** [s.match(/p/gi)]: the matched texts from left to right, without
    overlap; [skip] counts the characters of [s] that the last match
    still covers. The empty list is [null]. *)
Fixpoint matchAllFrom (p : Pattern) (skip : nat) (s : jsstring)
    : list jsstring :=
  match s with
  | [] =>
      match skip, matchHere p [] [] with
      | O, Some _ => [[]]
      | _, _ => []
      end
  | _ :: s' =>
      match skip with
      | S n => matchAllFrom p n s'
      | O =>
          match matchLength p s with
          | Some n => take n s :: matchAllFrom p (n - 1) s'
          | None => matchAllFrom p 0 s'
          end
      end
  end.

Definition matchAll (p : Pattern) (s : jsstring) : list jsstring :=
  matchAllFrom p 0 s.

(** [s.replace(/p/gi, '')]. *)
Fixpoint removeAllFrom (p : Pattern) (skip : nat) (s : jsstring)
    : jsstring :=
  match s with
  | [] => []
  | c :: s' =>
      match skip with
      | S n => removeAllFrom p n s'
      | O =>
          match matchLength p s with
          | Some (S n) => removeAllFrom p n s'
          | Some O => c :: removeAllFrom p 0 s'
          | None => c :: removeAllFrom p 0 s'
          end
      end
  end.

Definition removeAll (p : Pattern) (s : jsstring) : jsstring :=
  removeAllFrom p 0 s.

(** The input left by a greedy run: nothing, or a character that is not
    of the class. *)
Definition stopsRun (class : ascii -> bool) (s : jsstring) : Prop :=
  match s with
  | [] => True
  | c :: _ => class c = false
  end.

End Regex.

(** ** Directive extraction ([server/index.js]) *)

Module Directives.
Import Menu Order Regex.

(** [/ORDER_ADD:([^|]+)\|QUANTITY:(\d+)/i] *)
Definition ORDER_ADD : Pattern :=
  [Lit (str "ORDER_ADD:"); Plus notBar; Lit (str "|QUANTITY:"); Plus isDigit].

(** [/ORDER_REMOVE:([^|]+)/i] *)
Definition ORDER_REMOVE : Pattern :=
  [Lit (str "ORDER_REMOVE:"); Plus notBar].

(** [/ORDER_UPDATE:([^|]+)\|QUANTITY:(\d+)/i] *)
Definition ORDER_UPDATE : Pattern :=
  [Lit (str "ORDER_UPDATE:"); Plus notBar; Lit (str "|QUANTITY:");
   Plus isDigit].

(** The callbacks of the three [forEach]; [None] is the [TypeError] of
    destructuring [null]. *)
Definition processAdd (menu : Catalog) (session : Session) (m : jsstring)
    : option Session :=
  match exec ORDER_ADD m with
  | Some (_, itemName :: quantityStr :: _) =>
      let qty := parseInt quantityStr in
      match findMenuItem menu (trim itemName) with
      | Some menuItem => Some (addItemToOrder menuItem qty session)
      | None => Some session
      end
  | _ => None
  end.

Definition processRemove (menu : Catalog) (session : Session) (m : jsstring)
    : option Session :=
  match exec ORDER_REMOVE m with
  | Some (_, itemName :: _) =>
      match findMenuItem menu (trim itemName) with
      | Some menuItem => Some (removeItemFromOrder (id menuItem) session)
      | None => Some session
      end
  | _ => None
  end.

Definition processUpdate (menu : Catalog) (session : Session) (m : jsstring)
    : option Session :=
  match exec ORDER_UPDATE m with
  | Some (_, itemName :: quantityStr :: _) =>
      let newQuantity := parseInt quantityStr in
      match findMenuItem menu (trim itemName) with
      | Some menuItem =>
          Some (updateItemInOrder (id menuItem) newQuantity session)
      | None => Some session
      end
  | _ => None
  end.

(** [matches.forEach(callback)] on the session. *)
Fixpoint forEach (callback : Session -> jsstring -> option Session)
    (ms : list jsstring) (session : Session) : option Session :=
  match ms with
  | [] => Some session
  | m :: ms' =>
      match callback session m with
      | Some session' => forEach callback ms' session'
      | None => None
      end
  end.

Definition processOrderInstructions (menu : Catalog) (aiResponse : jsstring)
    (session : Session) : option Session :=
  session1 ← forEach (processAdd menu) (matchAll ORDER_ADD aiResponse)
               session;
  session2 ← forEach (processRemove menu)
               (matchAll ORDER_REMOVE aiResponse) session1;
  forEach (processUpdate menu) (matchAll ORDER_UPDATE aiResponse) session2.

(** The keyword of a removal, in any letter case. *)
Definition isRemoveKeyword (D : jsstring) : Prop :=
  map canonicalize D = str "ORDER_REMOVE:".

(** [cleanResponse] of the chat handler. *)
Definition stripDirectives (aiContent : jsstring) : jsstring :=
  removeAll ORDER_UPDATE (removeAll ORDER_REMOVE (removeAll ORDER_ADD aiContent)).

Definition cleanResponse (aiContent : jsstring) : jsstring :=
  trim (stripDirectives aiContent).

End Directives.

(** ** The JSON-schema servers ([server/server.js])

    Both keep their sessions in Redis as JSON text. The model stores the
    value that [JSON.parse] gives back on the stored text; the text of
    the language model is parsed by [JSON_parse], a parameter ([None]
    is its [SyntaxError]). *)

Module Json.

#[warnings="-register-all"]
Inductive json :=
| JNull
| JBool (b : bool)
| JNum (n : Z)
| JStr (s : jsstring)
| JArr (elements : list json)
| JObj (fields : list (jsstring * json)).

(** A value that may be [undefined]. *)
Definition jsvalue := option json.

Fixpoint lookupField (key : jsstring) (fields : list (jsstring * json))
    : jsvalue :=
  match fields with
  | [] => None
  | (k, v) :: rest =>
      if jsstring_eqb k key then Some v else lookupField key rest
  end.

(** [v.key]; the outer [None] is the [TypeError] of reading a property
    of [null]. *)
Definition getProp (key : jsstring) (v : json) : option jsvalue :=
  match v with
  | JNull => None
  | JObj fields => Some (lookupField key fields)
  | _ => Some None
  end.

(** [if (v)]. *)
Definition truthy (v : jsvalue) : bool :=
  match v with
  | None | Some JNull => false
  | Some (JBool b) => b
  | Some (JNum n) => negb (n =? 0)
  | Some (JStr s) => negb (jsstring_eqb s [])
  | Some (JArr _) | Some (JObj _) => true
  end.

(** A key or a string of a JSON text, between its quotes. *)
Definition quoted (s : string) : jsstring :=
  ["034"%char] ++ str s ++ ["034"%char].

(** The text of an object whose only field, [currentOrder], is [null]. *)
Definition nullOrderText : jsstring :=
  str "{" ++ quoted "currentOrder" ++ str ":null}".

(** The text of an object whose [currentOrder] has no items. *)
Definition noItemsText : jsstring :=
  str "{" ++ quoted "currentOrder" ++ str ":{" ++ quoted "items"
  ++ str ":[]}}".

Definition noItemsPayload : json :=
  JObj [(str "currentOrder", JObj [(str "items", JArr [])])].

(** A parser that knows four documents, for the examples. *)
Definition sampleParse (text : jsstring) : option json :=
  if jsstring_eqb text (str "{}") then Some (JObj [])
  else if jsstring_eqb text (str "null") then Some JNull
  else if jsstring_eqb text nullOrderText
       then Some (JObj [(str "currentOrder", JNull)])
  else if jsstring_eqb text noItemsText then Some noItemsPayload
  else None.

End Json.

Module Store.
Import Json.

Record Session := mkSession {
  order : jsvalue;
  context : jsvalue
}.

(** A key of Redis: the stored session and the seconds to its expiry,
    when the last [SET] command carried any. *)
Record Entry := mkEntry {
  value : Session;
  expiry : option Z
}.

Record World := mkWorld {
  redis : gmap jsstring Entry;
  modelCalls : nat
}.

Inductive Exn :=
| TypeError
| SyntaxError
| UpstreamError
| SessionNotFound.

(** An [async] computation: the world it leaves, and its value or the
    exception it throws. *)
Definition M (A : Type) : Type := World -> (Exn + A) * World.

Definition ret {A} (x : A) : M A := fun w => (inr x, w).

Definition bind {A B} (m : M A) (k : A -> M B) : M B :=
  fun w =>
    match m w with
    | (inr x, w') => k x w'
    | (inl e, w') => (inl e, w')
    end.

Definition throw {A} (e : Exn) : M A := fun w => (inl e, w).

Definition tryCatch {A} (m : M A) (handler : Exn -> M A) : M A :=
  fun w =>
    match m w with
    | (inr x, w') => (inr x, w')
    | (inl e, w') => handler e w'
    end.

Definition SESSION_TTL : Z := 86400.

(** [await redis.get(key)] *)
Definition redisGet (key : jsstring) : M (option Session) :=
  fun w => (inr (value <$> redis w !! key), w).

(** [await redis.set(key, JSON.stringify(v), 'EX', seconds)], on the
    client that [getRedisClient] of [lib/redis.js] returns
    ([createClient] of the [redis] package, connected with [connect()]).
    That client's [set(key, value, options)] takes its third argument as
    the options object: the string ['EX'] holds no option and the fourth
    argument is not read, so that the command it sends is [SET key value]
    and the key is left without expiry. *)
Definition redisSet (key : jsstring) (v : Session) (seconds : Z) : M unit :=
  fun w => (inr tt, mkWorld (<[key := mkEntry v None]> (redis w))
                            (modelCalls w)).

(** What the language model answers to one [generateContent]. *)
Inductive ModelReply :=
| ModelText (text : jsstring)
| ModelFailure.

(** [await model.generateContent(...)] followed by [response.text()]. *)
Definition generateContent (reply : ModelReply) : M jsstring :=
  fun w =>
    let w' := mkWorld (redis w) (S (modelCalls w)) in
    match reply with
    | ModelText text => (inr text, w')
    | ModelFailure => (inl UpstreamError, w')
    end.

Definition emptyOrder : json :=
  JObj [(str "items", JArr []); (str "totalCost", JNum 0);
        (str "status", JStr (str "draft"))].

Definition emptyContext : json :=
  JObj [(str "previouslyMentionedItems", JArr []);
        (str "pendingConfirmations", JArr []);
        (str "userPreferences",
         JObj [(str "allergies", JArr []); (str "frequentOrders", JArr [])])].

Definition freshSession : Session :=
  mkSession (Some emptyOrder) (Some emptyContext).

(** An order of one line, for the examples. *)
Definition sampleOrder : json :=
  JObj [(str "items",
         JArr [JObj [(str "id", JStr (str "jollof_rice"));
                     (str "quantity", JNum 2)]]);
        (str "totalCost", JNum 5000);
        (str "status", JStr (str "draft"))].

Inductive Body :=
| ErrorBody (error : jsstring)
| ChatBody (payload : json) (sessionId : jsstring)
| SessionBody (session : Session).

Record Response := mkResponse {
  status : nat;
  body : Body
}.

Record Request := mkRequest {
  message : jsstring;
  history : option (list (jsstring * jsstring));
  ident : option jsstring
}.

(** The text of an identifier inside a template literal. *)
Definition show (i : option jsstring) : jsstring :=
  match i with
  | Some s => s
  | None => str "undefined"
  end.

(** [!i] on an identifier of the request body. *)
Definition missing (i : option jsstring) : bool :=
  match i with
  | Some (_ :: _) => false
  | _ => true
  end.

End Store.

Declare Scope async_scope.
Delimit Scope async_scope with async.
Notation "x <- m ;; k" := (Store.bind m (fun x => k))
  (at level 100, m at next level, right associativity) : async_scope.
Notation "m ;;; k" := (Store.bind m (fun _ => k))
  (at level 100, right associativity) : async_scope.

(** *** The server keyed by user ([POST /api/chat], [getUserSession]) *)

Module UserServer.
Import Json Store.
Local Open Scope async_scope.

Section WithParser.
Variable JSON_parse : jsstring -> option json.

Definition parseJson (text : jsstring) : M json :=
  match JSON_parse text with
  | Some v => ret v
  | None => throw SyntaxError
  end.

Definition prop (key : jsstring) (v : json) : M jsvalue :=
  match getProp key v with
  | Some x => ret x
  | None => throw TypeError
  end.

Definition userKey (userId : option jsstring) : jsstring :=
  str "user:" ++ show userId.

Definition getUserSession (userId : option jsstring) : M Session :=
  userSession <- redisGet (userKey userId) ;;
  match userSession with
  | None =>
      let sessionData := freshSession in
      redisSet (userKey userId) sessionData SESSION_TTL ;;;
      ret sessionData
  | Some data => ret data
  end.

Definition updateSession (userId : option jsstring) (sessionData : Session)
    : M unit :=
  redisSet (userKey userId) sessionData SESSION_TTL.

Definition chat (req : Request) (reply : ModelReply) : M Response :=
  tryCatch
    (userSession <- getUserSession (ident req) ;;
     if missing (ident req)
     then ret (mkResponse 400 (ErrorBody (str "User ID is required")))
     else
       match history req with
       | None => throw TypeError
       | Some _ =>
           text <- generateContent reply ;;
           response <- parseJson (trim text) ;;
           newOrder <- prop (str "currentOrder") response ;;
           newContext <- prop (str "context") response ;;
           let newSession := mkSession newOrder newContext in
           updateSession (ident req) newSession ;;;
           ret (mkResponse 200 (ChatBody response (show (ident req))))
       end)
    (fun _ =>
       ret (mkResponse 500 (ErrorBody (str "Internal server error")))).

Definition getSession (userId : option jsstring) : M Response :=
  tryCatch
    (if missing userId
     then ret (mkResponse 400 (ErrorBody (str "User ID is required")))
     else
       session <- getUserSession userId ;;
       ret (mkResponse 200 (SessionBody session)))
    (fun _ =>
       ret (mkResponse 500 (ErrorBody (str "Internal server error")))).

End WithParser.

End UserServer.

(** *** The server keyed by session ([POST /chat], [getOrCreateSession]) *)

Module SessionServer.
Import Json Store.
Local Open Scope async_scope.

Section WithParser.
Variable JSON_parse : jsstring -> option json.

Definition sessionKey (sessionId : jsstring) : jsstring :=
  str "session:" ++ sessionId.

(** [random] is the text of
    [Math.random().toString(36).substr(2, 9)]. *)
Definition getOrCreateSession (random : jsstring)
    (sessionId : option jsstring) : M (jsstring * Session) :=
  tryCatch
    (if missing sessionId then
       let newSessionId := str "sess_" ++ random in
       let newSession := freshSession in
       redisSet (sessionKey newSessionId) newSession SESSION_TTL ;;;
       ret (newSessionId, newSession)
     else
       sessionData <- redisGet (sessionKey (show sessionId)) ;;
       match sessionData with
       | None => throw SessionNotFound
       | Some session => ret (show sessionId, session)
       end)
    (fun error => throw error).

Definition updateSession (sessionId : jsstring) (sessionData : Session)
    : M unit :=
  redisSet (sessionKey sessionId) sessionData SESSION_TTL.

(** [apiKey] tells whether [GEMINI_API_KEY] is set; the Redis client is
    connected (the process exits at start otherwise). *)
Definition chat (apiKey : bool) (random : jsstring) (req : Request)
    (reply : ModelReply) : M Response :=
  tryCatch
    (if negb apiKey
     then ret (mkResponse 500
            (ErrorBody (str "Server misconfiguration: GEMINI_API_KEY not set")))
     else
       cs <- getOrCreateSession random (ident req) ;;
       let currentSessionId := fst cs in
       let session := snd cs in
       responseText <- generateContent reply ;;
       tryCatch
         (parsedResponse <-
            UserServer.parseJson JSON_parse (trim responseText) ;;
          newOrder <-
            UserServer.prop (str "currentOrder") parsedResponse ;;
          let session1 :=
            if truthy newOrder
            then mkSession newOrder (context session) else session in
          newContext <- UserServer.prop (str "context") parsedResponse ;;
          let session2 :=
            if truthy newContext
            then mkSession (order session1) newContext else session1 in
          updateSession currentSessionId session2 ;;;
          ret (mkResponse 200 (ChatBody parsedResponse currentSessionId)))
         (fun parseError =>
            ret (mkResponse 500
                   (ErrorBody (str "Failed to process AI response")))))
    (fun error =>
       ret (mkResponse 500
              (ErrorBody
                 (str "An error occurred while processing your request")))).

End WithParser.

End SessionServer.

(** ** Invariants of an order and the shape of the quantity directives *)

Module OrderInvariants.
Import Menu Order Regex.

(** An order as the mutation engine keeps it: the total is the sum over
    the lines, no two lines have the same id, and every line has a
    positive quantity. *)
Definition wellFormed (session : Session) : Prop :=
  totalIsSum session
  /\ NoDup (lineIds session)
  /\ Forall (fun it => 0 < quantity it) (orderItems (currentOrder session)).

(** [/kw([^|]+)\|QUANTITY:(\d+)/i], the form of the ADD and UPDATE
    patterns. *)
Definition quantityPattern (kw : jsstring) : Pattern :=
  [Lit kw; Plus notBar; Lit (str "|QUANTITY:"); Plus isDigit].

End OrderInvariants.

(** ** The routes of [server/index.js]

    The two [Map]s of the process and the count of the calls of the
    language model. [uuidv4()] and [new Date().toISOString()] are
    inputs of the routes that use them. *)

Module MemoryServer.
Import Menu Order Directives Json.

Record CompletedOrder := mkCompleted {
  completedItems : list OrderLine;
  completedTotal : Z;
  completedId : jsstring;
  completedStatus : jsstring;
  completedAt : jsstring;
  customerInfo : json
}.

Record State := mkState {
  sessions : gmap jsstring Session;
  completedOrders : gmap jsstring CompletedOrder;
  completions : nat
}.

Definition initialState : State := mkState ∅ ∅ 0.

(** What [inference.chatCompletion] does: a response with a first
    choice, a response without choices, or an exception. *)
Inductive ChatError :=
| RateLimited
| Unauthorized
| OtherFailure.

Inductive Completion :=
| Choice (content : jsstring)
| NoChoice
| Failure (error : ChatError).

Inductive Body :=
| MenuBody (menu : Catalog)
| ErrorBody (error : jsstring)
| ErrorWithResponse (error response : jsstring)
| StartBody (sessionId message : jsstring) (order : CurrentOrder)
| ChatBody (response : jsstring) (order : CurrentOrder)
| OrderBody (order : CurrentOrder)
| PlacedBody (message : jsstring) (order : CompletedOrder)
| CompletedBody (order : CompletedOrder).

Record Response := mkResponse {
  status : nat;
  body : Body
}.

(** [session.chatHistory.push(m)] *)
Definition pushMessage (m : Message) (session : Session) : Session :=
  mkSession (chatHistory session ++ [m]) (currentOrder session).

Definition setSession (sessionId : jsstring) (session : Session) (st : State)
    : State :=
  mkState (<[sessionId := session]> (sessions st)) (completedOrders st)
          (completions st).

Definition getMenu (st : State) : Response * State :=
  (mkResponse 200 (MenuBody MENU), st).

Definition initialMessage : jsstring :=
  str "Welcome to our Nigerian restaurant! I'm here to help you place your order. What would you like to eat today?".

(** [POST /api/session/start] *)
Definition startSession (uuid : jsstring) (st : State) : Response * State :=
  let sessionId := uuid in
  let session := pushMessage (mkMessage assistant initialMessage)
                   createNewSession in
  (mkResponse 200 (StartBody sessionId initialMessage (currentOrder session)),
   setSession sessionId session st).

Definition userFacingError (e : ChatError) : jsstring :=
  match e with
  | RateLimited =>
      str "We are experiencing high traffic. Please try again in a moment (rate limit)."
  | Unauthorized =>
      str "Authentication error with the AI service. Please check your Hugging Face token."
  | OtherFailure => str "An unexpected error occurred. Please try again."
  end.

Definition errorStatus (e : ChatError) : nat :=
  match e with
  | RateLimited => 429
  | Unauthorized => 401
  | OtherFailure => 500
  end.

(** The [catch] block of the chat route, for a session that exists. *)
Definition chatCatch (sessionId : jsstring) (session : Session) (e : ChatError)
    (st : State) : Response * State :=
  (mkResponse (errorStatus e)
     (ErrorWithResponse (userFacingError e) (userFacingError e)),
   setSession sessionId
     (pushMessage (mkMessage assistant (userFacingError e)) session) st).

Definition noChoiceMessage : jsstring :=
  str "I'm sorry, I couldn't get a clear response from the AI. Please try again or rephrase.".

(** [POST /api/chat]. A [TypeError] of [processOrderInstructions] would
    go to the [catch] block like any other exception. *)
Definition chat (sessionId : option jsstring) (message : jsstring)
    (reply : Completion) (st : State) : Response * State :=
  if Store.missing sessionId then
    (mkResponse 400
       (ErrorBody
          (str "Invalid or missing session ID. Please start a new session.")),
     st)
  else
    match sessions st !! Store.show sessionId with
    | None =>
        (mkResponse 400
           (ErrorBody
              (str "Invalid or missing session ID. Please start a new session.")),
         st)
    | Some session =>
        let sid := Store.show sessionId in
        let session1 := pushMessage (mkMessage user message) session in
        let st1 := mkState (sessions st) (completedOrders st)
                     (S (completions st)) in
        match reply with
        | Failure e => chatCatch sid session1 e st1
        | NoChoice =>
            (mkResponse 500
               (ErrorWithResponse (str "AI did not return a valid response")
                  noChoiceMessage),
             setSession sid
               (pushMessage (mkMessage assistant noChoiceMessage) session1)
               st1)
        | Choice aiContent =>
            match processOrderInstructions MENU aiContent session1 with
            | Some session2 =>
                let cleaned := cleanResponse aiContent in
                let session3 :=
                  pushMessage (mkMessage assistant cleaned) session2 in
                (mkResponse 200 (ChatBody cleaned (currentOrder session3)),
                 setSession sid session3 st1)
            | None => chatCatch sid session1 OtherFailure st1
            end
        end
    end.

(** [GET /api/order/:sessionId] *)
Definition getOrder (sessionId : jsstring) (st : State) : Response * State :=
  match sessions st !! sessionId with
  | None => (mkResponse 404 (ErrorBody (str "Session not found")), st)
  | Some session => (mkResponse 200 (OrderBody (currentOrder session)), st)
  end.

(** [PUT /api/order/:sessionId/item/:itemId], for a body whose
    [quantity] is an integer. The route hands [req.body.quantity] to
    [updateItemInOrder] as it is; a body without [quantity], or with one
    that is not a number, is outside this definition. *)
Definition putItem (sessionId itemId : jsstring) (qty : Z) (st : State)
    : Response * State :=
  match sessions st !! sessionId with
  | None => (mkResponse 404 (ErrorBody (str "Session not found")), st)
  | Some session =>
      match List.find (hasId itemId) (orderItems (currentOrder session)) with
      | None =>
          (mkResponse 404 (ErrorBody (str "Item not found in order")), st)
      | Some _ =>
          let session' := updateItemInOrder itemId qty session in
          (mkResponse 200 (OrderBody (currentOrder session')),
           setSession sessionId session' st)
      end
  end.

(** [POST /api/order/:sessionId/complete] *)
Definition complete (sessionId : jsstring) (info : jsvalue)
    (uuid now : jsstring) (st : State) : Response * State :=
  match sessions st !! sessionId with
  | None => (mkResponse 404 (ErrorBody (str "Session not found")), st)
  | Some session =>
      match orderItems (currentOrder session) with
      | [] =>
          (mkResponse 400 (ErrorBody (str "Cannot complete an empty order.")),
           st)
      | _ :: _ =>
          let orderId := uuid in
          let completedOrder :=
            mkCompleted (orderItems (currentOrder session))
              (totalCost (currentOrder session)) orderId (str "confirmed") now
              (match info with
               | Some v => if truthy info then v else JObj []
               | None => JObj []
               end) in
          (mkResponse 200
             (PlacedBody
                (str "Order #" ++ orderId
                 ++ str " has been successfully placed!")
                completedOrder),
           mkState (delete sessionId (sessions st))
                   (<[orderId := completedOrder]> (completedOrders st))
                   (completions st))
      end
  end.

(** [GET /api/order/completed/:orderId] *)
Definition getCompleted (orderId : jsstring) (st : State) : Response * State :=
  match completedOrders st !! orderId with
  | None => (mkResponse 404 (ErrorBody (str "Order not found")), st)
  | Some order => (mkResponse 200 (CompletedBody order), st)
  end.

(** A request to the application, with the inputs of its route; the
    [quantity] of a [PUT] is an integer. *)
Inductive Request :=
| GetMenu
| StartSession (uuid : jsstring)
| Chat (sessionId : option jsstring) (message : jsstring) (reply : Completion)
| GetOrder (sessionId : jsstring)
| PutItem (sessionId itemId : jsstring) (qty : Z)
| Complete (sessionId : jsstring) (info : jsvalue) (uuid now : jsstring)
| GetCompleted (orderId : jsstring).

Definition handle (r : Request) (st : State) : Response * State :=
  match r with
  | GetMenu => getMenu st
  | StartSession uuid => startSession uuid st
  | Chat sessionId message reply => chat sessionId message reply st
  | GetOrder sessionId => getOrder sessionId st
  | PutItem sessionId itemId qty => putItem sessionId itemId qty st
  | Complete sessionId info uuid now => complete sessionId info uuid now st
  | GetCompleted orderId => getCompleted orderId st
  end.




End MemoryServer.

(** ** The order of the command-line prototype

    The two global variables of the module, threaded as a state. *)

Module PrototypeOrder.
Import Menu Order Regex Directives.

Record OrderState := mkOrderState {
  orderId : option jsstring;
  items : list OrderLine;
  total : Z;
  orderStatus : jsstring;
  timestamp : option jsstring
}.

Record Globals := mkGlobals {
  history : list Message;
  current : OrderState
}.

(** The order that the module starts with and resets to. *)
Definition pendingOrder : OrderState :=
  mkOrderState None [] 0 (str "pending") None.

Definition addItemToOrder (menuItem : MenuItem) (qty : Z) (g : Globals)
    : Globals :=
  let its := items (current g) in
  let its' :=
    match List.find (hasId (id menuItem)) its with
    | Some existingItem =>
        updateFirst (id menuItem)
          (fun it => setQuantity (quantity it + qty) it) its
    | None =>
        its ++ [mkLine (id menuItem) (name menuItem) (price menuItem) qty]
    end in
  mkGlobals (history g)
    (mkOrderState (orderId (current g)) its' (calculateTotal its')
       (orderStatus (current g)) (timestamp (current g))).

Definition processAdd (menu : Catalog) (g : Globals) (m : jsstring)
    : option Globals :=
  match exec ORDER_ADD m with
  | Some (_, itemName :: quantityStr :: _) =>
      match Prototype.findMenuItem menu (trim itemName) with
      | Some menuItem => Some (addItemToOrder menuItem (parseInt quantityStr) g)
      | None => Some g
      end
  | _ => None
  end.

Fixpoint forEach (callback : Globals -> jsstring -> option Globals)
    (ms : list jsstring) (g : Globals) : option Globals :=
  match ms with
  | [] => Some g
  | m :: ms' =>
      match callback g m with
      | Some g' => forEach callback ms' g'
      | None => None
      end
  end.

Definition processOrderInstructions (menu : Catalog) (aiResponse : jsstring)
    (g : Globals) : option Globals :=
  forEach (processAdd menu) (matchAll ORDER_ADD aiResponse) g.

(** [uuid] is the value of [generateOrderId()], [now] the one of
    [new Date().toISOString()]; [None] is [null]. *)
Definition finalizeOrder (uuid now : jsstring) (g : Globals)
    : option OrderState * Globals :=
  match items (current g) with
  | [] => (None, g)
  | _ :: _ =>
      let finalized :=
        mkOrderState (Some uuid) (items (current g)) (total (current g))
          (str "confirmed") (Some now) in
      (Some finalized, mkGlobals (history g) finalized)
  end.

Definition completeOrder (uuid now : jsstring) (g : Globals)
    : option OrderState * Globals :=
  match finalizeOrder uuid now g with
  | (Some finalOrder, g') =>
      (Some finalOrder, mkGlobals (history g') pendingOrder)
  | (None, g') => (None, g')
  end.

(** [aiContent.replace(/ORDER_ADD:[^|]+\|QUANTITY:\d+/gi, '').trim()] *)
Definition cleanResponse (aiContent : jsstring) : jsstring :=
  trim (removeAll ORDER_ADD aiContent).

Definition failureMessage (e : MemoryServer.ChatError) : jsstring :=
  match e with
  | MemoryServer.RateLimited =>
      str "I'm experiencing high traffic right now. Please try again in a moment."
  | MemoryServer.Unauthorized =>
      str "Authentication error. Please check your API access."
  | MemoryServer.OtherFailure =>
      str "I'm sorry, an unexpected error occurred. Please try again."
  end.

Definition noChoiceMessage : jsstring :=
  str "I'm sorry, I couldn't process your request right now.".

(** [processOrderWithAI]; [reply] is what [inference.chatCompletion]
    does with the prompt. The function returns the text for the
    customer. *)
Definition processOrderWithAI (menu : Catalog) (userMessage : jsstring)
    (reply : MemoryServer.Completion) (g : Globals) : jsstring * Globals :=
  let g1 := mkGlobals (history g ++ [mkMessage user userMessage]) (current g) in
  match reply with
  | MemoryServer.Failure e => (failureMessage e, g1)
  | MemoryServer.NoChoice => (noChoiceMessage, g1)
  | MemoryServer.Choice aiContent =>
      match processOrderInstructions menu aiContent g1 with
      | Some g2 =>
          let cleaned := cleanResponse aiContent in
          (cleaned,
           mkGlobals (history g2 ++ [mkMessage assistant cleaned]) (current g2))
      | None => (failureMessage MemoryServer.OtherFailure, g1)
      end
  end.

Definition startOrderSession (menu : Catalog) (reply : MemoryServer.Completion)
    (g : Globals) : jsstring * Globals :=
  processOrderWithAI menu
    (str "Hello! I'd like to see your menu and place an order.") reply
    (mkGlobals [] pendingOrder).

Definition takeOrder (menu : Catalog) (customerMessage : jsstring)
    (reply : MemoryServer.Completion) (g : Globals) : jsstring * Globals :=
  processOrderWithAI menu customerMessage reply g.

(** The globals after a sequence of calls of [takeOrder], each with the
    message of the customer and what the model does. *)
Definition takeOrders (menu : Catalog)
    (turns : list (jsstring * MemoryServer.Completion)) (g : Globals)
    : Globals :=
  fold_left (fun g turn => (takeOrder menu turn.1 turn.2 g).2) turns g.

(** [runOrderDemo]: a session of four messages, then [completeOrder];
    [r0] to [r4] are what the model does at the five calls. *)
Definition runOrderDemo (menu : Catalog)
    (r0 r1 r2 r3 r4 : MemoryServer.Completion) (uuid now : jsstring)
    (g : Globals) : option OrderState * Globals :=
  let g0 := (startOrderSession menu r0 g).2 in
  let g1 := (takeOrder menu (str "I want jollof rice and chapman drink") r1
               g0).2 in
  let g2 := (takeOrder menu (str "Can I also get fried plantain?") r2 g1).2 in
  let g3 := (takeOrder menu (str "Actually, make that two jollof rice") r3
               g2).2 in
  let g4 := (takeOrder menu (str "That's all, I'm ready to order") r4 g3).2 in
  completeOrder uuid now g4.

(** The total of the order is the sum over its lines, and no two lines
    have the same id. *)
Definition orderOk (o : OrderState) : Prop :=
  total o = sumOfLines (items o) /\ NoDup (map lineId (items o)).

(** What the processing of a response keeps of the order: its id, status
    and time, the ids of its lines, and [orderOk]. *)
Definition keepsOrder (o o' : OrderState) : Prop :=
  orderId o' = orderId o
  /\ orderStatus o' = orderStatus o
  /\ timestamp o' = timestamp o
  /\ (forall i, i ∈ map lineId (items o) -> i ∈ map lineId (items o'))
  /\ (orderOk o -> orderOk o').

End PrototypeOrder.

(** ** Deleting a session ([server/lib/redis.js]), on a connected client *)

Module RedisLib.
Import Store.

(** [await redisClient.del(key)] *)
Definition redisDel (key : jsstring) : M unit :=
  fun w => (inr tt, mkWorld (delete key (redis w)) (modelCalls w)).

Definition deleteSession (sessionId : jsstring) : M bool :=
  tryCatch
    (bind (redisDel (str "session:" ++ sessionId)) (fun _ => ret true))
    (fun _ => ret false).


End RedisLib.

(** * Properties *)

(** ** Strings *)

Section StringFacts.
Import JsString.

Lemma char_eqb_eq (a b : ascii) : char_eqb a b = true <-> a = b.
Proof. apply Ascii.eqb_eq. Qed.

Lemma jsstring_eqb_eq (a b : jsstring) : jsstring_eqb a b = true <-> a = b.
Proof.
  revert b. induction a as [|x a IH]; intros [|y b]; simpl; split;
    try congruence; try done.
  - intros [Hxy Hab]%andb_true_iff. apply char_eqb_eq in Hxy.
    apply IH in Hab. by subst.
  - intros [= -> ->]. apply andb_true_iff. split.
    + by apply char_eqb_eq.
    + by apply IH.
Qed.

Lemma jsstring_eqb_refl (a : jsstring) : jsstring_eqb a a = true.
Proof. by apply jsstring_eqb_eq. Qed.

Lemma jsstring_eqb_neq (a b : jsstring) : jsstring_eqb a b = false <-> a <> b.
Proof.
  rewrite <- jsstring_eqb_eq. destruct (jsstring_eqb a b); split; congruence.
Qed.

End StringFacts.

(** ** The order mutation engine *)

Section OrderFacts.
Import Menu Order.

Lemma fold_total_shift (its : list OrderLine) (acc : Z) :
  fold_left (fun total it => total + linePrice it * quantity it) its acc
  = acc + sumOfLines its.
Proof.
  revert acc. induction its as [|it its IH]; intros acc; simpl.
  - lia.
  - rewrite IH. lia.
Qed.

Lemma calculateTotal_sum (its : list OrderLine) :
  calculateTotal its = sumOfLines its.
Proof. unfold calculateTotal. rewrite fold_total_shift. lia. Qed.

(** A filter that drops nothing returns its argument. *)
Lemma filter_full_length {A} (f : A -> bool) (l : list A) :
  ~ (length (List.filter f l) < length l)%nat -> List.filter f l = l.
Proof.
  induction l as [|x l IH]; simpl; [done|].
  pose proof (List.filter_length_le f l) as Hle.
  destruct (f x); simpl; intros Hlen.
  - f_equal. apply IH. lia.
  - lia.
Qed.

Lemma addItemToOrder_totalIsSum menuItem qty session :
  totalIsSum session -> totalIsSum (addItemToOrder menuItem qty session).
Proof.
  unfold addItemToOrder, totalIsSum. intros Hinv.
  destruct (qty <=? 0); [done|]. simpl. apply calculateTotal_sum.
Qed.

Lemma removeItemFromOrder_totalIsSum itemId session :
  totalIsSum session -> totalIsSum (removeItemFromOrder itemId session).
Proof.
  unfold removeItemFromOrder, totalIsSum. intros Hinv.
  destruct (_ <? _)%nat eqn:Hlt; simpl.
  - apply calculateTotal_sum.
  - apply Nat.ltb_nlt in Hlt. rewrite (filter_full_length _ _ Hlt). done.
Qed.

Lemma updateItemInOrder_totalIsSum itemId q session :
  totalIsSum session -> totalIsSum (updateItemInOrder itemId q session).
Proof.
  unfold updateItemInOrder. intros Hinv.
  destruct (List.find _ _); [|done].
  destruct (q <=? 0).
  - by apply removeItemFromOrder_totalIsSum.
  - unfold totalIsSum. simpl. apply calculateTotal_sum.
Qed.

Lemma applyMutation_totalIsSum m session :
  totalIsSum session -> totalIsSum (applyMutation m session).
Proof.
  destruct m; simpl.
  - apply addItemToOrder_totalIsSum.
  - apply removeItemFromOrder_totalIsSum.
  - apply updateItemInOrder_totalIsSum.
Qed.

Lemma trace_totalIsSum ms session :
  totalIsSum session -> Forall totalIsSum (trace ms session).
Proof.
  revert session. induction ms as [|m ms IH]; intros session Hinv; simpl.
  - constructor.
  - constructor.
    + by apply applyMutation_totalIsSum.
    + apply IH. by apply applyMutation_totalIsSum.
Qed.

(** C3. After each call of any sequence of addItem, removeItem and
    updateQuantity calls that starts from the empty order of a new
    session, [totalCost] is the sum of price times quantity over the
    lines the order then has. *)
Theorem total_cost_is_sum_after_every_mutation (ms : list Mutation) :
  Forall (fun session =>
            totalCost (currentOrder session)
            = sumOfLines (orderItems (currentOrder session)))
         (trace ms createNewSession).
Proof.
  apply (trace_totalIsSum ms createNewSession). reflexivity.
Qed.

(** What [removeItemFromOrder] leaves in the order: the lines that have
    the id, not the others. *)
Lemma removeItemFromOrder_items itemId session :
  orderItems (currentOrder (removeItemFromOrder itemId session))
  = List.filter (hasId itemId) (orderItems (currentOrder session)).
Proof.
  unfold removeItemFromOrder. destruct (_ <? _)%nat; reflexivity.
Qed.

(** C1. On the order of two jollof rice and one chapman, removing
    jollof rice keeps the jollof rice line and deletes the chapman line,
    and removing zobo, which is not in the order, empties it. *)
Theorem removeItem_keeps_target_drops_others :
  currentOrder (removeItemFromOrder (id jollof_rice) twoLineSession)
  = mkOrder [jollofLine 2] 5000
  /\ currentOrder (removeItemFromOrder (id zobo) twoLineSession)
     = mkOrder [] 0
  /\ orderItems (currentOrder twoLineSession) = [jollofLine 2; chapmanLine 1].
Proof. vm_compute. done. Qed.

(** C2. On the same order, updating jollof rice to quantity 0 keeps the
    jollof rice line with its quantity and deletes the chapman line. *)
Theorem updateQuantity_zero_keeps_target_drops_others :
  currentOrder (updateItemInOrder (id jollof_rice) 0 twoLineSession)
  = mkOrder [jollofLine 2] 5000
  /\ currentOrder (updateItemInOrder (id jollof_rice) (-1) twoLineSession)
     = mkOrder [jollofLine 2] 5000.
Proof. vm_compute. done. Qed.

(** The parts of updateQuantity that the code does as specified. *)
Lemma updateItemInOrder_absent itemId q session :
  itemId ∉ lineIds session -> updateItemInOrder itemId q session = session.
Proof.
  unfold updateItemInOrder, lineIds. intros Hnotin.
  destruct (List.find _ _) as [it|] eqn:Hfind; [|done].
  apply List.find_some in Hfind as [Hin Hid].
  apply jsstring_eqb_eq in Hid. exfalso. apply Hnotin.
  apply list_elem_of_fmap. exists it. split; [done|].
  by apply list_elem_of_In.
Qed.

Lemma find_hasId_None i its :
  List.find (hasId i) its = None <-> i ∉ map lineId its.
Proof.
  induction its as [|it its IH]; simpl.
  - split; [intros _; apply not_elem_of_nil | done].
  - unfold hasId at 1. destruct (jsstring_eqb (lineId it) i) eqn:Heq.
    + apply jsstring_eqb_eq in Heq. split; [done|].
      intros Hnotin. exfalso. apply Hnotin. rewrite Heq. apply list_elem_of_here.
    + apply jsstring_eqb_neq in Heq. rewrite IH, not_elem_of_cons.
      split; [by split|by intros [_ ?]].
Qed.

Lemma updateFirst_ids i f its :
  (forall it, lineId (f it) = lineId it) ->
  map lineId (updateFirst i f its) = map lineId its.
Proof.
  intros Hf. induction its as [|it its IH]; simpl; [done|].
  destruct (hasId i it); simpl; [by rewrite Hf | by rewrite IH].
Qed.

Lemma updateFirst_absent i f its :
  i ∉ map lineId its -> updateFirst i f its = its.
Proof.
  induction its as [|it its IH]; simpl; [done|].
  rewrite not_elem_of_cons. intros [Hne Hnotin].
  unfold hasId. destruct (jsstring_eqb (lineId it) i) eqn:Heq.
  - apply jsstring_eqb_eq in Heq. congruence.
  - by rewrite IH.
Qed.




(** With one line per id, the in-place update of the first line with an
    id touches that line and no other. *)
Lemma updateFirst_map i f its :
  NoDup (map lineId its) ->
  updateFirst i f its = map (fun it => if hasId i it then f it else it) its.
Proof.
  induction its as [|it its IH]; simpl; [done|].
  rewrite NoDup_cons. intros [Hnotin Hnodup].
  destruct (hasId i it) eqn:Hid.
  - f_equal. unfold hasId in Hid. apply jsstring_eqb_eq in Hid. subst i.
    clear IH Hnodup. induction its as [|it' its IH]; simpl; [done|].
    simpl in Hnotin. apply not_elem_of_cons in Hnotin as [Hne Hnotin].
    unfold hasId at 1. destruct (jsstring_eqb (lineId it') (lineId it)) eqn:Heq.
    + apply jsstring_eqb_eq in Heq. congruence.
    + f_equal. by apply IH.
  - f_equal. by apply IH.
Qed.



Lemma addItemToOrder_positive menuItem qty session :
  0 < qty ->
  addItemToOrder menuItem qty session
  = withOrder (mkOrder (addedLines menuItem qty
                          (orderItems (currentOrder session)))
                       (calculateTotal
                          (addedLines menuItem qty
                             (orderItems (currentOrder session)))))
              session.
Proof.
  intros Hpos. unfold addItemToOrder, addedLines.
  destruct (qty <=? 0) eqn:Hle; [lia|]. done.
Qed.

Lemma addedLines_ids_NoDup menuItem qty its :
  NoDup (map lineId its) -> NoDup (map lineId (addedLines menuItem qty its)).
Proof.
  intros Hnodup. unfold addedLines.
  destruct (List.find _ _) eqn:Hfind.
  - by rewrite updateFirst_ids.
  - apply find_hasId_None in Hfind. rewrite map_app. simpl.
    apply NoDup_app. split; [done|]. split.
    + intros x Hx Hx'. apply list_elem_of_singleton in Hx'. by subst.
    + apply NoDup_singleton.
Qed.





(** Every order that the mutation engine reaches from the empty order
    has one line per id. *)
Lemma filter_ids_NoDup (f : OrderLine -> bool) (its : list OrderLine) :
  NoDup (map lineId its) -> NoDup (map lineId (List.filter f its)).
Proof.
  induction its as [|it its IH]; simpl; [done|].
  rewrite NoDup_cons. intros [Hnotin Hnodup].
  destruct (f it); simpl; [|by apply IH].
  apply NoDup_cons. split; [|by apply IH].
  intros Hin. apply Hnotin.
  apply list_elem_of_fmap in Hin as (it' & Hid & Hin).
  apply list_elem_of_fmap. exists it'. split; [done|].
  apply list_elem_of_In, List.filter_In in Hin as [Hin _].
  by apply list_elem_of_In.
Qed.

Lemma applyMutation_NoDup m session :
  NoDup (lineIds session) -> NoDup (lineIds (applyMutation m session)).
Proof.
  unfold lineIds. intros Hnodup. destruct m as [menuItem qty|itemId|itemId q];
    simpl.
  - destruct (decide (0 < qty)) as [Hpos|Hneg].
    + rewrite addItemToOrder_positive by done. simpl.
      by apply addedLines_ids_NoDup.
    + unfold addItemToOrder. destruct (qty <=? 0) eqn:Hle; [done|lia].
  - rewrite removeItemFromOrder_items. by apply filter_ids_NoDup.
  - unfold updateItemInOrder. destruct (List.find _ _); [|done].
    destruct (q <=? 0).
    + rewrite removeItemFromOrder_items. by apply filter_ids_NoDup.
    + simpl. by rewrite updateFirst_ids.
Qed.

Lemma trace_NoDup ms session :
  NoDup (lineIds session) -> Forall (fun s => NoDup (lineIds s)) (trace ms session).
Proof.
  revert session. induction ms as [|m ms IH]; intros session Hnodup; simpl.
  - constructor.
  - constructor; [by apply applyMutation_NoDup|].
    apply IH. by apply applyMutation_NoDup.
Qed.

(** updateQuantity with a positive value, on an order with one line per
    id: the line with the id gets the quantity, the others stay. *)
Lemma updateItemInOrder_positive itemId q session :
  0 < q -> NoDup (lineIds session) -> itemId ∈ lineIds session ->
  orderItems (currentOrder (updateItemInOrder itemId q session))
  = map (fun it => if hasId itemId it then setQuantity q it else it)
        (orderItems (currentOrder session)).
Proof.
  intros Hpos Hnodup Hin. unfold updateItemInOrder.
  destruct (List.find _ _) eqn:Hfind.
  - destruct (q <=? 0) eqn:Hle; [lia|]. simpl. by apply updateFirst_map.
  - apply find_hasId_None in Hfind. done.
Qed.

End OrderFacts.

(** ** Menu resolution *)

Section ResolutionFacts.
Import Menu ResolutionSpec.

Lemma find_app_split {A} (f : A -> bool) (l1 l2 : list A) :
  List.find f (l1 ++ l2)
  = match List.find f l1 with
    | Some x => Some x
    | None => List.find f l2
    end.
Proof.
  induction l1 as [|x l1 IH]; simpl; [done|]. by destruct (f x).
Qed.

Lemma lastOr_cons_match q it its bestMatch :
  substringMatch q it = true ->
  lastOr q (it :: its) bestMatch = lastOr q its (Some it).
Proof.
  intros Hm. unfold lastOr. simpl. rewrite Hm.
  destruct (List.filter _ its) as [|x l]; [done|].
  rewrite last_cons. by destruct (last (x :: l)) eqn:Hlast.
Qed.

Lemma lastOr_app q l1 l2 bestMatch :
  lastOr q (l1 ++ l2) bestMatch = lastOr q l2 (lastOr q l1 bestMatch).
Proof.
  unfold lastOr. rewrite List.filter_app, last_app.
  by destruct (last (List.filter _ l2)).
Qed.

Lemma findInItems_spec q its bestMatch :
  Menu.findInItems q its bestMatch
  = match List.find (exactMatch q) its with
    | Some it => inl it
    | None => inr (lastOr q its bestMatch)
    end.
Proof.
  revert bestMatch. induction its as [|it its IH]; intros bestMatch; simpl.
  - done.
  - destruct (exactMatch q it); [done|].
    destruct (substringMatch q it) eqn:Hm.
    + rewrite IH. by rewrite lastOr_cons_match.
    + rewrite IH. unfold lastOr. simpl. by rewrite Hm.
Qed.

Lemma findInCategories_spec q menu bestMatch :
  Menu.findInCategories q menu bestMatch
  = match List.find (exactMatch q) (allItems menu) with
    | Some it => Some it
    | None => lastOr q (allItems menu) bestMatch
    end.
Proof.
  revert bestMatch. induction menu as [|[key cat] menu IH]; intros bestMatch.
  - done.
  - unfold allItems. simpl. fold (allItems menu).
    rewrite findInItems_spec, find_app_split.
    destruct (List.find _ (items cat)); [done|].
    rewrite IH, lastOr_app. done.
Qed.

Lemma prototype_findInItems_spec q its :
  Prototype.findInItems q its = List.find (Prototype.matches q) its.
Proof.
  induction its as [|it its IH]; simpl; [done|].
  by destruct (Prototype.matches q it).
Qed.

Lemma prototype_findInCategories_spec q menu :
  Prototype.findInCategories q menu
  = List.find (Prototype.matches q) (allItems menu).
Proof.
  induction menu as [|[key cat] menu IH]; [done|].
  unfold allItems. simpl. fold (allItems menu).
  rewrite prototype_findInItems_spec, find_app_split.
  by destruct (List.find _ (items cat)).
Qed.

(** C4, as the code has it. The server resolves a name to the first item
    of the catalog whose lower-cased name is the lower-cased, trimmed
    query, and without such an item to the last item of the catalog whose
    lower-cased name contains the query or is contained in it; it has no
    first-token level. The prototype resolves a name to the first item of
    the catalog whose name or id contains the query or whose first token
    is contained in the query. Either way the result is one item or
    none. *)
Theorem findMenuItem_precedence (menu : Catalog) (query : jsstring) :
  let q := trim (toLowerCase query) in
  Menu.findMenuItem menu query
  = match List.find (exactMatch q) (allItems menu) with
    | Some it => Some it
    | None => last (List.filter (substringMatch q) (allItems menu))
    end
  /\ Prototype.findMenuItem menu query
     = List.find (Prototype.matches q) (allItems menu).
Proof.
  intros q. split.
  - unfold Menu.findMenuItem. rewrite findInCategories_spec.
    fold q. destruct (List.find _ _); [done|].
    unfold lastOr. by destruct (last _).
  - unfold Prototype.findMenuItem. apply prototype_findInCategories_spec.
Qed.

(** C4 fails as stated. For "rice" the first substring match of the
    catalog is Jollof Rice, the server answers Fried Rice; for
    "jollof stew" the first tokens agree with Jollof Rice, the server
    answers none; for "Fried Plantain", the full name of an item, the
    prototype answers Fried Rice. *)
Lemma findMenuItem_differs_from_stated_precedence :
  Menu.findMenuItem MENU (str "rice") = Some fried_rice
  /\ resolve MENU (str "rice") = Some jollof_rice
  /\ Menu.findMenuItem MENU (str "rice") <> resolve MENU (str "rice")
  /\ Menu.findMenuItem MENU (str "jollof stew") = None
  /\ resolve MENU (str "jollof stew") = Some jollof_rice
  /\ Prototype.findMenuItem Prototype.MENU (str "Fried Plantain")
     = Some Prototype.fried_rice
  /\ resolve Prototype.MENU (str "Fried Plantain") = Some plantain.
Proof. vm_compute. repeat split; congruence. Qed.

(** The three resolutions that the specification lists do hold. *)
Lemma findMenuItem_listed_examples :
  Menu.findMenuItem MENU (str "jollof") = Some jollof_rice
  /\ Menu.findMenuItem MENU (str "Jollof Rice") = Some jollof_rice
  /\ Menu.findMenuItem MENU (str "pizza") = None.
Proof. vm_compute. done. Qed.

End ResolutionFacts.

(** ** Directive extraction on the scenario of the specification *)

Section ScenarioFacts.
Import Menu Order Regex Directives.

(** C5, as the code has it. The two ORDER_ADD directives of the scenario
    give, on a new session, an order of two lines, Jollof Rice with
    quantity 2 and Chapman with quantity 1, and the message shown to the
    user is the text without the directives, trimmed: it has no space at
    its end. *)
Theorem directive_scenario :
  let aiContent :=
    str "Sure! ORDER_ADD:Jollof Rice|QUANTITY:2 Anything else? ORDER_ADD:Chapman|QUANTITY:1"
  in
  processOrderInstructions MENU aiContent createNewSession
  = Some (mkSession [] (mkOrder [jollofLine 2; chapmanLine 1] 6200))
  /\ cleanResponse aiContent = str "Sure!  Anything else?".
Proof. vm_compute. done. Qed.

(** C5 fails as stated: the message is not the text that ends with a
    space; that text is the one before [trim]. *)
Lemma directive_scenario_message_is_trimmed :
  let aiContent :=
    str "Sure! ORDER_ADD:Jollof Rice|QUANTITY:2 Anything else? ORDER_ADD:Chapman|QUANTITY:1"
  in
  cleanResponse aiContent <> str "Sure!  Anything else? "
  /\ stripDirectives aiContent = str "Sure!  Anything else? ".
Proof. vm_compute. split; congruence. Qed.

End ScenarioFacts.

(** ** The session stores of the JSON-schema servers *)

Section StoreFacts.
Import Json Store.

Local Arguments str : simpl never.

Ltac run :=
  unfold UserServer.chat, SessionServer.chat, UserServer.getUserSession,
    SessionServer.getOrCreateSession, UserServer.updateSession,
    SessionServer.updateSession, UserServer.parseJson, UserServer.prop,
    tryCatch, bind, ret, throw, redisGet, redisSet, generateContent;
  simpl.

Lemma getUserSession_run (userId : option jsstring) (w : World) :
  UserServer.getUserSession userId w
  = match redis w !! UserServer.userKey userId with
    | Some e => (inr (value e), w)
    | None =>
        (inr freshSession,
         mkWorld (<[UserServer.userKey userId
                    := mkEntry freshSession None]> (redis w))
                 (modelCalls w))
    end.
Proof. run. by destruct (redis w !! _). Qed.

Lemma getOrCreateSession_run (random : jsstring) (sessionId : option jsstring)
    (w : World) :
  SessionServer.getOrCreateSession random sessionId w
  = if missing sessionId then
      (inr (str "sess_" ++ random, freshSession),
       mkWorld (<[SessionServer.sessionKey (str "sess_" ++ random)
                  := mkEntry freshSession None]> (redis w))
               (modelCalls w))
    else
      match redis w !! SessionServer.sessionKey (show sessionId) with
      | Some e => (inr (show sessionId, value e), w)
      | None => (inl SessionNotFound, w)
      end.
Proof.
  run. destruct (missing sessionId); [done|]. by destruct (redis w !! _).
Qed.



(** *** A turn whose model text is not JSON *)

Lemma userServer_chat_parse_failure JSON_parse req text w h :
  missing (ident req) = false -> history req = Some h ->
  JSON_parse (trim text) = None ->
  UserServer.chat JSON_parse req (ModelText text) w
  = (inr (mkResponse 500 (ErrorBody (str "Internal server error"))),
     mkWorld (redis (UserServer.getUserSession (ident req) w).2)
             (S (modelCalls w))).
Proof.
  intros Hid Hh Hparse. run. rewrite Hid, Hh, Hparse.
  by destruct (redis w !! _).
Qed.

Lemma sessionServer_chat_parse_failure JSON_parse random req text w cs w1 :
  SessionServer.getOrCreateSession random (ident req) w = (inr cs, w1) ->
  JSON_parse (trim text) = None ->
  SessionServer.chat JSON_parse true random req (ModelText text) w
  = (inr (mkResponse 500 (ErrorBody (str "Failed to process AI response"))),
     mkWorld (redis w1) (S (modelCalls w1))).
Proof.
  intros Hload Hparse. unfold SessionServer.chat. simpl.
  unfold tryCatch at 1. unfold bind at 1. rewrite Hload.
  run. by rewrite Hparse.
Qed.

Lemma getOrCreateSession_calls random sessionId w r w1 :
  SessionServer.getOrCreateSession random sessionId w = (r, w1) ->
  modelCalls w1 = modelCalls w.
Proof.
  rewrite getOrCreateSession_run. destruct (missing _).
  - by intros [= <- <-].
  - destruct (redis w !! _); by intros [= <- <-].
Qed.

(** C7. A turn whose model text [JSON_parse] refuses: both servers
    answer 500, after the one call of the model, and write nothing after
    they have loaded the session. When the store holds the session of
    the turn (the one of the user, or the one that the request names),
    the store after the turn is the store of before. When it does not,
    the load has stored a fresh session under the key of the user, or
    under the new identifier for a request without identifier; that
    fresh session is what the store holds after the turn, and no other
    key has changed. *)
Theorem malformed_model_text_is_hard_error
    (JSON_parse : jsstring -> option json) (text random : jsstring)
    (reqU reqS : Request) (h : list (jsstring * jsstring))
    (cs : jsstring * Session) (w w1 : World) :
  JSON_parse (trim text) = None ->
  missing (ident reqU) = false -> history reqU = Some h ->
  SessionServer.getOrCreateSession random (ident reqS) w = (inr cs, w1) ->
  (exists w',
     UserServer.chat JSON_parse reqU (ModelText text) w
     = (inr (mkResponse 500 (ErrorBody (str "Internal server error"))), w')
     /\ modelCalls w' = S (modelCalls w)
     /\ match redis w !! UserServer.userKey (ident reqU) with
        | Some _ => redis w' = redis w
        | None =>
            value <$> redis w' !! UserServer.userKey (ident reqU)
            = Some freshSession
            /\ (forall k, k <> UserServer.userKey (ident reqU) ->
                          redis w' !! k = redis w !! k)
        end
     /\ (forall k e, redis w !! k = Some e -> redis w' !! k = Some e)
     /\ (UserServer.getUserSession (ident reqU) w').1
        = (UserServer.getUserSession (ident reqU) w).1)
  /\ (exists w',
        SessionServer.chat JSON_parse true random reqS (ModelText text) w
        = (inr (mkResponse 500
                  (ErrorBody (str "Failed to process AI response"))), w')
        /\ modelCalls w' = S (modelCalls w)
        /\ redis w' = redis w1
        /\ value <$> redis w' !! SessionServer.sessionKey cs.1 = Some cs.2
        /\ if missing (ident reqS)
           then cs = (str "sess_" ++ random, freshSession)
                /\ (forall k,
                      k <> SessionServer.sessionKey (str "sess_" ++ random) ->
                      redis w' !! k = redis w !! k)
           else redis w' = redis w).
Proof.
  intros Hparse Hid Hh Hload. split.
  - eexists. split; [by eapply userServer_chat_parse_failure|].
    rewrite !getUserSession_run. simpl.
    destruct (redis w !! UserServer.userKey (ident reqU)) as [e|] eqn:Hget;
      simpl.
    + rewrite Hget. done.
    + rewrite lookup_insert_eq. split; [done|]. split; [|split; [|done]].
      * split; [done|]. intros k Hk. by rewrite lookup_insert_ne.
      * intros k e Hk. rewrite lookup_insert_ne; [done|]. congruence.
  - eexists. split; [by eapply sessionServer_chat_parse_failure|]. simpl.
    split; [f_equal; by eapply getOrCreateSession_calls|].
    split; [done|].
    rewrite getOrCreateSession_run in Hload.
    destruct (missing (ident reqS)).
    + injection Hload as <- <-. simpl. rewrite lookup_insert_eq.
      split; [done|]. split; [done|].
      intros k Hk. by rewrite lookup_insert_ne.
    + destruct (redis w !! _) as [e|] eqn:Hget; [|done].
      injection Hload as <- <-. simpl. by rewrite Hget.
Qed.

(** A turn of a user and a turn in a session whose stored order has a
    line, on the text "oops": the store is left as it was. *)
Lemma malformed_model_text_is_hard_error_witness :
  let stored := mkSession (Some sampleOrder) (Some emptyContext) in
  let w := mkWorld (<[str "user:u1" := mkEntry stored None]>
                      {[ str "session:s1" := mkEntry stored None ]}) 0 in
  let reqU := mkRequest (str "hello") (Some []) (Some (str "u1")) in
  let reqS := mkRequest (str "hello") (Some []) (Some (str "s1")) in
  (exists w',
     UserServer.chat sampleParse reqU (ModelText (str "oops")) w
     = (inr (mkResponse 500 (ErrorBody (str "Internal server error"))), w')
     /\ modelCalls w' = S (modelCalls w)
     /\ redis w' = redis w)
  /\ (exists w',
        SessionServer.chat sampleParse true (str "r4nd0m") reqS
          (ModelText (str "oops")) w
        = (inr (mkResponse 500
                  (ErrorBody (str "Failed to process AI response"))), w')
        /\ modelCalls w' = S (modelCalls w)
        /\ redis w' = redis w
        /\ value <$> redis w' !! SessionServer.sessionKey (str "s1")
           = Some stored).
Proof.
  intros stored w reqU reqS.
  destruct (malformed_model_text_is_hard_error sampleParse (str "oops")
              (str "r4nd0m") reqU reqS [] (str "s1", stored) w w)
    as [(wU & HU & HcallsU & HstoreU & _) (wS & HS & HcallsS & _ & Hval & HstoreS)].
  - vm_compute. reflexivity.
  - reflexivity.
  - reflexivity.
  - vm_compute. reflexivity.
  - split.
    + exists wU. split; [exact HU|]. split; [exact HcallsU|]. exact HstoreU.
    + exists wS. split; [exact HS|]. split; [exact HcallsS|].
      split; [exact HstoreS|exact Hval].
Defined.

(** *** A turn whose model text is a JSON payload *)








End StoreFacts.

(** ** The matcher on the directive patterns *)

Section MatcherFacts.
Import Regex Directives.

Lemma sameChar_canonicalize (a b : ascii) :
  sameChar a b = true <-> canonicalize a = canonicalize b.
Proof. unfold sameChar. apply char_eqb_eq. Qed.

Lemma matchLit_app (text D Y : jsstring) :
  map canonicalize D = map canonicalize text -> matchLit text (D ++ Y) = Some Y.
Proof.
  revert D. induction text as [|x text IH]; intros [|d D]; simpl; try done.
  intros [= Hd HD]. symmetry in Hd. apply sameChar_canonicalize in Hd.
  rewrite Hd. by apply IH.
Qed.

Lemma matchLit_inv (text s s' : jsstring) :
  matchLit text s = Some s' ->
  exists l, s = l ++ s' /\ map canonicalize l = map canonicalize text.
Proof.
  revert s. induction text as [|x text IH]; intros s; simpl.
  - intros [= ->]. by exists [].
  - destruct s as [|y s]; [done|].
    destruct (sameChar x y) eqn:Hxy; [|done].
    intros (l & -> & Hl)%IH. exists (y :: l). split; [done|].
    simpl. apply sameChar_canonicalize in Hxy. by rewrite Hxy, Hl.
Qed.

(** What a repetition that matched has taken: a run of the class, not
    empty, on which the continuation succeeded. *)
Lemma matchPlus_inv {R} (class : ascii -> bool)
    (k : jsstring -> jsstring -> option R) (taken s : jsstring) (r : R) :
  matchPlus class k taken s = Some r ->
  exists run s', s = run ++ s' /\ run <> []
    /\ Forall (fun c => class c = true) run
    /\ k (taken ++ run) s' = Some r.
Proof.
  revert taken. induction s as [|c s IH]; intros taken; simpl; [done|].
  destruct (class c) eqn:Hc; [|done].
  destruct (matchPlus class k (taken ++ [c]) s) as [r'|] eqn:Hmore.
  - intros [= ->]. apply IH in Hmore as (run & s' & -> & _ & Hrun & Hk).
    exists (c :: run), s'. split; [done|]. split; [done|].
    split; [by constructor|]. by rewrite <- (assoc_L (++)) in Hk.
  - intros Hk. exists [c], s. split; [done|]. split; [done|].
    split; [by repeat constructor|done].
Qed.

(** When the continuation cannot fail, the repetition takes the whole
    run. *)
Lemma matchPlus_total_inv {R} (class : ascii -> bool)
    (g : jsstring -> jsstring -> R) (taken s : jsstring) (r : R) :
  matchPlus class (fun cap s' => Some (g cap s')) taken s = Some r ->
  exists run s', s = run ++ s' /\ run <> []
    /\ Forall (fun c => class c = true) run
    /\ r = g (taken ++ run) s' /\ stopsRun class s'.
Proof.
  revert taken. induction s as [|c s IH]; intros taken; simpl; [done|].
  destruct (class c) eqn:Hc; [|done].
  destruct (matchPlus class _ (taken ++ [c]) s) as [r'|] eqn:Hmore.
  - intros [= ->]. apply IH in Hmore as (run & s' & -> & _ & Hrun & Hr & Hstop).
    exists (c :: run), s'. split; [done|]. split; [done|].
    split; [by constructor|]. by rewrite <- (assoc_L (++)) in Hr.
  - intros [= <-]. exists [c], s. split; [done|]. split; [done|].
    split; [by repeat constructor|]. split; [done|].
    destruct s as [|c' s]; simpl; [done|]. simpl in Hmore.
    destruct (class c'); [|done].
    by destruct (matchPlus class _ ((taken ++ [c]) ++ [c']) s).
Qed.

Lemma matchPlus_total_run {R} (class : ascii -> bool)
    (g : jsstring -> jsstring -> R) (taken run s' : jsstring) :
  run <> [] -> Forall (fun c => class c = true) run -> stopsRun class s' ->
  matchPlus class (fun cap s'' => Some (g cap s'')) taken (run ++ s')
  = Some (g (taken ++ run) s').
Proof.
  revert taken. induction run as [|c run IH]; intros taken Hne Hrun Hstop;
    [done|].
  apply Forall_cons in Hrun as [Hc Hrun]. simpl. rewrite Hc.
  destruct run as [|c' run].
  - simpl. destruct s' as [|c' s']; simpl; [done|].
    simpl in Hstop. by rewrite Hstop.
  - rewrite IH by done. by rewrite <- (assoc_L (++)).
Qed.

Lemma matchLength_inv (p : Pattern) (s : jsstring) (n : nat) :
  matchLength p s = Some n ->
  exists caps s', matchHere p [] s = Some (caps, s')
    /\ n = (length s - length s')%nat.
Proof.
  unfold matchLength. destruct (matchHere p [] s) as [[caps s']|]; [|done].
  intros [= <-]. by exists caps, s'.
Qed.

Lemma map_Forall_ne {A B} (f : A -> B) (l : list A) (L : list B) (x : B) :
  map f l = L -> Forall (fun y => y <> x) L -> Forall (fun c => f c <> x) l.
Proof.
  intros <-. induction l as [|c l IH]; simpl; [constructor|].
  intros [Hc Hl]%Forall_cons. constructor; [done|by apply IH].
Qed.

Lemma notBar_true (c : ascii) : notBar c = true <-> canonicalize c <> "|"%char.
Proof.
  unfold notBar. rewrite negb_true_iff. unfold sameChar.
  change (canonicalize "|") with "|"%char.
  destruct (char_eqb (canonicalize c) "|") eqn:Heq.
  - apply char_eqb_eq in Heq. split; [done|congruence].
  - split; [|done]. intros _ Hc. apply char_eqb_eq in Hc. congruence.
Qed.

Lemma notBar_false (c : ascii) : notBar c = false <-> canonicalize c = "|"%char.
Proof.
  pose proof (notBar_true c) as H. destruct (notBar c).
  - split; [done|]. intros Hc. by apply H in Hc.
  - split; [|done]. intros _.
    destruct (ascii_dec (canonicalize c) "|") as [|Hne]; [done|].
    apply H in Hne. done.
Qed.

Lemma isDigit_not_O (c : ascii) :
  isDigit c = true -> canonicalize c <> "O"%char.
Proof.
  destruct c as [[] [] [] [] [] [] [] []]; vm_compute; congruence.
Qed.

Lemma isRemoveKeyword_length D : isRemoveKeyword D -> length D = 13%nat.
Proof.
  unfold isRemoveKeyword. intros H. apply (f_equal length) in H.
  by rewrite length_map in H.
Qed.

Lemma isRemoveKeyword_notBar D :
  isRemoveKeyword D -> Forall (fun c => notBar c = true) D.
Proof.
  intros H. eapply Forall_impl.
  - eapply (map_Forall_ne canonicalize D _ "|"%char H).
    vm_compute. repeat constructor; congruence.
  - intros c Hc. by apply notBar_true.
Qed.

Lemma isRemoveKeyword_head D :
  isRemoveKeyword D -> exists d D', D = d :: D' /\ canonicalize d = "O"%char.
Proof.
  unfold isRemoveKeyword. destruct D as [|d D']; [done|].
  intros [= Hd _]. by exists d, D'.
Qed.

(** A match of the REMOVE pattern: the keyword and the whole run of
    characters other than the bar that follows it. *)
Lemma remove_match_inv (s : jsstring) (caps : list jsstring) (s' : jsstring) :
  matchHere ORDER_REMOVE [] s = Some (caps, s') ->
  exists l run, s = l ++ run ++ s' /\ isRemoveKeyword l /\ run <> []
    /\ Forall (fun c => notBar c = true) run /\ caps = [run]
    /\ stopsRun notBar s'.
Proof.
  unfold ORDER_REMOVE. cbn [matchHere].
  destruct (matchLit _ s) as [s1|] eqn:Hlit; [|done].
  apply matchLit_inv in Hlit as (l & -> & Hl).
  intros (run & s2 & -> & Hne & Hrun & Heq & Hstop)%matchPlus_total_inv.
  simpl in Heq. injection Heq as -> ->. by exists l, run.
Qed.

Lemma remove_match_intro (D run s' : jsstring) :
  isRemoveKeyword D -> run <> [] -> Forall (fun c => notBar c = true) run ->
  stopsRun notBar s' ->
  matchHere ORDER_REMOVE [] (D ++ run ++ s') = Some ([run], s').
Proof.
  intros HD Hne Hrun Hstop. unfold ORDER_REMOVE. cbn [matchHere].
  rewrite matchLit_app by done.
  by rewrite (matchPlus_total_run notBar (fun cap s'' => ([] ++ [cap], s''))).
Qed.

(** A match of the ADD pattern has one bar, and no letter O after it. *)
Lemma add_match_inv (s : jsstring) (caps : list jsstring) (s' : jsstring) :
  matchHere ORDER_ADD [] s = Some (caps, s') ->
  exists P bar tl, s = P ++ bar :: tl ++ s' /\ notBar bar = false
    /\ Forall (fun c => canonicalize c <> "O"%char) tl.
Proof.
  unfold ORDER_ADD. cbn [matchHere].
  destruct (matchLit _ s) as [s1|] eqn:Hlit; [|done].
  apply matchLit_inv in Hlit as (l & -> & Hl).
  intros (run & s2 & -> & Hne & Hrun & Hk)%matchPlus_inv.
  destruct (matchLit _ s2) as [s3|] eqn:Hlit2; [|done].
  apply matchLit_inv in Hlit2 as (q & -> & Hq).
  apply matchPlus_total_inv in Hk as (ds & s4 & -> & _ & Hds & Heq & _).
  injection Heq as _ ->.
  destruct q as [|bar q']; [done|]. injection Hq as Hbar Hq'.
  exists (l ++ run), bar, (q' ++ ds). split; [|split].
  - by rewrite <- !(assoc_L (++)).
  - by apply notBar_false.
  - apply Forall_app. split.
    + eapply (map_Forall_ne canonicalize q' _ "O"%char Hq').
      vm_compute. repeat constructor; congruence.
    + eapply Forall_impl; [exact Hds|]. intros c. apply isDigit_not_O.
Qed.

End MatcherFacts.

(** ** Scanning a text for the matches of a pattern *)

Section ScanFacts.
Import Regex Directives.

Lemma removeAllFrom_sublist_drop (p : Pattern) (k : nat) (s : jsstring) :
  removeAllFrom p k s `sublist_of` drop k s.
Proof.
  revert k. induction s as [|c s IH]; intros k.
  - by destruct k.
  - destruct k as [|k]; simpl.
    + destruct (matchLength p (c :: s)) as [[|n]|].
      * by apply sublist_skip.
      * apply sublist_cons. etrans; [apply IH|]. apply sublist_drop.
      * by apply sublist_skip.
    + apply IH.
Qed.

Lemma removeAllFrom_sublist (p : Pattern) (k : nat) (s : jsstring) :
  removeAllFrom p k s `sublist_of` s.
Proof. etrans; [apply removeAllFrom_sublist_drop|]. apply sublist_drop. Qed.

(** The scan of [a ++ b] is a scan of [a] followed by a scan of [b] that
    starts inside the match, if any, that runs over the border. *)
Lemma removeAllFrom_app (p : Pattern) (a : jsstring) :
  forall (skip : nat) (b : jsstring),
  exists out k,
    removeAllFrom p skip (a ++ b) = out ++ removeAllFrom p k b
    /\ out `sublist_of` a
    /\ (k = 0%nat
        \/ (length a < skip /\ k = skip - length a)%nat
        \/ exists a1 a2 n,
             a = a1 ++ a2 /\ a2 <> [] /\ matchLength p (a2 ++ b) = Some n
             /\ n = (length a2 + k)%nat /\ (0 < k)%nat).
Proof.
  induction a as [|c a IH]; intros skip b.
  - exists [], skip. split; [done|]. split; [done|].
    destruct skip; [by left|]. right. left. simpl. lia.
  - destruct skip as [|skip]; simpl.
    + destruct (matchLength p (c :: a ++ b)) as [[|n]|] eqn:Hm.
      * destruct (IH 0%nat b) as (out & k & Heq & Hsub & Hk).
        exists (c :: out), k. rewrite Heq. split; [done|].
        split; [by apply sublist_skip|].
        destruct Hk as [->|[[Hlt _]|(a1 & a2 & n & -> & ? & ? & ? & ?)]].
        -- by left.
        -- lia.
        -- right. right. by exists (c :: a1), a2, n.
      * destruct (IH n b) as (out & k & Heq & Hsub & Hk).
        exists out, k. rewrite Heq. split; [done|].
        split; [by apply sublist_cons|].
        destruct Hk as [->|[[Hlt ->]|(a1 & a2 & n' & -> & ? & ? & ? & ?)]].
        -- by left.
        -- right. right. exists [], (c :: a), (S n).
           split; [done|]. split; [done|]. split; [done|]. simpl. lia.
        -- right. right. by exists (c :: a1), a2, n'.
      * destruct (IH 0%nat b) as (out & k & Heq & Hsub & Hk).
        exists (c :: out), k. rewrite Heq. split; [done|].
        split; [by apply sublist_skip|].
        destruct Hk as [->|[[Hlt _]|(a1 & a2 & n & -> & ? & ? & ? & ?)]].
        -- by left.
        -- lia.
        -- right. right. by exists (c :: a1), a2, n.
    + destruct (IH skip b) as (out & k & Heq & Hsub & Hk).
      exists out, k. rewrite Heq. split; [done|].
      split; [by apply sublist_cons|].
      destruct Hk as [->|[[Hlt ->]|(a1 & a2 & n & -> & ? & ? & ? & ?)]].
      * by left.
      * right. left. lia.
      * right. right. by exists (c :: a1), a2, n.
Qed.

(** The scan of [a ++ b] up to the first match that starts in [a]. *)
Lemma removeAllFrom_first_match (p : Pattern) (a b : jsstring) :
  removeAllFrom p 0 (a ++ b) = a ++ removeAllFrom p 0 b
  \/ exists a1 c a2 n,
       a = a1 ++ c :: a2 /\ matchLength p (c :: a2 ++ b) = Some (S n)
       /\ removeAllFrom p 0 (a ++ b) = a1 ++ removeAllFrom p n (a2 ++ b).
Proof.
  induction a as [|c a IH]; [by left|]. simpl.
  destruct (matchLength p (c :: a ++ b)) as [[|n]|] eqn:Hm.
  - destruct IH as [->|(a1 & c' & a2 & n & -> & Hm' & ->)]; [by left|].
    right. by exists (c :: a1), c', a2, n.
  - right. by exists [], c, a, n.
  - destruct IH as [->|(a1 & c' & a2 & n & -> & Hm' & ->)]; [by left|].
    right. by exists (c :: a1), c', a2, n.
Qed.

(** An ADD match that begins before a stretch [G] without bar and reaches
    it covers it: the one bar of the match is not in [G], and it is not
    before [G] when [G] begins with the letter O. *)
Lemma add_match_covers (a2 G rest : jsstring) (n : nat) :
  matchLength ORDER_ADD (a2 ++ G ++ rest) = Some n -> (length a2 < n)%nat ->
  Forall (fun c => notBar c = true) G ->
  (a2 <> [] -> exists d G', G = d :: G' /\ canonicalize d = "O"%char) ->
  (length a2 + length G <= n)%nat.
Proof.
  intros (caps & s' & Hm & ->)%matchLength_inv Hlt HG Hhead.
  apply add_match_inv in Hm as (P & bar & tl & Heq & Hbar & Htl).
  apply (f_equal length) in Heq as Hlen. rewrite !length_app in Hlen.
  simpl in Hlen. rewrite length_app in Hlen.
  rewrite !length_app in Hlt |- *.
  destruct (decide (length P < length a2)%nat) as [HP|HP].
  - destruct Hhead as (d & G' & -> & Hd); [intros ->; simpl in HP; lia|].
    assert (Hl : (a2 ++ (d :: G') ++ rest) !! length a2 = Some d).
    { rewrite lookup_app_r by lia. by rewrite Nat.sub_diag. }
    rewrite Heq in Hl. rewrite lookup_app_r in Hl by lia.
    destruct (length a2 - length P)%nat as [|i] eqn:Hi; [lia|]. simpl in Hl.
    rewrite lookup_app_l in Hl by lia.
    by apply (Forall_lookup_1 _ _ _ _ Htl) in Hl.
  - destruct (decide (length P < length a2 + length G)%nat) as [HPG|HPG];
      [|lia].
    assert (Hl : (P ++ bar :: tl ++ s') !! length P = Some bar).
    { rewrite lookup_app_r by lia. by rewrite Nat.sub_diag. }
    rewrite <- Heq in Hl. rewrite lookup_app_r, lookup_app_l in Hl by lia.
    apply (Forall_lookup_1 _ _ _ _ HG) in Hl. congruence.
Qed.

(** A REMOVE match that reaches a stretch [G] without bar covers it. *)
Lemma remove_match_covers (a2 G rest : jsstring) (n : nat) :
  matchLength ORDER_REMOVE (a2 ++ G ++ rest) = Some n -> (length a2 <= n)%nat ->
  Forall (fun c => notBar c = true) G ->
  (length a2 + length G <= n)%nat.
Proof.
  intros (caps & s' & Hm & ->)%matchLength_inv Hle HG.
  apply remove_match_inv in Hm as (l & run & Heq & Hl & Hne & Hrun & _ & Hstop).
  apply (f_equal length) in Heq as Hlen. rewrite !length_app in Hlen.
  rewrite !length_app in Hle |- *.
  destruct (decide (length a2 + length G
                    <= length a2 + (length G + length rest) - length s')%nat)
    as [|Hlt]; [done|]. exfalso.
  assert (Hlook : (a2 ++ G ++ rest) !! (length l + length run)%nat
                  = s' !! 0%nat).
  { rewrite Heq. rewrite lookup_app_r by lia.
    rewrite lookup_app_r by lia. f_equal. lia. }
  rewrite lookup_app_r, lookup_app_l in Hlook by lia.
  destruct s' as [|x s']; simpl in *; [lia|].
  apply (Forall_lookup_1 _ _ _ _ HG) in Hlook. congruence.
Qed.

(** It ends where the stretch ends, when a bar or nothing follows. *)
Lemma remove_match_exact (a2 G rest : jsstring) (n : nat) :
  matchLength ORDER_REMOVE (a2 ++ G ++ rest) = Some n -> (length a2 <= n)%nat ->
  Forall (fun c => notBar c = true) G -> (13 <= length G)%nat ->
  stopsRun notBar rest ->
  n = (length a2 + length G)%nat
  /\ matchHere ORDER_REMOVE [] (a2 ++ G) = Some ([drop 13 (a2 ++ G)], []).
Proof.
  intros Hm Hle HG H13 Hrest.
  pose proof (remove_match_covers _ _ _ _ Hm Hle HG) as Hge.
  apply matchLength_inv in Hm as (caps & s' & Hm & ->).
  apply remove_match_inv in Hm as (l & run & Heq & Hl & Hne & Hrun & _ & Hstop).
  apply isRemoveKeyword_length in Hl as Hl13.
  apply (f_equal length) in Heq as Hlen. rewrite !length_app in Hlen.
  rewrite !length_app in Hge, Hle |- *.
  assert (Hn : (length a2 + (length G + length rest) - length s'
                = length a2 + length G)%nat).
  { destruct (decide (length a2 + (length G + length rest) - length s'
                      <= length a2 + length G)%nat) as [|Hgt]; [lia|].
    exfalso.
    assert (Hlook : (a2 ++ G ++ rest) !! (length a2 + length G)%nat
                    = rest !! 0%nat).
    { rewrite lookup_app_r by lia. rewrite lookup_app_r by lia. f_equal. lia. }
    rewrite Heq in Hlook. rewrite lookup_app_r, lookup_app_l in Hlook by lia.
    destruct rest as [|y rest]; simpl in *; [lia|].
    apply (Forall_lookup_1 _ _ _ _ Hrun) in Hlook. congruence. }
  split; [done|].
  assert (Htake : a2 ++ G = l ++ run).
  { apply (f_equal (take (length a2 + length G))) in Heq.
    rewrite (assoc_L (++)) in Heq.
    rewrite take_app_length' in Heq by (rewrite length_app; lia).
    rewrite (assoc_L (++)) in Heq.
    rewrite take_app_length' in Heq by (rewrite length_app; lia). done. }
  rewrite Htake. rewrite drop_app_length' by done.
  rewrite <- (app_nil_r (l ++ run)), <- (assoc_L (++)).
  by apply remove_match_intro.
Qed.

(** Every text is a run of the class followed by a text that stops it. *)
Lemma run_split (class : ascii -> bool) (s : jsstring) :
  exists run s', s = run ++ s' /\ Forall (fun c => class c = true) run
    /\ stopsRun class s'.
Proof.
  induction s as [|c s (run & s' & -> & Hrun & Hstop)].
  - by exists [], [].
  - destruct (class c) eqn:Hc.
    + exists (c :: run), s'. split; [done|]. split; [by constructor|done].
    + exists [], (c :: run ++ s'). split; [done|]. split; [constructor|done].
Qed.

(** The keyword followed by a character other than the bar is a match. *)
Lemma remove_match_exists (D : jsstring) (c : ascii) (Y : jsstring) :
  isRemoveKeyword D -> notBar c = true ->
  exists n, matchLength ORDER_REMOVE (D ++ c :: Y) = Some n.
Proof.
  intros HD Hc. destruct (run_split notBar Y) as (run & s' & -> & Hrun & Hstop).
  unfold matchLength. change (c :: run ++ s') with ((c :: run) ++ s').
  rewrite (remove_match_intro D (c :: run) s') by (try constructor; done).
  by eexists.
Qed.

End ScanFacts.

(** ** The text that follows an ORDER_REMOVE keyword *)

Section RemoveCaptureFacts.
Import Menu Order Regex Directives.

Lemma trimStart_sublist (s : jsstring) : trimStart s `sublist_of` s.
Proof.
  induction s as [|c s IH]; simpl; [done|].
  destruct (isWhiteSpace c); [by apply sublist_cons|done].
Qed.

Lemma trimStart_suffix (s : jsstring) : exists k, s = k ++ trimStart s.
Proof.
  induction s as [|c s [k IH]]; simpl; [by exists []|].
  destruct (isWhiteSpace c); [|by exists []].
  exists (c :: k). simpl. by rewrite <- IH.
Qed.

Lemma trimEnd_sublist (s : jsstring) : trimEnd s `sublist_of` s.
Proof.
  unfold trimEnd. destruct (trimStart_suffix (rev s)) as [k Hk].
  apply (f_equal (rev (A:=ascii))) in Hk. rewrite rev_involutive, rev_app_distr in Hk.
  rewrite Hk at 2. apply sublist_inserts_r. done.
Qed.

Lemma trim_sublist (s : jsstring) : trim s `sublist_of` s.
Proof.
  unfold trim. etrans; [apply trimEnd_sublist|apply trimStart_sublist].
Qed.

Lemma removeAllFrom_match (p : Pattern) (s : jsstring) (n : nat) :
  matchLength p s = Some n -> (0 < n)%nat ->
  removeAllFrom p 0 s `sublist_of` drop n s.
Proof.
  intros Hm Hn. destruct s as [|c s]; [apply sublist_nil_l|].
  destruct n as [|n]; [lia|]. simpl. rewrite Hm.
  apply removeAllFrom_sublist_drop.
Qed.

Lemma removeAllFrom_past (p : Pattern) (k : nat) (G rest : jsstring) :
  (length G <= k)%nat -> removeAllFrom p k (G ++ rest) `sublist_of` rest.
Proof.
  intros Hk. etrans; [apply removeAllFrom_sublist_drop|].
  rewrite drop_app_ge by done. apply sublist_drop.
Qed.

(** After the ADD directives are taken out, either nothing of [T] is
    left, or the keyword is still followed by a part of [T]. *)
Lemma strip_add_stage (pre D T rest : jsstring) :
  isRemoveKeyword D -> Forall (fun c => notBar c = true) T ->
  removeAll ORDER_ADD (pre ++ D ++ T ++ rest) `sublist_of` pre ++ D ++ rest
  \/ exists pre1 T1 rest1,
       removeAll ORDER_ADD (pre ++ D ++ T ++ rest) = pre1 ++ D ++ T1 ++ rest1
       /\ pre1 `sublist_of` pre /\ rest1 `sublist_of` rest
       /\ T1 <> [] /\ Forall (fun c => notBar c = true) T1.
Proof.
  intros HD HT. unfold removeAll.
  assert (HG : Forall (fun c => notBar c = true) (D ++ T)).
  { apply Forall_app. split; [by apply isRemoveKeyword_notBar|done]. }
  replace (pre ++ D ++ T ++ rest) with (pre ++ (D ++ T) ++ rest)
    by (by rewrite <- !(assoc_L (++))).
  destruct (removeAllFrom_app ORDER_ADD pre 0 ((D ++ T) ++ rest))
    as (out & k & -> & Hout & Hk).
  destruct Hk as [->|[[Hlt _]|(a1 & a2 & n & -> & Hne & Hm & -> & Hpos)]];
    [|lia|].
  - destruct (removeAllFrom_first_match ORDER_ADD (D ++ T) rest)
      as [->|(g1 & c & g2 & n & Hsplit & Hm & ->)].
    + destruct T as [|t T].
      * left. rewrite app_nil_r. apply sublist_app; [done|].
        apply sublist_app; [done|]. apply removeAllFrom_sublist.
      * right. exists out, (t :: T), (removeAllFrom ORDER_ADD 0 rest).
        split; [by rewrite <- !(assoc_L (++))|]. split; [done|].
        split; [apply removeAllFrom_sublist|]. done.
    + assert (Hcover : (length g2 <= n)%nat).
      { rewrite Hsplit in HG. apply Forall_app in HG as [_ HG].
        pose proof (add_match_covers [] (c :: g2) rest (S n) Hm) as Hc.
        simpl in Hc. apply le_S_n, Hc; [lia|done|done]. }
      pose proof (removeAllFrom_past ORDER_ADD n g2 rest Hcover) as HR.
      apply app_eq_inv in Hsplit as [(l & -> & Hl)|(l & -> & Hl)].
      * left. apply sublist_app; [done|]. rewrite <- (assoc_L (++)).
        apply sublist_app; [done|]. by apply sublist_inserts_l.
      * destruct l as [|t l].
        -- left. rewrite app_nil_r. apply sublist_app; [done|].
           by apply sublist_app.
        -- right. exists out, (t :: l), (removeAllFrom ORDER_ADD n (g2 ++ rest)).
           split; [by rewrite <- !(assoc_L (++))|]. split; [done|].
           split; [done|]. split; [done|].
           rewrite Hl in HT. by apply Forall_app in HT as [HT _].
  - left.
    assert (Hcover : (length a2 + length (D ++ T) <= length a2 + k)%nat).
    { apply (add_match_covers a2 (D ++ T) rest); [done|lia|done|].
      intros _. destruct (isRemoveKeyword_head D HD) as (d & D' & -> & Hd).
      by exists d, (D' ++ T). }
    apply sublist_app; [done|].
    apply sublist_inserts_l. apply removeAllFrom_past. lia.
Qed.

(** The REMOVE pattern then takes the keyword and all of that part. *)
Lemma strip_remove_stage (pre1 D T1 rest1 : jsstring) :
  isRemoveKeyword D -> T1 <> [] -> Forall (fun c => notBar c = true) T1 ->
  removeAll ORDER_REMOVE (pre1 ++ D ++ T1 ++ rest1)
  `sublist_of` pre1 ++ rest1.
Proof.
  intros HD Hne HT. unfold removeAll.
  assert (HG : Forall (fun c => notBar c = true) (D ++ T1)).
  { apply Forall_app. split; [by apply isRemoveKeyword_notBar|done]. }
  replace (pre1 ++ D ++ T1 ++ rest1) with (pre1 ++ (D ++ T1) ++ rest1)
    by (by rewrite <- !(assoc_L (++))).
  destruct (removeAllFrom_app ORDER_REMOVE pre1 0 ((D ++ T1) ++ rest1))
    as (out & k & -> & Hout & Hk).
  apply sublist_app; [done|].
  destruct Hk as [->|[[Hlt _]|(a1 & a2 & n & -> & Hne2 & Hm & -> & Hpos)]];
    [|lia|].
  - destruct T1 as [|t T1]; [done|].
    destruct (remove_match_exists D t (T1 ++ rest1) HD) as [n Hm].
    { by apply Forall_cons in HT as [Ht _]. }
    replace (D ++ t :: T1 ++ rest1) with ((D ++ t :: T1) ++ rest1) in Hm
      by (by rewrite <- (assoc_L (++))).
    pose proof (remove_match_covers [] _ _ _ Hm (Nat.le_0_l _) HG) as Hcover.
    simpl in Hcover.
    etrans; [apply (removeAllFrom_match _ _ n Hm)|].
    + rewrite length_app in Hcover. simpl in Hcover. lia.
    + rewrite drop_app_ge by done. apply sublist_drop.
  - apply removeAllFrom_past.
    pose proof (remove_match_covers a2 _ _ _ Hm) as Hcover.
    specialize (Hcover ltac:(lia) HG). lia.
Qed.

Lemma matchAllFrom_skip (p : Pattern) (a b : jsstring) :
  matchAllFrom p (length a) (a ++ b) = matchAllFrom p 0 b.
Proof. induction a as [|c a IH]; [done|]. simpl. apply IH. Qed.

Lemma matchAllFrom_app (p : Pattern) (a : jsstring) :
  forall (skip : nat) (b : jsstring),
  exists ms k,
    matchAllFrom p skip (a ++ b) = ms ++ matchAllFrom p k b
    /\ (k = 0%nat
        \/ ((length a < skip)%nat /\ k = (skip - length a)%nat /\ ms = [])
        \/ exists a1 a2 n ms',
             a = a1 ++ a2 /\ a2 <> [] /\ matchLength p (a2 ++ b) = Some n
             /\ n = (length a2 + k)%nat /\ (0 < k)%nat
             /\ ms = ms' ++ [take n (a2 ++ b)]).
Proof.
  induction a as [|c a IH]; intros skip b.
  - exists [], skip. split; [done|].
    destruct skip; [by left|]. right. left. simpl. split; [lia|done].
  - destruct skip as [|skip]; simpl.
    + destruct (matchLength p (c :: a ++ b)) as [n|] eqn:Hm.
      * destruct (IH (n - 1)%nat b) as (ms & k & Heq & Hk).
        exists (take n (c :: a ++ b) :: ms), k. rewrite Heq. split; [done|].
        destruct Hk as [->|[(Hlt & -> & ->)|
                            (a1 & a2 & n' & ms' & -> & ? & ? & ? & ? & ->)]].
        -- by left.
        -- right. right. exists [], (c :: a), n, [].
           split; [done|]. split; [done|]. split; [done|]. simpl.
           split; [lia|]. split; [lia|done].
        -- right. right.
           by exists (c :: a1), a2, n', (take n (c :: (a1 ++ a2) ++ b) :: ms').
      * destruct (IH 0%nat b) as (ms & k & Heq & Hk).
        exists ms, k. split; [done|].
        destruct Hk as [->|[(Hlt & _)|
                            (a1 & a2 & n' & ms' & -> & ? & ? & ? & ? & ->)]].
        -- by left.
        -- lia.
        -- right. right. by exists (c :: a1), a2, n', ms'.
    + destruct (IH skip b) as (ms & k & Heq & Hk).
      exists ms, k. split; [done|].
      destruct Hk as [->|[(Hlt & -> & ->)|
                          (a1 & a2 & n' & ms' & -> & ? & ? & ? & ? & ->)]].
      * by left.
      * right. left. split; [lia|]. split; [lia|done].
      * right. right. by exists (c :: a1), a2, n', ms'.
Qed.

Lemma exec_here (p : Pattern) (s : jsstring) (caps : list jsstring)
    (s' : jsstring) :
  matchHere p [] s = Some (caps, s') ->
  exec p s = Some (take (length s - length s') s, caps).
Proof. intros Hm. destruct s; simpl; by rewrite Hm. Qed.

Lemma bar_canonical (c : ascii) : canonicalize c = "|"%char <-> c = "|"%char.
Proof.
  split; [|by intros ->].
  destruct c as [[] [] [] [] [] [] [] []]; vm_compute; congruence.
Qed.

Lemma no_bar_notBar (T : jsstring) :
  "|"%char ∉ T -> Forall (fun c => notBar c = true) T.
Proof.
  intros HT. apply Forall_forall. intros c Hc. apply notBar_true.
  rewrite bar_canonical. by intros ->.
Qed.

Lemma bar_stopsRun (rest : jsstring) :
  rest = [] \/ (exists r, rest = "|"%char :: r) -> stopsRun notBar rest.
Proof. intros [->|[r ->]]; simpl; [done|]. by apply notBar_false. Qed.

(** The REMOVE matches of a text in which a keyword is followed by [T]
    and then by a bar or nothing: one of them ends with the keyword and
    [T], and the next ones are those of the rest. *)
Lemma matchAll_remove (pre D T rest : jsstring) :
  isRemoveKeyword D -> T <> [] -> Forall (fun c => notBar c = true) T ->
  stopsRun notBar rest ->
  exists ms a2,
    matchAll ORDER_REMOVE (pre ++ D ++ T ++ rest)
    = ms ++ (a2 ++ D ++ T) :: matchAll ORDER_REMOVE rest
    /\ (pre = [] -> ms = [] /\ a2 = [])
    /\ matchHere ORDER_REMOVE [] (a2 ++ D ++ T)
       = Some ([drop 13 (a2 ++ D) ++ T], []).
Proof.
  intros HD Hne HT Hrest. unfold matchAll.
  assert (HG : Forall (fun c => notBar c = true) (D ++ T)).
  { apply Forall_app. split; [by apply isRemoveKeyword_notBar|done]. }
  assert (H13 : (13 <= length (D ++ T))%nat).
  { rewrite length_app, (isRemoveKeyword_length D HD). lia. }
  assert (Hdrop : forall a2, drop 13 (a2 ++ D ++ T) = drop 13 (a2 ++ D) ++ T).
  { intros a2. rewrite (assoc_L (++)). rewrite drop_app_le; [done|].
    rewrite length_app, (isRemoveKeyword_length D HD). lia. }
  replace (pre ++ D ++ T ++ rest) with (pre ++ (D ++ T) ++ rest)
    by (by rewrite <- !(assoc_L (++))).
  destruct (matchAllFrom_app ORDER_REMOVE pre 0 ((D ++ T) ++ rest))
    as (ms & k & Heq & Hk).
  destruct Hk as [->|[(Hlt & _)|
                      (a1 & a2 & n & ms' & -> & Hne2 & Hm & -> & Hpos & ->)]];
    [|lia|].
  - destruct (isRemoveKeyword_head D HD) as (d & D' & -> & Hd).
    destruct T as [|t T]; [done|].
    destruct (remove_match_exists (d :: D') t (T ++ rest) HD) as [n Hm].
    { by apply Forall_cons in HT as [Ht _]. }
    replace ((d :: D') ++ t :: T ++ rest)
      with ([] ++ ((d :: D') ++ t :: T) ++ rest) in Hm
      by (by rewrite <- !(assoc_L (++))).
    destruct (remove_match_exact [] _ _ _ Hm (Nat.le_0_l _) HG H13 Hrest)
      as [-> Hhere].
    exists ms, []. split; [|split].
    + rewrite Heq. f_equal. simpl in Hm |- *. rewrite Hm. f_equal.
      * cbn [firstn]. f_equal. apply take_app_length.
      * replace (S (length (D' ++ t :: T)) - 1)%nat
          with (length (D' ++ t :: T)) by lia.
        apply matchAllFrom_skip.
    + intros ->. split; [|done]. destruct ms as [|m ms]; [done|]. exfalso.
      apply (f_equal length) in Heq. rewrite length_app in Heq.
      cbn [app length] in Heq. lia.
    + by rewrite Hhere, Hdrop.
  - destruct (remove_match_exact a2 _ _ _ Hm ltac:(lia) HG H13 Hrest)
      as [Hk Hhere].
    assert (k = length (D ++ T)) as -> by lia.
    exists ms', a2. split; [|split].
    + rewrite Heq, matchAllFrom_skip, <- (assoc_L (++)). f_equal. simpl.
      f_equal. rewrite (assoc_L (++) a2 (D ++ T) rest).
      rewrite take_app_length' by (rewrite !length_app; lia). done.
    + intros Hnil. by destruct a1, a2.
    + by rewrite Hhere, Hdrop.
Qed.

(** [forEach] over a list with a marked element. *)
Lemma forEach_app (callback : Session -> jsstring -> option Session)
    (ms : list jsstring) (m : jsstring) (ms' : list jsstring)
    (session : Session) :
  forEach callback (ms ++ m :: ms') session
  = (session1 ← forEach callback ms session;
     session2 ← callback session1 m;
     forEach callback ms' session2).
Proof.
  revert session. induction ms as [|m0 ms IH]; intros session; simpl.
  - by destruct (callback session m).
  - destruct (callback session m0) as [s0|]; [|done]. apply IH.
Qed.

(** What the callback of the REMOVE block does with a matched text: the
    capture of the second match, trimmed, is the name that it resolves
    on the menu. *)
Lemma processRemove_capture (menu : Catalog) (session : Session)
    (m name rest : jsstring) :
  matchHere ORDER_REMOVE [] m = Some ([name], rest) ->
  processRemove menu session m
  = Some match findMenuItem menu (trim name) with
         | Some menuItem => removeItemFromOrder (id menuItem) session
         | None => session
         end.
Proof.
  intros Hhere%exec_here. unfold processRemove. rewrite Hhere.
  by destruct (findMenuItem menu (trim name)).
Qed.

(** C10. In an output of the model where the keyword ORDER_REMOVE:, in
    any letter case, is followed by a text [T] without bar and then by a
    bar or by the end of the output: in [processOrderInstructions] the
    REMOVE block calls [findMenuItem] on a name that ends with the whole
    of [T] (it is [T] itself, trimmed, when the output begins with the
    keyword) and removes the item found; and nothing of [T] is in the
    message shown to the user, which is made of characters of the output
    before [T] and from the bar on. *)
Theorem remove_capture_is_unbounded (menu : Catalog)
    (pre D T rest : jsstring) (session : Session) :
  map canonicalize D = str "ORDER_REMOVE:" ->
  T <> [] -> "|"%char ∉ T ->
  rest = [] \/ (exists r, rest = "|"%char :: r) ->
  (exists ms U,
     processOrderInstructions menu (pre ++ D ++ T ++ rest) session
     = (session1 ← forEach (processAdd menu)
                     (matchAll ORDER_ADD (pre ++ D ++ T ++ rest)) session;
        session2 ← forEach (processRemove menu) ms session1;
        session3 ← forEach (processRemove menu) (matchAll ORDER_REMOVE rest)
                     match findMenuItem menu (trim (U ++ T)) with
                     | Some menuItem =>
                         removeItemFromOrder (id menuItem) session2
                     | None => session2
                     end;
        forEach (processUpdate menu)
          (matchAll ORDER_UPDATE (pre ++ D ++ T ++ rest)) session3)
     /\ (pre = [] -> ms = [] /\ U = []))
  /\ stripDirectives (pre ++ D ++ T ++ rest) `sublist_of` pre ++ D ++ rest
  /\ cleanResponse (pre ++ D ++ T ++ rest) `sublist_of` pre ++ D ++ rest.
Proof.
  intros HD Hne HT%no_bar_notBar Hrest%bar_stopsRun.
  assert (Hstrip : stripDirectives (pre ++ D ++ T ++ rest)
                   `sublist_of` pre ++ D ++ rest).
  { unfold stripDirectives.
    etrans; [apply removeAllFrom_sublist|].
    destruct (strip_add_stage pre D T rest HD HT)
      as [Hsub|(pre1 & T1 & rest1 & -> & Hpre1 & Hrest1 & Hne1 & HT1)].
    - etrans; [apply removeAllFrom_sublist|done].
    - etrans; [by apply strip_remove_stage|].
      apply sublist_app; [done|]. by apply sublist_inserts_l. }
  split; [|split].
  - destruct (matchAll_remove pre D T rest HD Hne HT Hrest)
      as (ms & a2 & Hall & Hhead & Hhere).
    exists ms, (drop 13 (a2 ++ D)). split.
    + unfold processOrderInstructions. rewrite Hall.
      destruct (forEach (processAdd menu) _ session) as [session1|]; [|done].
      simpl. rewrite forEach_app.
      destruct (forEach (processRemove menu) ms session1) as [session2|];
        [|done].
      simpl. by rewrite (processRemove_capture menu session2 _ _ _ Hhere).
    + intros Hnil. destruct (Hhead Hnil) as [-> ->]. split; [done|]. simpl.
      apply drop_ge. by rewrite (isRemoveKeyword_length D HD).
  - done.
  - unfold cleanResponse. etrans; [apply trim_sublist|done].
Qed.

(** The example of the system prompt, on an order of two lines: the item
    name is the whole sentence, and the message is made of characters of
    the keyword. *)
Lemma remove_capture_is_unbounded_witness :
  let D := str "ORDER_REMOVE:" in
  let T := str "Fried Rice Alright, Fried Rice has been removed." in
  (exists ms U,
     processOrderInstructions MENU ([] ++ D ++ T ++ []) twoLineSession
     = (session1 ← forEach (processAdd MENU)
                     (matchAll ORDER_ADD ([] ++ D ++ T ++ [])) twoLineSession;
        session2 ← forEach (processRemove MENU) ms session1;
        session3 ← forEach (processRemove MENU) (matchAll ORDER_REMOVE [])
                     match findMenuItem MENU (trim (U ++ T)) with
                     | Some menuItem =>
                         removeItemFromOrder (id menuItem) session2
                     | None => session2
                     end;
        forEach (processUpdate MENU)
          (matchAll ORDER_UPDATE ([] ++ D ++ T ++ [])) session3)
     /\ (@nil ascii = [] -> ms = [] /\ U = []))
  /\ stripDirectives ([] ++ D ++ T ++ []) `sublist_of` [] ++ D ++ []
  /\ cleanResponse ([] ++ D ++ T ++ []) `sublist_of` [] ++ D ++ [].
Proof.
  intros D T.
  apply (remove_capture_is_unbounded MENU [] D T [] twoLineSession).
  - reflexivity.
  - discriminate.
  - apply (bool_decide_unpack _). vm_compute. exact I.
  - by left.
Defined.

(** On the example of the system prompt the code resolves the sentence
    to Fried Rice, calls [removeItemFromOrder] for it and shows an empty
    message. *)
Lemma prompt_example_of_removal :
  let aiContent :=
    str "ORDER_REMOVE:Fried Rice Alright, Fried Rice has been removed." in
  processOrderInstructions MENU aiContent twoLineSession
  = Some (removeItemFromOrder (id fried_rice) twoLineSession)
  /\ Menu.findMenuItem Menu.MENU
       (str "Fried Rice Alright, Fried Rice has been removed.")
     = Some Menu.fried_rice
  /\ cleanResponse aiContent = [].
Proof. vm_compute. done. Qed.

End RemoveCaptureFacts.

(** * Further properties *)

(** ** The quantity directives *)

Section QuantityDirectiveFacts.
Import Menu Order Regex Directives OrderInvariants.

Lemma matchPlus_run {R} (class : ascii -> bool)
    (k : jsstring -> jsstring -> option R) (taken run s' : jsstring) (r : R) :
  run <> [] -> Forall (fun c => class c = true) run -> stopsRun class s' ->
  k (taken ++ run) s' = Some r ->
  matchPlus class k taken (run ++ s') = Some r.
Proof.
  revert taken. induction run as [|c run IH]; intros taken Hne Hrun Hstop Hk;
    [done|].
  apply Forall_cons in Hrun as [Hc Hrun]. simpl. rewrite Hc.
  destruct run as [|c' run].
  - simpl. destruct s' as [|c' s']; simpl; [done|].
    simpl in Hstop. by rewrite Hstop.
  - rewrite (IH (taken ++ [c])); [done|done|done|done|].
    by rewrite <- (assoc_L (++)).
Qed.

(** A match of a quantity pattern: the keyword, the name up to the bar,
    the text QUANTITY: after the bar, and all the digits that follow. *)
Lemma quantity_match_inv (kw s : jsstring) (caps : list jsstring)
    (s' : jsstring) :
  matchHere (quantityPattern kw) [] s = Some (caps, s') ->
  exists l run q ds,
    s = l ++ run ++ q ++ ds ++ s'
    /\ map canonicalize l = map canonicalize kw
    /\ run <> [] /\ Forall (fun c => notBar c = true) run
    /\ map canonicalize q = map canonicalize (str "|QUANTITY:")
    /\ ds <> [] /\ Forall (fun c => isDigit c = true) ds
    /\ caps = [run; ds] /\ stopsRun isDigit s'.
Proof.
  unfold quantityPattern. cbn [matchHere].
  destruct (matchLit kw s) as [s1|] eqn:Hlit; [|done].
  apply matchLit_inv in Hlit as (l & -> & Hl).
  intros (run & s2 & -> & Hne & Hrun & Hk)%matchPlus_inv.
  destruct (matchLit _ s2) as [s3|] eqn:Hlit2; [|done].
  apply matchLit_inv in Hlit2 as (q & -> & Hq).
  apply matchPlus_total_inv in Hk as (ds & s4 & -> & Hds & Hdigits & Heq & Hstop).
  simpl in Heq. injection Heq as -> ->.
  by exists l, run, q, ds.
Qed.

Lemma quantity_match_intro (kw l run q ds s' : jsstring) :
  map canonicalize l = map canonicalize kw ->
  run <> [] -> Forall (fun c => notBar c = true) run ->
  map canonicalize q = map canonicalize (str "|QUANTITY:") ->
  ds <> [] -> Forall (fun c => isDigit c = true) ds -> stopsRun isDigit s' ->
  matchHere (quantityPattern kw) [] (l ++ run ++ q ++ ds ++ s')
  = Some ([run; ds], s').
Proof.
  intros Hl Hne Hrun Hq Hds Hdigits Hstop. unfold quantityPattern.
  cbn [matchHere]. rewrite matchLit_app by done.
  apply matchPlus_run; [done|done| |].
  - destruct q as [|b q']; [done|]. injection Hq as Hb _. simpl.
    apply notBar_false. by rewrite Hb.
  - rewrite matchLit_app by done.
    by rewrite (matchPlus_total_run isDigit
                  (fun cap s'' => (([] ++ [run]) ++ [cap], s''))).
Qed.

(** The matched text alone is matched by the pattern again, with the
    same captures. *)
Lemma quantity_match_alone (kw s : jsstring) (caps : list jsstring)
    (s' : jsstring) :
  matchHere (quantityPattern kw) [] s = Some (caps, s') ->
  exists name digits,
    caps = [name; digits]
    /\ matchHere (quantityPattern kw) [] (take (length s - length s') s)
       = Some (caps, []).
Proof.
  intros (l & run & q & ds & -> & Hl & Hne & Hrun & Hq & Hds & Hdigits & ->
          & Hstop)%quantity_match_inv.
  exists run, ds. split; [done|].
  replace (take _ _) with (l ++ run ++ q ++ ds ++ []).
  - by apply quantity_match_intro.
  - rewrite app_nil_r. rewrite !(assoc_L (++)).
    rewrite take_app_length'; [done|]. rewrite !length_app. lia.
Qed.

Lemma remove_match_alone (s : jsstring) (caps : list jsstring) (s' : jsstring) :
  matchHere ORDER_REMOVE [] s = Some (caps, s') ->
  exists name,
    caps = [name]
    /\ matchHere ORDER_REMOVE [] (take (length s - length s') s)
       = Some (caps, []).
Proof.
  intros (l & run & -> & Hl & Hne & Hrun & -> & Hstop)%remove_match_inv.
  exists run. split; [done|].
  replace (take _ _) with (l ++ run ++ []).
  - by apply remove_match_intro.
  - rewrite app_nil_r. rewrite !(assoc_L (++)).
    rewrite take_app_length'; [done|]. rewrite !length_app. lia.
Qed.

(** Every text that [matchAll] returns is the text of a match. *)
Lemma matchAllFrom_elem (p : Pattern) (k : nat) (s m : jsstring) :
  m ∈ matchAllFrom p k s ->
  exists t caps rest,
    matchHere p [] t = Some (caps, rest)
    /\ m = take (length t - length rest) t.
Proof.
  revert k. induction s as [|c s IH]; intros k; simpl.
  - destruct k; [|by intros ?%elem_of_nil].
    destruct (matchHere p [] []) as [[caps rest]|] eqn:Hm;
      [|by intros ?%elem_of_nil].
    intros ->%list_elem_of_singleton. exists [], caps, rest. by destruct rest.
  - destruct k as [|k]; [|apply IH].
    unfold matchLength.
    destruct (matchHere p [] (c :: s)) as [[caps rest]|] eqn:Hm; [|apply IH].
    intros [->|Hin]%elem_of_cons; [|by eapply IH].
    by exists (c :: s), caps, rest.
Qed.

Lemma forEach_some (callback : Session -> jsstring -> option Session)
    (ms : list jsstring) (session : Session) :
  (forall m s, m ∈ ms -> is_Some (callback s m)) ->
  is_Some (forEach callback ms session).
Proof.
  revert session. induction ms as [|m ms IH]; intros session Hcb; simpl.
  - by eexists.
  - destruct (Hcb m session) as [s' ->]; [apply list_elem_of_here|].
    apply IH. intros m' s'' Hin. apply Hcb. by apply list_elem_of_further.
Qed.

Lemma processAdd_some menu session s m :
  m ∈ matchAll ORDER_ADD s -> is_Some (processAdd menu session m).
Proof.
  intros (t & caps & rest & Hm & ->)%matchAllFrom_elem.
  apply (quantity_match_alone (str "ORDER_ADD:")) in Hm
    as (itemName & digits & -> & Halone).
  unfold processAdd. apply exec_here in Halone.
  change (quantityPattern (str "ORDER_ADD:")) with ORDER_ADD in Halone.
  rewrite Halone. by destruct (findMenuItem menu (trim itemName)).
Qed.

Lemma processUpdate_some menu session s m :
  m ∈ matchAll ORDER_UPDATE s -> is_Some (processUpdate menu session m).
Proof.
  intros (t & caps & rest & Hm & ->)%matchAllFrom_elem.
  apply (quantity_match_alone (str "ORDER_UPDATE:")) in Hm
    as (itemName & digits & -> & Halone).
  unfold processUpdate. apply exec_here in Halone.
  change (quantityPattern (str "ORDER_UPDATE:")) with ORDER_UPDATE in Halone.
  rewrite Halone. by destruct (findMenuItem menu (trim itemName)).
Qed.

Lemma processRemove_some menu session s m :
  m ∈ matchAll ORDER_REMOVE s -> is_Some (processRemove menu session m).
Proof.
  intros (t & caps & rest & Hm & ->)%matchAllFrom_elem.
  apply remove_match_alone in Hm as (itemName & -> & Halone).
  unfold processRemove. apply exec_here in Halone.
  rewrite Halone. by destruct (findMenuItem menu (trim itemName)).
Qed.

(** X1. [processOrderInstructions] ends without exception on every
    text of the model: each text that the global match of a directive
    pattern returns is matched again by the pattern alone, so that the
    destructuring of the second match never meets [null]. *)
Theorem processOrderInstructions_never_throws (menu : Catalog)
    (aiResponse : jsstring) (session : Session) :
  exists session',
    processOrderInstructions menu aiResponse session = Some session'.
Proof.
  unfold processOrderInstructions.
  destruct (forEach_some (processAdd menu) (matchAll ORDER_ADD aiResponse)
              session) as [s1 ->].
  { intros m s Hin. by eapply processAdd_some. }
  simpl.
  destruct (forEach_some (processRemove menu)
              (matchAll ORDER_REMOVE aiResponse) s1) as [s2 ->].
  { intros m s Hin. by eapply processRemove_some. }
  simpl.
  apply forEach_some. intros m s Hin. by eapply processUpdate_some.
Qed.

End QuantityDirectiveFacts.

(** ** Well-formed orders *)

Section WellFormedFacts.
Import Menu Order Regex Directives OrderInvariants.

Lemma Forall_updateFirst (P : OrderLine -> Prop) i f its :
  (forall it, P it -> P (f it)) -> Forall P its -> Forall P (updateFirst i f its).
Proof.
  intros Hf. induction its as [|it its IH]; simpl; [done|].
  intros [Hit Hits]%Forall_cons. destruct (hasId i it).
  - constructor; [by apply Hf|done].
  - constructor; [done|by apply IH].
Qed.

Lemma Forall_list_filter {A} (P : A -> Prop) (f : A -> bool) (l : list A) :
  Forall P l -> Forall P (List.filter f l).
Proof.
  induction l as [|x l IH]; simpl; [done|].
  intros [Hx Hl]%Forall_cons. destruct (f x); [constructor|]; auto.
Qed.

Lemma applyMutation_positive m session :
  Forall (fun it => 0 < quantity it) (orderItems (currentOrder session)) ->
  Forall (fun it => 0 < quantity it)
         (orderItems (currentOrder (applyMutation m session))).
Proof.
  intros Hpos. destruct m as [menuItem qty|itemId|itemId q]; simpl.
  - unfold addItemToOrder. destruct (qty <=? 0) eqn:Hle; [done|]. simpl.
    apply Z.leb_gt in Hle. destruct (List.find _ _).
    + apply Forall_updateFirst; [|done]. intros it Hit. simpl. lia.
    + apply Forall_app. split; [done|]. by repeat constructor.
  - rewrite removeItemFromOrder_items. by apply Forall_list_filter.
  - unfold updateItemInOrder. destruct (List.find _ _); [|done].
    destruct (q <=? 0) eqn:Hle.
    + rewrite removeItemFromOrder_items. by apply Forall_list_filter.
    + simpl. apply Z.leb_gt in Hle. apply Forall_updateFirst; [|done].
      intros it _. simpl. lia.
Qed.

Lemma applyMutation_wellFormed m session :
  wellFormed session -> wellFormed (applyMutation m session).
Proof.
  intros (Htotal & Hnodup & Hpos). split; [|split].
  - by apply applyMutation_totalIsSum.
  - by apply applyMutation_NoDup.
  - by apply applyMutation_positive.
Qed.

Lemma applyMutation_history m session :
  chatHistory (applyMutation m session) = chatHistory session.
Proof.
  destruct m as [menuItem qty|itemId|itemId q]; simpl.
  - unfold addItemToOrder. by destruct (qty <=? 0).
  - unfold removeItemFromOrder. by destruct (_ <? _)%nat.
  - unfold updateItemInOrder. destruct (List.find _ _); [|done].
    destruct (q <=? 0); [|done].
    unfold removeItemFromOrder. by destruct (_ <? _)%nat.
Qed.

(** X3. After each call of any sequence of addItem, removeItem and
    updateQuantity calls from the empty order of a new session, no two
    lines of the order have the same id and every line has a positive
    quantity. *)
Theorem reachable_orders_have_unique_positive_lines (ms : list Mutation) :
  Forall (fun session =>
            NoDup (lineIds session)
            /\ Forall (fun it => 0 < quantity it)
                      (orderItems (currentOrder session)))
         (trace ms createNewSession).
Proof.
  assert (Hgen : forall session, wellFormed session ->
            Forall wellFormed (trace ms session)).
  { induction ms as [|m ms IH]; intros session Hwf; simpl; constructor.
    - by apply applyMutation_wellFormed.
    - apply IH. by apply applyMutation_wellFormed. }
  eapply Forall_impl.
  - apply (Hgen createNewSession). split; [done|]. split; constructor.
  - by intros session (_ & Hnodup & Hpos).
Qed.

(** Each callback of the three loops does nothing or applies one
    mutation. *)
Lemma processAdd_step menu session m session' :
  processAdd menu session m = Some session' ->
  session' = session \/ exists mu, session' = applyMutation mu session.
Proof.
  unfold processAdd. destruct (exec _ m) as [[? [|itemName [|q ?]]]|]; try done.
  destruct (findMenuItem _ _) as [menuItem|]; intros [= <-]; [|by left].
  right. by exists (AddItem menuItem (parseInt q)).
Qed.

Lemma processRemove_step menu session m session' :
  processRemove menu session m = Some session' ->
  session' = session \/ exists mu, session' = applyMutation mu session.
Proof.
  unfold processRemove. destruct (exec _ m) as [[? [|itemName ?]]|]; try done.
  destruct (findMenuItem _ _) as [menuItem|]; intros [= <-]; [|by left].
  right. by exists (RemoveItem (id menuItem)).
Qed.

Lemma processUpdate_step menu session m session' :
  processUpdate menu session m = Some session' ->
  session' = session \/ exists mu, session' = applyMutation mu session.
Proof.
  unfold processUpdate.
  destruct (exec _ m) as [[? [|itemName [|q ?]]]|]; try done.
  destruct (findMenuItem _ _) as [menuItem|]; intros [= <-]; [|by left].
  right. by exists (UpdateQuantity (id menuItem) (parseInt q)).
Qed.

Lemma forEach_preserves (P : Session -> Prop)
    (callback : Session -> jsstring -> option Session) ms session session' :
  (forall s m s', callback s m = Some s' ->
     s' = s \/ exists mu, s' = applyMutation mu s) ->
  (forall mu s, P s -> P (applyMutation mu s)) ->
  forEach callback ms session = Some session' -> P session -> P session'.
Proof.
  intros Hstep HP. revert session. induction ms as [|m ms IH]; intros session;
    simpl.
  - by intros [= <-].
  - destruct (callback session m) as [s1|] eqn:Hcb; [|done].
    intros Hrest Hs. apply (IH s1); [done|].
    apply Hstep in Hcb as [->|[mu ->]]; [done|by apply HP].
Qed.

Lemma processOrderInstructions_preserves (P : Session -> Prop) menu aiResponse
    session session' :
  (forall mu s, P s -> P (applyMutation mu s)) ->
  processOrderInstructions menu aiResponse session = Some session' ->
  P session -> P session'.
Proof.
  intros HP. unfold processOrderInstructions.
  destruct (forEach (processAdd menu) _ session) as [s1|] eqn:H1; [|done].
  simpl.
  destruct (forEach (processRemove menu) _ s1) as [s2|] eqn:H2; [|done].
  simpl. intros H3 Hs.
  eapply (forEach_preserves P); [apply processUpdate_step|done|exact H3|].
  eapply (forEach_preserves P); [apply processRemove_step|done|exact H2|].
  eapply (forEach_preserves P); [apply processAdd_step|done|exact H1|done].
Qed.

(** X2. Whatever the text of the model, [processOrderInstructions]
    takes a session whose order is well formed (total equal to the sum
    over the lines, one line per id, positive quantities) to a session
    whose order is well formed, and leaves the chat history as it is. *)
Theorem processOrderInstructions_keeps_order_well_formed (menu : Catalog)
    (aiResponse : jsstring) (session session' : Session) :
  processOrderInstructions menu aiResponse session = Some session' ->
  wellFormed session ->
  wellFormed session' /\ chatHistory session' = chatHistory session.
Proof.
  intros Hrun Hwf. split.
  - eapply (processOrderInstructions_preserves wellFormed); [|exact Hrun|done].
    intros mu s. apply applyMutation_wellFormed.
  - eapply (processOrderInstructions_preserves
              (fun s => chatHistory s = chatHistory session));
      [|exact Hrun|done].
    intros mu s <-. apply applyMutation_history.
Qed.

(** Two additions, an update and a removal on a new session. *)
Lemma processOrderInstructions_keeps_order_well_formed_witness :
  let aiResponse :=
    str "ORDER_ADD:Jollof Rice|QUANTITY:2 ORDER_ADD:Chapman|QUANTITY:1 ORDER_UPDATE:Chapman|QUANTITY:3 ORDER_REMOVE:Chapman" in
  let session' := mkSession [] (mkOrder [chapmanLine 3] 3600) in
  wellFormed session' /\ chatHistory session' = chatHistory createNewSession.
Proof.
  intros aiResponse session'.
  apply (processOrderInstructions_keeps_order_well_formed MENU aiResponse
           createNewSession session').
  - vm_compute. reflexivity.
  - split; [reflexivity|]. split; constructor.
Defined.

End WellFormedFacts.

(** ** Texts without directive *)

Section PlainTextFacts.
Import Menu Order Regex Directives OrderInvariants.

Lemma matchLength_None (p : Pattern) (s : jsstring) :
  matchLength p s = None <-> matchHere p [] s = None.
Proof.
  unfold matchLength. by destruct (matchHere p [] s) as [[? ?]|].
Qed.

(** A text none of whose suffixes is matched has no match and is left as
    it is by the replacement. *)
Lemma scan_without_match (p : Pattern) (s : jsstring) :
  (forall k, matchHere p [] (drop k s) = None) ->
  matchAll p s = [] /\ removeAll p s = s.
Proof.
  unfold matchAll, removeAll. induction s as [|c s IH]; intros Hnone; simpl.
  - pose proof (Hnone 0%nat) as H0. simpl in H0. by rewrite H0.
  - pose proof (Hnone 0%nat) as H0. simpl in H0.
    apply matchLength_None in H0. rewrite H0.
    destruct IH as [-> ->]; [|done]. intros k. apply (Hnone (S k)).
Qed.

Lemma underscore_canonical (c : ascii) :
  canonicalize c = "_"%char -> c = "_"%char.
Proof. destruct c as [[] [] [] [] [] [] [] []]; vm_compute; congruence. Qed.

(** A text that begins with a directive keyword, in any letter case, has
    an underscore. *)
Lemma keyword_underscore (kw l : jsstring) :
  map canonicalize l = map canonicalize kw -> "_"%char ∈ kw -> "_"%char ∈ l.
Proof.
  revert l. induction kw as [|x kw IH]; intros l Hl Hin.
  - by apply elem_of_nil in Hin.
  - destruct l as [|c l]; [done|]. injection Hl as Hc Hl.
    apply elem_of_cons in Hin as [<-|Hin].
    + apply underscore_canonical in Hc as ->. apply list_elem_of_here.
    + apply list_elem_of_further. by apply IH.
Qed.

Lemma literal_first_underscore (kw : jsstring) (p : Pattern) (s : jsstring) :
  "_"%char ∈ kw -> "_"%char ∉ s -> matchHere (Lit kw :: p) [] s = None.
Proof.
  intros Hkw Hs. cbn [matchHere].
  destruct (matchLit kw s) as [s1|] eqn:Hlit; [|done].
  apply matchLit_inv in Hlit as (l & -> & Hl). exfalso. apply Hs.
  apply elem_of_app. left. by eapply keyword_underscore.
Qed.

Lemma not_elem_of_drop {A} (x : A) (k : nat) (s : list A) :
  x ∉ s -> x ∉ drop k s.
Proof.
  intros Hs Hin. apply Hs. eapply elem_of_sublist; [exact Hin|].
  apply sublist_drop.
Qed.

(** X4. A text of the model without underscore carries no directive:
    [processOrderInstructions] leaves the session as it is, and the
    message for the user is the text, trimmed. *)
Theorem plain_text_has_no_directive (menu : Catalog) (aiContent : jsstring)
    (session : Session) :
  "_"%char ∉ aiContent ->
  processOrderInstructions menu aiContent session = Some session
  /\ cleanResponse aiContent = trim aiContent.
Proof.
  intros Hs.
  assert (Hnone : forall kw p, "_"%char ∈ kw ->
            matchAll (Lit kw :: p) aiContent = []
            /\ removeAll (Lit kw :: p) aiContent = aiContent).
  { intros kw p Hkw. apply scan_without_match. intros k.
    apply literal_first_underscore; [done|]. by apply not_elem_of_drop. }
  destruct (Hnone (str "ORDER_ADD:")
              [Plus notBar; Lit (str "|QUANTITY:"); Plus isDigit])
    as [Hadd Hadd']; [by apply (bool_decide_unpack _)|].
  destruct (Hnone (str "ORDER_REMOVE:") [Plus notBar])
    as [Hrem Hrem']; [by apply (bool_decide_unpack _)|].
  destruct (Hnone (str "ORDER_UPDATE:")
              [Plus notBar; Lit (str "|QUANTITY:"); Plus isDigit])
    as [Hupd Hupd']; [by apply (bool_decide_unpack _)|].
  split.
  - unfold processOrderInstructions, ORDER_ADD, ORDER_REMOVE, ORDER_UPDATE.
    by rewrite Hadd, Hrem, Hupd.
  - unfold cleanResponse, stripDirectives, ORDER_ADD, ORDER_REMOVE,
      ORDER_UPDATE.
    by rewrite Hadd', Hrem', Hupd'.
Qed.

Lemma plain_text_has_no_directive_witness :
  let aiContent := str "  Our menu has Jollof Rice and Suya. " in
  processOrderInstructions MENU aiContent createNewSession
  = Some createNewSession
  /\ cleanResponse aiContent = trim aiContent.
Proof.
  intros aiContent.
  apply (plain_text_has_no_directive MENU aiContent createNewSession).
  apply (bool_decide_unpack _). vm_compute. exact I.
Defined.

Lemma quantity_match_bar (kw s : jsstring) :
  "|"%char ∉ s -> matchHere (quantityPattern kw) [] s = None.
Proof.
  intros Hs. destruct (matchHere _ [] s) as [[caps s']|] eqn:Hm; [|done].
  apply quantity_match_inv in Hm
    as (l & run & q & ds & -> & _ & _ & _ & Hq & _).
  destruct q as [|b q']; [done|]. injection Hq as Hb _.
  change (canonicalize "|") with "|"%char in Hb. apply bar_canonical in Hb as ->.
  exfalso. apply Hs. rewrite !elem_of_app. right. right. left.
  apply list_elem_of_here.
Qed.

(** X5. In a text of the model without bar nothing is an ORDER_ADD or an
    ORDER_UPDATE directive: the two patterns have no match, so that only
    the removals are processed, and the two replacements leave the text
    as it is (a directive without its QUANTITY part is shown to the
    user). *)
Theorem text_without_bar_has_no_quantity_directive (menu : Catalog)
    (aiContent : jsstring) (session : Session) :
  "|"%char ∉ aiContent ->
  matchAll ORDER_ADD aiContent = [] /\ matchAll ORDER_UPDATE aiContent = []
  /\ removeAll ORDER_ADD aiContent = aiContent
  /\ removeAll ORDER_UPDATE aiContent = aiContent
  /\ processOrderInstructions menu aiContent session
     = forEach (processRemove menu) (matchAll ORDER_REMOVE aiContent) session.
Proof.
  intros Hs.
  assert (Hnone : forall kw,
            matchAll (quantityPattern kw) aiContent = []
            /\ removeAll (quantityPattern kw) aiContent = aiContent).
  { intros kw. apply scan_without_match. intros k.
    apply quantity_match_bar. by apply not_elem_of_drop. }
  destruct (Hnone (str "ORDER_ADD:")) as [Hadd Hadd'].
  destruct (Hnone (str "ORDER_UPDATE:")) as [Hupd Hupd'].
  change (quantityPattern (str "ORDER_ADD:")) with ORDER_ADD in *.
  change (quantityPattern (str "ORDER_UPDATE:")) with ORDER_UPDATE in *.
  repeat split; try done.
  unfold processOrderInstructions. rewrite Hadd, Hupd. simpl.
  by destruct (forEach (processRemove menu) _ session).
Qed.

Lemma text_without_bar_has_no_quantity_directive_witness :
  let aiContent := str "ORDER_ADD:Jollof Rice Sure, added!" in
  matchAll ORDER_ADD aiContent = [] /\ matchAll ORDER_UPDATE aiContent = []
  /\ removeAll ORDER_ADD aiContent = aiContent
  /\ removeAll ORDER_UPDATE aiContent = aiContent
  /\ processOrderInstructions MENU aiContent createNewSession
     = forEach (processRemove MENU) (matchAll ORDER_REMOVE aiContent)
         createNewSession.
Proof.
  intros aiContent.
  apply (text_without_bar_has_no_quantity_directive MENU aiContent
           createNewSession).
  apply (bool_decide_unpack _). vm_compute. exact I.
Defined.

Lemma trimStart_head (s : jsstring) (c : ascii) :
  head (trimStart s) = Some c -> isWhiteSpace c = false.
Proof.
  induction s as [|x s IH]; simpl; [done|].
  destruct (isWhiteSpace x) eqn:Hx; [done|]. simpl. by intros [= <-].
Qed.

Lemma head_rev_last {A} (l : list A) : head (rev l) = last l.
Proof.
  induction l as [|x l IH] using rev_ind; [done|].
  by rewrite rev_app_distr, last_snoc.
Qed.

(** X6. The message for the user, [cleanResponse], is the text of the
    model with characters taken out, in their order, and it neither
    begins nor ends with white space. *)
Theorem cleanResponse_is_trimmed_subsequence (aiContent : jsstring) :
  cleanResponse aiContent `sublist_of` aiContent
  /\ (forall c, head (cleanResponse aiContent) = Some c ->
        isWhiteSpace c = false)
  /\ (forall c, last (cleanResponse aiContent) = Some c ->
        isWhiteSpace c = false).
Proof.
  split; [|split].
  - unfold cleanResponse, stripDirectives.
    etrans; [apply trim_sublist|]. unfold removeAll.
    etrans; [apply removeAllFrom_sublist|].
    etrans; [apply removeAllFrom_sublist|]. apply removeAllFrom_sublist.
  - unfold cleanResponse, trim. generalize (stripDirectives aiContent).
    intros s c Hc. unfold trimEnd in Hc.
    destruct (trimStart_suffix (rev (trimStart s))) as [k Hk].
    apply (f_equal (rev (A:=ascii))) in Hk.
    rewrite rev_involutive, rev_app_distr in Hk.
    destruct (rev (trimStart (rev (trimStart s)))) as [|x t]; [done|].
    simpl in Hc. injection Hc as ->. apply (trimStart_head s).
    by rewrite Hk.
  - unfold cleanResponse, trim, trimEnd.
    generalize (rev (trimStart (stripDirectives aiContent))). intros s c.
    rewrite <- head_rev_last, rev_involutive. apply trimStart_head.
Qed.

End PlainTextFacts.

(** ** More on menu resolution *)

Section ResolutionMoreFacts.
Import Menu Order.

Lemma startsWith_refl (s t : jsstring) : startsWith s (s ++ t) = true.
Proof.
  induction s as [|c s IH]; simpl; [done|].
  rewrite IH. unfold char_eqb. by rewrite Ascii.eqb_refl.
Qed.

Lemma includes_refl (s : jsstring) : includes s s = true.
Proof.
  destruct s as [|c s]; simpl; [done|].
  pose proof (startsWith_refl (c :: s) []) as H. rewrite app_nil_r in H.
  simpl in H. by rewrite H.
Qed.

Lemma exactMatch_substringMatch q it :
  exactMatch q it = true -> substringMatch q it = true.
Proof.
  unfold exactMatch, substringMatch. simpl. intros ->%jsstring_eqb_eq.
  by rewrite includes_refl.
Qed.

Lemma findMenuItem_unfold menu query :
  Menu.findMenuItem menu query
  = match List.find (exactMatch (trim (toLowerCase query))) (allItems menu) with
    | Some it => Some it
    | None =>
        last (List.filter (substringMatch (trim (toLowerCase query)))
                (allItems menu))
    end.
Proof.
  unfold Menu.findMenuItem. rewrite findInCategories_spec.
  destruct (List.find _ _); [done|]. unfold lastOr. by destruct (last _).
Qed.

Lemma last_filter_Some {A} (f : A -> bool) (l : list A) (x : A) :
  last (List.filter f l) = Some x -> x ∈ l /\ f x = true.
Proof.
  intros (l' & Hl')%last_Some.
  assert (Hin : In x (List.filter f l)).
  { rewrite Hl'. apply in_or_app. right. by left. }
  apply List.filter_In in Hin as [Hin Hf]. split; [|done].
  by apply list_elem_of_In.
Qed.

Lemma last_filter_None {A} (f : A -> bool) (l : list A) :
  last (List.filter f l) = None <-> Forall (fun x => f x = false) l.
Proof.
  rewrite last_None. induction l as [|x l IH]; simpl.
  - split; [constructor|done].
  - destruct (f x) eqn:Hx.
    + split; [done|]. intros [Hx' _]%Forall_cons. congruence.
    + rewrite IH. split; [by constructor|]. by intros [_ ?]%Forall_cons.
Qed.

Lemma find_None_Forall {A} (f : A -> bool) (l : list A) :
  List.find f l = None <-> Forall (fun x => f x = false) l.
Proof.
  induction l as [|x l IH]; simpl.
  - split; [constructor|done].
  - destruct (f x) eqn:Hx.
    + split; [done|]. intros [Hx' _]%Forall_cons. congruence.
    + rewrite IH. split; [by constructor|]. by intros [_ ?]%Forall_cons.
Qed.

(** X7. An item that [findMenuItem] returns is an item of the catalog,
    and its name does match the query: in the server its lower-cased
    name contains the normalised query or is contained in it; in the
    prototype it passes the test of the loop. Neither invents an
    item. *)
Theorem findMenuItem_returns_matching_catalog_item (menu menu' : Catalog)
    (query query' : jsstring) (it it' : MenuItem) :
  Menu.findMenuItem menu query = Some it ->
  Prototype.findMenuItem menu' query' = Some it' ->
  (it ∈ allItems menu /\ substringMatch (trim (toLowerCase query)) it = true)
  /\ (it' ∈ allItems menu'
      /\ Prototype.matches (trim (toLowerCase query')) it' = true).
Proof.
  intros Hserver Hproto. split.
  - rewrite findMenuItem_unfold in Hserver.
    destruct (List.find _ _) as [x|] eqn:Hfind.
    + injection Hserver as ->. apply List.find_some in Hfind as [Hin Hx].
      split; [by apply list_elem_of_In|by apply exactMatch_substringMatch].
    + by apply last_filter_Some in Hserver.
  - unfold Prototype.findMenuItem in Hproto.
    rewrite prototype_findInCategories_spec in Hproto.
    apply List.find_some in Hproto as [Hin Hx].
    split; [by apply list_elem_of_In|done].
Qed.

Lemma findMenuItem_returns_matching_catalog_item_witness :
  (jollof_rice ∈ allItems MENU
   /\ substringMatch (trim (toLowerCase (str "jollof"))) jollof_rice = true)
  /\ (Prototype.jollof_rice ∈ allItems Prototype.MENU
      /\ Prototype.matches (trim (toLowerCase (str "jollof")))
           Prototype.jollof_rice = true).
Proof.
  apply (findMenuItem_returns_matching_catalog_item MENU Prototype.MENU
           (str "jollof") (str "jollof") jollof_rice Prototype.jollof_rice).
  - vm_compute. reflexivity.
  - vm_compute. reflexivity.
Defined.

(** X8. Resolution fails exactly when no item of the catalog matches:
    in the server, when no lower-cased item name contains the normalised
    query or is contained in it; in the prototype, when no item passes
    the test of the loop. *)
Theorem findMenuItem_none_iff_no_match (menu : Catalog) (query : jsstring) :
  (Menu.findMenuItem menu query = None
   <-> Forall (fun it => substringMatch (trim (toLowerCase query)) it = false)
              (allItems menu))
  /\ (Prototype.findMenuItem menu query = None
      <-> Forall (fun it =>
                    Prototype.matches (trim (toLowerCase query)) it = false)
                 (allItems menu)).
Proof.
  split.
  - rewrite findMenuItem_unfold.
    destruct (List.find _ _) as [x|] eqn:Hfind.
    + split; [done|]. intros Hall. apply List.find_some in Hfind as [Hin Hx].
      apply exactMatch_substringMatch in Hx.
      apply list_elem_of_In in Hin.
      rewrite Forall_forall in Hall. apply Hall in Hin. congruence.
    + apply last_filter_None.
  - unfold Prototype.findMenuItem. rewrite prototype_findInCategories_spec.
    apply find_None_Forall.
Qed.

Lemma lowerChar_idempotent (c : ascii) : lowerChar (lowerChar c) = lowerChar c.
Proof. destruct c as [[] [] [] [] [] [] [] []]; reflexivity. Qed.

Lemma isWhiteSpace_lowerChar (c : ascii) :
  isWhiteSpace (lowerChar c) = isWhiteSpace c.
Proof. destruct c as [[] [] [] [] [] [] [] []]; reflexivity. Qed.

Lemma toLowerCase_idempotent (s : jsstring) :
  toLowerCase (toLowerCase s) = toLowerCase s.
Proof.
  unfold toLowerCase. rewrite map_map. apply map_ext. intros c.
  apply lowerChar_idempotent.
Qed.

Lemma trimStart_toLowerCase (s : jsstring) :
  trimStart (toLowerCase s) = toLowerCase (trimStart s).
Proof.
  induction s as [|c s IH]; simpl; [done|].
  rewrite isWhiteSpace_lowerChar. by destruct (isWhiteSpace c).
Qed.

Lemma trim_toLowerCase (s : jsstring) :
  trim (toLowerCase s) = toLowerCase (trim s).
Proof.
  unfold trim, trimEnd. rewrite trimStart_toLowerCase. unfold toLowerCase.
  rewrite <- !map_rev. fold (toLowerCase (rev (trimStart s))).
  rewrite trimStart_toLowerCase. unfold toLowerCase. by rewrite map_rev.
Qed.

Lemma trimStart_idempotent (s : jsstring) :
  trimStart (trimStart s) = trimStart s.
Proof.
  induction s as [|c s IH]; simpl; [done|].
  destruct (isWhiteSpace c) eqn:Hc; [done|]. simpl. by rewrite Hc.
Qed.

Lemma trimStart_no_space (s : jsstring) :
  (forall c, head s = Some c -> isWhiteSpace c = false) -> trimStart s = s.
Proof.
  destruct s as [|c s]; simpl; [done|]. intros H. by rewrite (H c).
Qed.

Lemma trim_idempotent (s : jsstring) : trim (trim s) = trim s.
Proof.
  unfold trim at 1.
  assert (Hstart : trimStart (trim s) = trim s).
  { apply trimStart_no_space. intros c Hc. unfold trim, trimEnd in Hc.
    destruct (trimStart_suffix (rev (trimStart s))) as [k Hk].
    apply (f_equal (rev (A:=ascii))) in Hk.
    rewrite rev_involutive, rev_app_distr in Hk.
    destruct (rev (trimStart (rev (trimStart s)))) as [|x t]; [done|].
    simpl in Hc. injection Hc as ->. apply (trimStart_head s). by rewrite Hk. }
  rewrite Hstart. unfold trim, trimEnd.
  by rewrite rev_involutive, trimStart_idempotent.
Qed.

(** X9. Resolution ignores the letter case of the query and the white
    space around it, in the server and in the prototype: lower-casing or
    trimming the query beforehand does not change the item found. *)
Theorem findMenuItem_ignores_case_and_outer_space (menu : Catalog)
    (query : jsstring) :
  Menu.findMenuItem menu (toLowerCase query) = Menu.findMenuItem menu query
  /\ Menu.findMenuItem menu (trim query) = Menu.findMenuItem menu query
  /\ Prototype.findMenuItem menu (toLowerCase query)
     = Prototype.findMenuItem menu query
  /\ Prototype.findMenuItem menu (trim query)
     = Prototype.findMenuItem menu query.
Proof.
  unfold Menu.findMenuItem, Prototype.findMenuItem.
  rewrite toLowerCase_idempotent.
  rewrite (trim_toLowerCase (trim query)), trim_idempotent,
    <- (trim_toLowerCase query).
  done.
Qed.

(** X10. In the server, a query whose lower-cased, trimmed text is the
    lower-cased name of an item of the catalog resolves to that item,
    when no other item of the catalog has that name up to letter
    case. *)
Theorem findMenuItem_resolves_full_name (menu : Catalog) (query : jsstring)
    (it : MenuItem) :
  it ∈ allItems menu ->
  trim (toLowerCase query) = toLowerCase (name it) ->
  (forall it', it' ∈ allItems menu ->
     toLowerCase (name it') = toLowerCase (name it) -> it' = it) ->
  Menu.findMenuItem menu query = Some it.
Proof.
  intros Hin Hq Hunique. rewrite findMenuItem_unfold, Hq.
  destruct (List.find _ _) as [x|] eqn:Hfind.
  - apply List.find_some in Hfind as [Hx Hname].
    apply jsstring_eqb_eq in Hname. f_equal. apply Hunique; [|done].
    by apply list_elem_of_In.
  - apply find_None_Forall in Hfind. rewrite Forall_forall in Hfind.
    apply Hfind in Hin. unfold exactMatch in Hin. simpl in Hin.
    by rewrite jsstring_eqb_refl in Hin.
Qed.

Lemma findMenuItem_resolves_full_name_witness :
  Menu.findMenuItem MENU (str "  FRIED plantain ") = Some plantain.
Proof.
  apply (findMenuItem_resolves_full_name MENU (str "  FRIED plantain ")
           plantain).
  - apply list_elem_of_In. simpl. tauto.
  - vm_compute. reflexivity.
  - intros it' Hin Hname. apply list_elem_of_In in Hin. simpl in Hin.
    repeat (destruct Hin as [<-|Hin];
            [first [reflexivity | (vm_compute in Hname; discriminate)]|]).
    destruct Hin.
Defined.

(** X11. In an order with one line per id, updateQuantity with a
    positive value for the id of a line sets the quantity of that line,
    leaves every other line as it is, and recomputes the total. *)
Theorem updateQuantity_positive_sets_one_line (itemId : jsstring) (q : Z)
    (session : Session) :
  0 < q -> NoDup (lineIds session) -> itemId ∈ lineIds session ->
  let session' := updateItemInOrder itemId q session in
  orderItems (currentOrder session')
  = map (fun it => if hasId itemId it then setQuantity q it else it)
        (orderItems (currentOrder session))
  /\ totalCost (currentOrder session')
     = sumOfLines (orderItems (currentOrder session'))
  /\ lineIds session' = lineIds session
  /\ chatHistory session' = chatHistory session.
Proof.
  intros Hpos Hnodup Hin session'.
  assert (Hlines : orderItems (currentOrder session')
                   = updateFirst itemId (setQuantity q)
                       (orderItems (currentOrder session))
                   /\ totalCost (currentOrder session')
                      = calculateTotal (orderItems (currentOrder session'))
                   /\ chatHistory session' = chatHistory session).
  { unfold session', updateItemInOrder.
    destruct (List.find _ _) eqn:Hfind.
    - destruct (q <=? 0) eqn:Hle; [lia|]. done.
    - apply find_hasId_None in Hfind. done. }
  destruct Hlines as (Hitems & Htotal & Hhist).
  split; [|split; [|split]].
  - rewrite Hitems. by apply updateFirst_map.
  - rewrite Htotal. apply calculateTotal_sum.
  - unfold lineIds. rewrite Hitems. by apply updateFirst_ids.
  - done.
Qed.

Lemma updateQuantity_positive_sets_one_line_witness :
  let session' := updateItemInOrder (id chapman) 4 twoLineSession in
  orderItems (currentOrder session')
  = map (fun it => if hasId (id chapman) it then setQuantity 4 it else it)
        (orderItems (currentOrder twoLineSession))
  /\ totalCost (currentOrder session')
     = sumOfLines (orderItems (currentOrder session'))
  /\ lineIds session' = lineIds twoLineSession
  /\ chatHistory session' = chatHistory twoLineSession.
Proof.
  apply (updateQuantity_positive_sets_one_line (id chapman) 4 twoLineSession).
  - lia.
  - apply (bool_decide_unpack _). vm_compute. exact I.
  - apply (bool_decide_unpack _). vm_compute. exact I.
Defined.

End ResolutionMoreFacts.

(** ** The routes of the server with the in-memory sessions *)

Section MemoryServerFacts.
Import Menu Order Regex Directives OrderInvariants Json MemoryServer.









(** X14. Completing the order of a session that has a line: the answer
    is 200, the completed order has the lines and the total of the
    session, the new identifier and the status confirmed, and can be read
    back under that identifier; the session is gone, so that reading its
    order, completing it again or chatting in it are refused. *)
Theorem complete_round_trip (sid uuid now message : jsstring)
    (info : jsvalue) (reply : Completion) (st : State) (session : Session) :
  sessions st !! sid = Some session ->
  orderItems (currentOrder session) <> [] ->
  let placed := complete sid info uuid now st in
  exists o,
    status placed.1 = 200%nat
    /\ getCompleted uuid placed.2 = (mkResponse 200 (CompletedBody o), placed.2)
    /\ completedItems o = orderItems (currentOrder session)
    /\ completedTotal o = totalCost (currentOrder session)
    /\ completedId o = uuid
    /\ completedStatus o = str "confirmed"
    /\ status (getOrder sid placed.2).1 = 404%nat
    /\ complete sid info uuid now placed.2
       = (mkResponse 404 (ErrorBody (str "Session not found")), placed.2)
    /\ status (chat (Some sid) message reply placed.2).1 = 400%nat
    /\ (chat (Some sid) message reply placed.2).2 = placed.2.
Proof.
  intros Hget Hitems placed. unfold placed, complete. rewrite Hget.
  destruct (orderItems (currentOrder session)) as [|it its] eqn:Hits; [done|].
  eexists. simpl. unfold getCompleted, getOrder, complete, chat. simpl.
  rewrite lookup_insert_eq, !lookup_delete_eq.
  repeat split; try done.
  - by destruct sid.
  - by destruct sid.
Qed.

Lemma complete_round_trip_witness :
  let st := (chat (Some (str "s-1")) (str "two jollof please")
               (Choice (str "ORDER_ADD:Jollof Rice|QUANTITY:2 Done!"))
               (startSession (str "s-1") initialState).2).2 in
  let placed := complete (str "s-1") None (str "o-1") (str "2025-01-01") st in
  exists o,
    status placed.1 = 200%nat
    /\ getCompleted (str "o-1") placed.2
       = (mkResponse 200 (CompletedBody o), placed.2)
    /\ completedItems o = [jollofLine 2]
    /\ completedTotal o = 5000
    /\ completedId o = str "o-1"
    /\ completedStatus o = str "confirmed"
    /\ status (getOrder (str "s-1") placed.2).1 = 404%nat
    /\ complete (str "s-1") None (str "o-1") (str "2025-01-01") placed.2
       = (mkResponse 404 (ErrorBody (str "Session not found")), placed.2)
    /\ status (chat (Some (str "s-1")) (str "hello") NoChoice placed.2).1
       = 400%nat
    /\ (chat (Some (str "s-1")) (str "hello") NoChoice placed.2).2 = placed.2.
Proof.
  intros st.
  apply (complete_round_trip (str "s-1") (str "o-1") (str "2025-01-01")
           (str "hello") None NoChoice st
           (mkSession
              [mkMessage assistant initialMessage;
               mkMessage user (str "two jollof please");
               mkMessage assistant (str "Done!")]
              (mkOrder [jollofLine 2] 5000))).
  - vm_compute. reflexivity.
  - discriminate.
Defined.

(** X15. A request that a route answers with 400 or 404 (missing or
    unknown session, unknown item or order, empty order) changes
    nothing: no session, no completed order, no call of the model. *)
Theorem refused_request_changes_nothing (r : Request) (st : State) :
  status (handle r st).1 = 400%nat \/ status (handle r st).1 = 404%nat ->
  (handle r st).2 = st.
Proof.
  destruct r; simpl.
  - done.
  - intros [?|?]; done.
  - unfold chat. destruct (Store.missing sessionId); [done|].
    destruct (sessions st !! Store.show sessionId) as [session|]; [|done].
    destruct reply as [content| |e].
    + destruct (processOrderInstructions _ _ _); simpl; intros [?|?]; done.
    + simpl. intros [?|?]; done.
    + destruct e; simpl; intros [?|?]; done.
  - unfold getOrder. by destruct (sessions st !! sessionId).
  - unfold putItem. destruct (sessions st !! sessionId); [|done].
    destruct (List.find _ _); [|done]. simpl. intros [?|?]; done.
  - unfold complete. destruct (sessions st !! sessionId); [|done].
    destruct (orderItems _); [done|]. simpl. intros [?|?]; done.
  - unfold getCompleted. by destruct (completedOrders st !! orderId).
Qed.

Lemma refused_request_changes_nothing_witness :
  (handle (Complete (str "s-1") None (str "o-1") (str "2025-01-01"))
     (startSession (str "s-1") initialState).2).2
  = (startSession (str "s-1") initialState).2.
Proof.
  apply (refused_request_changes_nothing
           (Complete (str "s-1") None (str "o-1") (str "2025-01-01"))
           (startSession (str "s-1") initialState).2).
  left. vm_compute. reflexivity.
Defined.

End MemoryServerFacts.

(** ** More on the JSON-schema servers *)

Section StoreMoreFacts.
Import Json Store RedisLib.

Local Arguments str : simpl never.

Ltac runM :=
  unfold UserServer.chat, SessionServer.chat, UserServer.getSession,
    UserServer.getUserSession, SessionServer.getOrCreateSession,
    UserServer.updateSession, SessionServer.updateSession,
    UserServer.parseJson, UserServer.prop, deleteSession, redisDel,
    tryCatch, bind, ret, throw, redisGet, redisSet, generateContent;
  simpl.

(** The key that a turn of the server keyed by session works on. *)
Lemma sessionServer_chat_cases JSON_parse apiKey random req reply w :
  let key := SessionServer.sessionKey
               (if missing (ident req) then str "sess_" ++ random
                else show (ident req)) in
  let loaded := (SessionServer.getOrCreateSession random (ident req) w).2 in
  exists resp w',
    SessionServer.chat JSON_parse apiKey random req reply w = (inr resp, w')
    /\ (status resp = 200%nat \/ status resp = 500%nat)
    /\ (modelCalls w' <= S (modelCalls w))%nat
    /\ (redis w' = redis w \/ redis w' = redis loaded
        \/ exists s, status resp = 200%nat
             /\ redis w' = <[key := mkEntry s None]> (redis loaded))
    /\ (status resp <> 200%nat ->
        redis w' = if apiKey then redis loaded else redis w).
Proof.
  intros key loaded. unfold key, loaded. runM.
  destruct apiKey; simpl; [|eexists _, _; split; [done|]; auto 10].
  destruct (missing (ident req)) eqn:Hm; simpl.
  - destruct reply as [text|]; [|eexists _, _; split; [done|]; auto 10].
    destruct (JSON_parse (trim text)) as [p|];
      [|eexists _, _; split; [done|]; auto 10].
    destruct (getProp (str "currentOrder") p) as [o|];
      [|eexists _, _; split; [done|]; auto 10].
    destruct (getProp (str "context") p) as [c|];
      [|eexists _, _; split; [done|]; auto 10].
    eexists _, _. split; [done|]. simpl. split; [by left|]. split; [lia|].
    split; [|done]. right. right. by eexists.
  - destruct (redis w !! _) as [e|] eqn:Hget; simpl;
      [|eexists _, _; split; [done|]; auto 10].
    destruct reply as [text|]; [|eexists _, _; split; [done|]; auto 10].
    destruct (JSON_parse (trim text)) as [p|];
      [|eexists _, _; split; [done|]; auto 10].
    destruct (getProp (str "currentOrder") p) as [o|];
      [|eexists _, _; split; [done|]; auto 10].
    destruct (getProp (str "context") p) as [c|];
      [|eexists _, _; split; [done|]; auto 10].
    eexists _, _. split; [done|]. simpl. split; [by left|]. split; [lia|].
    split; [|done]. right. right. by eexists.
Qed.

Lemma userServer_chat_cases JSON_parse req reply w :
  let key := UserServer.userKey (ident req) in
  let loaded := (UserServer.getUserSession (ident req) w).2 in
  exists resp w',
    UserServer.chat JSON_parse req reply w = (inr resp, w')
    /\ (status resp = 200%nat \/ status resp = 400%nat
        \/ status resp = 500%nat)
    /\ (modelCalls w' <= S (modelCalls w))%nat
    /\ (redis w' = redis loaded
        \/ exists s, status resp = 200%nat
             /\ redis w' = <[key := mkEntry s None]> (redis loaded))
    /\ (status resp <> 200%nat -> redis w' = redis loaded).
Proof.
  intros key loaded. unfold key, loaded. runM.
  destruct (redis w !! UserServer.userKey (ident req)) as [e|] eqn:Hget; simpl.
  - destruct (missing (ident req)); simpl;
      [eexists _, _; split; [done|]; auto 10|].
    destruct (history req); simpl; [|eexists _, _; split; [done|]; auto 10].
    destruct reply as [text|]; [|eexists _, _; split; [done|]; auto 10].
    destruct (JSON_parse (trim text)) as [p|];
      [|eexists _, _; split; [done|]; auto 10].
    destruct (getProp (str "currentOrder") p) as [o|];
      [|eexists _, _; split; [done|]; auto 10].
    destruct (getProp (str "context") p) as [c|];
      [|eexists _, _; split; [done|]; auto 10].
    eexists _, _. split; [done|]. simpl. split; [by left|]. split; [lia|].
    split; [|done]. right. by eexists.
  - destruct (missing (ident req)); simpl;
      [eexists _, _; split; [done|]; auto 10|].
    destruct (history req); simpl; [|eexists _, _; split; [done|]; auto 10].
    destruct reply as [text|]; [|eexists _, _; split; [done|]; auto 10].
    destruct (JSON_parse (trim text)) as [p|];
      [|eexists _, _; split; [done|]; auto 10].
    destruct (getProp (str "currentOrder") p) as [o|];
      [|eexists _, _; split; [done|]; auto 10].
    destruct (getProp (str "context") p) as [c|];
      [|eexists _, _; split; [done|]; auto 10].
    eexists _, _. split; [done|]. simpl. split; [by left|]. split; [lia|].
    split; [|done]. right. by eexists.
Qed.

Lemma loaded_user_store userId w :
  redis (UserServer.getUserSession userId w).2 = redis w
  \/ redis (UserServer.getUserSession userId w).2
     = <[UserServer.userKey userId := mkEntry freshSession None]>
         (redis w).
Proof.
  rewrite getUserSession_run. destruct (redis w !! _); [by left|by right].
Qed.

Lemma loaded_session_store random sessionId w :
  redis (SessionServer.getOrCreateSession random sessionId w).2 = redis w
  \/ (missing sessionId = true
      /\ redis (SessionServer.getOrCreateSession random sessionId w).2
         = <[SessionServer.sessionKey (str "sess_" ++ random)
             := mkEntry freshSession None]> (redis w)).
Proof.
  rewrite getOrCreateSession_run. destruct (missing sessionId); [by right|].
  destruct (redis w !! _); by left.
Qed.

(** X16. A chat turn works on one key of the store. Whatever the
    request, the answer of the model and the parser, the server keyed by
    user leaves every key but the one of the user as it was, and the
    server keyed by session leaves every key but the one of the session
    of the request (or of the session it creates) as it was. *)
Theorem chat_turn_touches_one_key (JSON_parse : jsstring -> option json)
    (apiKey : bool) (random : jsstring) (reqU reqS : Request)
    (reply : ModelReply) (w : World) (kU kS : jsstring) :
  kU <> UserServer.userKey (ident reqU) ->
  kS <> SessionServer.sessionKey
          (if missing (ident reqS) then str "sess_" ++ random
           else show (ident reqS)) ->
  redis (UserServer.chat JSON_parse reqU reply w).2 !! kU = redis w !! kU
  /\ redis (SessionServer.chat JSON_parse apiKey random reqS reply w).2 !! kS
     = redis w !! kS.
Proof.
  intros HkU HkS. split.
  - destruct (userServer_chat_cases JSON_parse reqU reply w)
      as (resp & w' & -> & _ & _ & Hstore & _). simpl.
    assert (Hloaded : redis (UserServer.getUserSession (ident reqU) w).2 !! kU
                      = redis w !! kU).
    { destruct (loaded_user_store (ident reqU) w) as [->| ->]; [done|].
      by rewrite lookup_insert_ne. }
    destruct Hstore as [->|(s & _ & ->)]; [done|].
    by rewrite lookup_insert_ne.
  - destruct (sessionServer_chat_cases JSON_parse apiKey random reqS reply w)
      as (resp & w' & -> & _ & _ & Hstore & _). simpl.
    assert (Hloaded : redis (SessionServer.getOrCreateSession random
                               (ident reqS) w).2 !! kS
                      = redis w !! kS).
    { destruct (loaded_session_store random (ident reqS) w)
        as [->|[Hm ->]]; [done|].
      rewrite Hm in HkS. by rewrite lookup_insert_ne. }
    destruct Hstore as [->|[->|(s & _ & ->)]]; [done|done|].
    by rewrite lookup_insert_ne.
Qed.

Lemma chat_turn_touches_one_key_witness :
  let w := mkWorld {[ str "user:u2" := mkEntry freshSession None ]} 0 in
  let req := mkRequest (str "hello") (Some []) (Some (str "u1")) in
  redis (UserServer.chat sampleParse req (ModelText noItemsText) w).2
    !! str "user:u2"
  = redis w !! str "user:u2"
  /\ redis (SessionServer.chat sampleParse true (str "r4nd0m") req
              (ModelText noItemsText) w).2 !! str "user:u2"
     = redis w !! str "user:u2".
Proof.
  intros w req.
  apply (chat_turn_touches_one_key sampleParse true (str "r4nd0m") req req
           (ModelText noItemsText) w (str "user:u2") (str "user:u2")).
  - vm_compute. discriminate.
  - vm_compute. discriminate.
Defined.



(** X18. A chat turn never rejects: every exception is answered, with
    400 or 500, after at most one call of the model; and a turn that
    does not answer 200 (model failure, text that is not JSON, the JSON
    [null], no history, no user, unknown session, no API key) writes
    nothing but what the load of the session wrote. *)
Theorem failed_turn_writes_nothing (JSON_parse : jsstring -> option json)
    (apiKey : bool) (random : jsstring) (req : Request) (reply : ModelReply)
    (w : World) :
  (exists resp w',
     UserServer.chat JSON_parse req reply w = (inr resp, w')
     /\ (status resp = 200%nat \/ status resp = 400%nat
         \/ status resp = 500%nat)
     /\ (modelCalls w' <= S (modelCalls w))%nat
     /\ (status resp <> 200%nat ->
         redis w' = redis (UserServer.getUserSession (ident req) w).2))
  /\ (exists resp w',
        SessionServer.chat JSON_parse apiKey random req reply w
        = (inr resp, w')
        /\ (status resp = 200%nat \/ status resp = 500%nat)
        /\ (modelCalls w' <= S (modelCalls w))%nat
        /\ (status resp <> 200%nat ->
            redis w'
            = if apiKey
              then redis (SessionServer.getOrCreateSession random (ident req)
                            w).2
              else redis w)).
Proof.
  split.
  - destruct (userServer_chat_cases JSON_parse req reply w)
      as (resp & w' & Heq & Hstatus & Hcalls & _ & Hfail).
    by exists resp, w'.
  - destruct (sessionServer_chat_cases JSON_parse apiKey random req reply w)
      as (resp & w' & Heq & Hstatus & Hcalls & _ & Hfail).
    by exists resp, w'.
Qed.

(** X19. A chat request without user identifier is answered 400 by the
    server keyed by user, without a call of the model, but only after
    the load of the session, which leaves a session under the key of the
    absent identifier ("user:undefined"); [GET /get-session] checks the
    identifier first and leaves the store as it is. *)
Theorem chat_without_user_creates_placeholder_session
    (JSON_parse : jsstring -> option json) (req : Request)
    (reply : ModelReply) (w : World) :
  missing (ident req) = true ->
  UserServer.chat JSON_parse req reply w
  = (inr (mkResponse 400 (ErrorBody (str "User ID is required"))),
     (UserServer.getUserSession (ident req) w).2)
  /\ is_Some (redis (UserServer.chat JSON_parse req reply w).2
                !! UserServer.userKey (ident req))
  /\ modelCalls (UserServer.chat JSON_parse req reply w).2 = modelCalls w
  /\ UserServer.userKey None = str "user:undefined"
  /\ UserServer.getSession (ident req) w
     = (inr (mkResponse 400 (ErrorBody (str "User ID is required"))), w).
Proof.
  intros Hm. runM. rewrite Hm.
  destruct (redis w !! UserServer.userKey (ident req)) as [e|] eqn:Hget; simpl.
  - by rewrite Hget.
  - by rewrite lookup_insert_eq.
Qed.

Lemma chat_without_user_creates_placeholder_session_witness :
  let w := mkWorld ∅ 0 in
  let req := mkRequest (str "hello") (Some []) None in
  UserServer.chat sampleParse req (ModelText (str "{}")) w
  = (inr (mkResponse 400 (ErrorBody (str "User ID is required"))),
     (UserServer.getUserSession (ident req) w).2)
  /\ is_Some (redis (UserServer.chat sampleParse req (ModelText (str "{}")) w).2
                !! UserServer.userKey (ident req))
  /\ modelCalls (UserServer.chat sampleParse req (ModelText (str "{}")) w).2
     = modelCalls w
  /\ UserServer.userKey None = str "user:undefined"
  /\ UserServer.getSession (ident req) w
     = (inr (mkResponse 400 (ErrorBody (str "User ID is required"))), w).
Proof.
  intros w req.
  apply (chat_without_user_creates_placeholder_session sampleParse req
           (ModelText (str "{}")) w).
  reflexivity.
Defined.



(** X21. [deleteSession] answers [true] and removes the key of the
    session and no other: afterwards the get of the server keyed by
    session throws [SessionNotFound] for that identifier, and its chat
    turn answers 500 without a call of the model. It never removes a
    session of the server keyed by user, whose keys begin with
    "user:". *)
Theorem deleteSession_removes_only_that_session
    (JSON_parse : jsstring -> option json) (sid random message : jsstring)
    (h : option (list (jsstring * jsstring))) (reply : ModelReply)
    (userId : option jsstring) (k : jsstring) (w : World) :
  sid <> [] -> k <> SessionServer.sessionKey sid ->
  let after := (deleteSession sid w).2 in
  (deleteSession sid w).1 = inr true
  /\ redis after !! SessionServer.sessionKey sid = None
  /\ redis after !! k = redis w !! k
  /\ redis after !! UserServer.userKey userId
     = redis w !! UserServer.userKey userId
  /\ SessionServer.getOrCreateSession random (Some sid) after
     = (inl SessionNotFound, after)
  /\ SessionServer.chat JSON_parse true random
       (mkRequest message h (Some sid)) reply after
     = (inr (mkResponse 500
               (ErrorBody
                  (str "An error occurred while processing your request"))),
        after).
Proof.
  intros Hsid Hk after. unfold after.
  rewrite getOrCreateSession_run. runM.
  destruct sid as [|c sid]; [done|]. simpl.
  rewrite lookup_delete_eq. simpl.
  split; [done|]. split; [done|]. split; [by apply lookup_delete_ne|].
  split; [|done]. by apply lookup_delete_ne.
Qed.

Lemma deleteSession_removes_only_that_session_witness :
  let w := mkWorld (<[str "user:u1" := mkEntry freshSession None]>
                      {[ str "session:s1" := mkEntry freshSession None ]}) 0 in
  let after := (deleteSession (str "s1") w).2 in
  (deleteSession (str "s1") w).1 = inr true
  /\ redis after !! SessionServer.sessionKey (str "s1") = None
  /\ redis after !! str "user:u1" = redis w !! str "user:u1"
  /\ redis after !! UserServer.userKey (Some (str "u1"))
     = redis w !! UserServer.userKey (Some (str "u1"))
  /\ SessionServer.getOrCreateSession (str "r4nd0m") (Some (str "s1")) after
     = (inl SessionNotFound, after)
  /\ SessionServer.chat sampleParse true (str "r4nd0m")
       (mkRequest (str "hello") None (Some (str "s1"))) (ModelText (str "{}"))
       after
     = (inr (mkResponse 500
               (ErrorBody
                  (str "An error occurred while processing your request"))),
        after).
Proof.
  intros w.
  apply (deleteSession_removes_only_that_session sampleParse (str "s1")
           (str "r4nd0m") (str "hello") None (ModelText (str "{}"))
           (Some (str "u1")) (str "user:u1") w).
  - discriminate.
  - vm_compute. discriminate.
Defined.

End StoreMoreFacts.

(** ** The command-line prototype *)

Section PrototypeFacts.
Import Menu Order Regex Directives OrderInvariants MemoryServer PrototypeOrder.

Lemma keepsOrder_refl o : keepsOrder o o.
Proof. unfold keepsOrder. tauto. Qed.

Lemma keepsOrder_trans o1 o2 o3 :
  keepsOrder o1 o2 -> keepsOrder o2 o3 -> keepsOrder o1 o3.
Proof.
  intros (Hi & Hs & Ht & Hids & Hok) (Hi' & Hs' & Ht' & Hids' & Hok').
  unfold keepsOrder. split; [congruence|]. split; [congruence|].
  split; [congruence|]. split; [|tauto].
  intros i Hin. by apply Hids', Hids.
Qed.

Lemma prototype_addItemToOrder_keeps menuItem qty g :
  history (PrototypeOrder.addItemToOrder menuItem qty g) = history g
  /\ keepsOrder (current g)
       (current (PrototypeOrder.addItemToOrder menuItem qty g)).
Proof.
  split; [done|].
  unfold keepsOrder, PrototypeOrder.addItemToOrder, orderOk. simpl.
  destruct (List.find (hasId (id menuItem)) (PrototypeOrder.items (current g)))
    as [existingItem|] eqn:Hfind.
  - rewrite updateFirst_ids by done. repeat split; try done.
    + apply calculateTotal_sum.
    + tauto.
  - apply find_hasId_None in Hfind. rewrite map_app. simpl.
    split; [done|]. split; [done|]. split; [done|]. split.
    + intros i Hi. apply elem_of_app. by left.
    + intros [_ Hnd]. split; [apply calculateTotal_sum|].
      apply NoDup_app. split; [done|]. split.
      * by intros i Hi ->%list_elem_of_singleton.
      * apply NoDup_singleton.
Qed.

Lemma prototype_processAdd_keeps menu g s m :
  m ∈ matchAll ORDER_ADD s ->
  exists g', PrototypeOrder.processAdd menu g m = Some g'
             /\ history g' = history g
             /\ keepsOrder (current g) (current g').
Proof.
  intros (t & caps & rest & Hm & ->)%matchAllFrom_elem.
  apply (quantity_match_alone (str "ORDER_ADD:")) in Hm
    as (itemName & digits & -> & Halone).
  unfold PrototypeOrder.processAdd. apply exec_here in Halone.
  change (quantityPattern (str "ORDER_ADD:")) with ORDER_ADD in Halone.
  rewrite Halone.
  destruct (Prototype.findMenuItem menu (trim itemName)) as [menuItem|].
  - eexists. split; [done|]. apply prototype_addItemToOrder_keeps.
  - eexists. split; [done|]. split; [done|]. apply keepsOrder_refl.
Qed.

Lemma prototype_forEach_keeps menu s ms g :
  (forall m, m ∈ ms -> m ∈ matchAll ORDER_ADD s) ->
  exists g', PrototypeOrder.forEach (PrototypeOrder.processAdd menu) ms g
             = Some g'
             /\ history g' = history g
             /\ keepsOrder (current g) (current g').
Proof.
  revert g. induction ms as [|m ms IH]; intros g Hms; simpl.
  - eexists. split; [done|]. split; [done|]. apply keepsOrder_refl.
  - destruct (prototype_processAdd_keeps menu g s m) as (g1 & -> & Hh1 & Hk1);
      [apply Hms, list_elem_of_here|].
    destruct (IH g1) as (g2 & -> & Hh2 & Hk2).
    { intros m' Hin. by apply Hms, list_elem_of_further. }
    eexists. split; [done|]. split; [congruence|]. by eapply keepsOrder_trans.
Qed.

Lemma prototype_processOrderInstructions_keeps menu aiResponse g :
  exists g', PrototypeOrder.processOrderInstructions menu aiResponse g
             = Some g'
             /\ history g' = history g
             /\ keepsOrder (current g) (current g').
Proof. by apply (prototype_forEach_keeps menu aiResponse). Qed.

(** A call of [processOrderWithAI]: the history grows by the message of
    the customer and, when the model gave a choice, by the text that is
    returned; the order is kept in the sense of [keepsOrder], and is the
    same when the model gave no choice. *)
Lemma processOrderWithAI_step menu userMessage reply g :
  let r := PrototypeOrder.processOrderWithAI menu userMessage reply g in
  keepsOrder (current g) (current r.2)
  /\ match reply with
     | Choice aiContent =>
         r.1 = PrototypeOrder.cleanResponse aiContent
         /\ history r.2
            = history g ++ [mkMessage user userMessage;
                            mkMessage assistant r.1]
     | _ =>
         history r.2 = history g ++ [mkMessage user userMessage]
         /\ current r.2 = current g
     end.
Proof.
  unfold PrototypeOrder.processOrderWithAI.
  destruct reply as [aiContent| |e]; simpl.
  - destruct (prototype_processOrderInstructions_keeps menu aiContent
                (mkGlobals (history g ++ [mkMessage user userMessage])
                   (current g))) as (g2 & -> & Hh & Hk).
    simpl in *. split; [done|]. split; [done|].
    by rewrite Hh, <- (assoc_L (++)).
  - split; [apply keepsOrder_refl|done].
  - split; [apply keepsOrder_refl|done].
Qed.

Lemma takeOrders_keeps menu turns g :
  keepsOrder (current g) (current (takeOrders menu turns g))
  /\ (length (history g) + length turns
      <= length (history (takeOrders menu turns g))
      <= length (history g) + 2 * length turns)%nat.
Proof.
  revert g. unfold takeOrders.
  induction turns as [|[msg reply] turns IH]; intros g; simpl.
  - split; [apply keepsOrder_refl|lia].
  - destruct (IH (takeOrder menu msg reply g).2) as [Hk Hlen].
    destruct (processOrderWithAI_step menu msg reply g) as [Hk1 Hh1].
    simpl in Hk1, Hh1. unfold takeOrder in *. split.
    + by eapply keepsOrder_trans.
    + assert (length (history g) + 1
              <= length (history
                           (PrototypeOrder.processOrderWithAI menu msg reply
                              g).2)
              <= length (history g) + 2)%nat as Hone.
      { destruct reply as [aiContent| |e].
        - destruct Hh1 as [_ ->]. rewrite length_app. simpl. lia.
        - destruct Hh1 as [-> _]. rewrite length_app. simpl. lia.
        - destruct Hh1 as [-> _]. rewrite length_app. simpl. lia. }
      lia.
Qed.

Lemma completeOrder_cases uuid now g :
  match PrototypeOrder.items (current g) with
  | [] => PrototypeOrder.completeOrder uuid now g = (None, g)
  | _ :: _ =>
      PrototypeOrder.completeOrder uuid now g
      = (Some (mkOrderState (Some uuid) (PrototypeOrder.items (current g))
                 (total (current g)) (str "confirmed") (Some now)),
         mkGlobals (history g) pendingOrder)
  end.
Proof.
  unfold PrototypeOrder.completeOrder, PrototypeOrder.finalizeOrder.
  by destruct (PrototypeOrder.items (current g)).
Qed.

(** X22. In the prototype, whatever the customer says and the model
    does over a sequence of calls of [takeOrder], an order whose total
    is the sum over its lines and whose lines have distinct ids stays
    so; no line is ever dropped, the id, status and time of the order
    are not touched, and each call adds one or two messages to the
    history. *)
Theorem prototype_turns_keep_order_consistent (menu : Catalog)
    (turns : list (jsstring * Completion)) (g : Globals) :
  orderOk (current g) ->
  let g' := takeOrders menu turns g in
  orderOk (current g')
  /\ (forall i, i ∈ map lineId (PrototypeOrder.items (current g)) ->
                i ∈ map lineId (PrototypeOrder.items (current g')))
  /\ orderId (current g') = orderId (current g)
  /\ orderStatus (current g') = orderStatus (current g)
  /\ timestamp (current g') = timestamp (current g)
  /\ (length (history g) + length turns <= length (history g')
      <= length (history g) + 2 * length turns)%nat.
Proof.
  intros Hok g'. unfold g'.
  destruct (takeOrders_keeps menu turns g)
    as [(Hi & Hs & Ht & Hids & Hkeep) Hlen].
  split; [by apply Hkeep|]. done.
Qed.

Lemma prototype_turns_keep_order_consistent_witness :
  let g := mkGlobals [] pendingOrder in
  let g' := takeOrders Prototype.MENU
              [(str "two jollof rice please",
                Choice (str "Sure! ORDER_ADD:Jollof Rice|QUANTITY:2"));
               (str "and a chapman", Failure RateLimited)] g in
  orderOk (current g')
  /\ (forall i, i ∈ map lineId (PrototypeOrder.items (current g)) ->
                i ∈ map lineId (PrototypeOrder.items (current g')))
  /\ orderId (current g') = orderId (current g)
  /\ orderStatus (current g') = orderStatus (current g)
  /\ timestamp (current g') = timestamp (current g)
  /\ (length (history g) + 2 <= length (history g')
      <= length (history g) + 2 * 2)%nat.
Proof.
  intros g.
  apply (prototype_turns_keep_order_consistent Prototype.MENU
           [(str "two jollof rice please",
             Choice (str "Sure! ORDER_ADD:Jollof Rice|QUANTITY:2"));
            (str "and a chapman", Failure RateLimited)] g).
  split; [reflexivity|apply NoDup_nil_2].
Defined.

(** X23. [completeOrder] of the prototype returns [null] exactly when
    the order has no line, and then changes nothing. Otherwise it
    returns the lines and the total of the order as they are, confirmed,
    with the new id and time, and resets the order: the history is kept,
    the order is the pending one, and a second [completeOrder] returns
    [null]. *)
Theorem prototype_completeOrder_returns_order_once
    (uuid now uuid' now' : jsstring) (g : Globals) :
  let r := PrototypeOrder.completeOrder uuid now g in
  (r.1 = None <-> PrototypeOrder.items (current g) = [])
  /\ (r.1 = None -> r.2 = g)
  /\ (forall o, r.1 = Some o ->
        PrototypeOrder.items o = PrototypeOrder.items (current g)
        /\ total o = total (current g)
        /\ orderStatus o = str "confirmed"
        /\ orderId o = Some uuid
        /\ timestamp o = Some now
        /\ r.2 = mkGlobals (history g) pendingOrder
        /\ PrototypeOrder.completeOrder uuid' now' r.2 = (None, r.2)).
Proof.
  pose proof (completeOrder_cases uuid now g) as Hc.
  destruct (PrototypeOrder.items (current g)) as [|it its] eqn:Hits;
    rewrite Hc; simpl.
  - split; [done|]. split; [done|]. by intros o.
  - split; [split; discriminate|]. split; [discriminate|].
    intros o [= <-]. simpl. by rewrite <- Hits.
Qed.

(** X24. The demo session of the prototype, whatever the model does at
    its five calls: the order it returns, if any, has at least one line,
    lines of distinct ids, the sum over its lines as its total, and is
    confirmed under the new id; and the session always ends with the
    pending order, whatever the globals were before. *)
Theorem prototype_demo_returns_consistent_order (menu : Catalog)
    (r0 r1 r2 r3 r4 : Completion) (uuid now : jsstring) (g : Globals) :
  let r := runOrderDemo menu r0 r1 r2 r3 r4 uuid now g in
  current r.2 = pendingOrder
  /\ (forall o, r.1 = Some o ->
        PrototypeOrder.items o <> []
        /\ orderOk o
        /\ orderStatus o = str "confirmed"
        /\ orderId o = Some uuid
        /\ timestamp o = Some now).
Proof.
  unfold runOrderDemo, startOrderSession.
  set (m0 := str "Hello! I'd like to see your menu and place an order.").
  set (g0 := (PrototypeOrder.processOrderWithAI menu m0 r0
                (mkGlobals [] pendingOrder)).2).
  set (turns := [(str "I want jollof rice and chapman drink", r1);
                 (str "Can I also get fried plantain?", r2);
                 (str "Actually, make that two jollof rice", r3);
                 (str "That's all, I'm ready to order", r4)]).
  change (takeOrder menu _ r4 _).2 with (takeOrders menu turns g0).
  destruct (processOrderWithAI_step menu m0 r0 (mkGlobals [] pendingOrder))
    as [Hk0 _].
  destruct (takeOrders_keeps menu turns g0) as [Hk _].
  pose proof (keepsOrder_trans _ _ _ Hk0 Hk) as (Hi & Hs & Ht & _ & Hok).
  specialize (Hok (conj eq_refl (NoDup_nil_2 (A:=jsstring)))).
  set (g4 := takeOrders menu turns g0) in *. simpl in Hi, Hs, Ht.
  pose proof (completeOrder_cases uuid now g4) as Hc.
  destruct (PrototypeOrder.items (current g4)) as [|it its] eqn:Hits;
    rewrite Hc; simpl.
  - split; [|by intros o]. destruct Hok as [Htot _].
    rewrite Hits in Htot. simpl in Htot.
    destruct (current g4) as [i its' t s ts]. simpl in *. by subst.
  - split; [done|]. intros o [= <-]. simpl. split; [done|].
    split; [|done]. destruct Hok as [Htot Hnd]. rewrite Hits in Htot, Hnd.
    by split.
Qed.

End PrototypeFacts.

(** ** A reply with one directive *)

Section SingleDirectiveFacts.
Import Menu Order Regex Directives OrderInvariants.

Lemma removeAllFrom_skip (p : Pattern) (a b : jsstring) :
  removeAllFrom p (length a) (a ++ b) = removeAllFrom p 0 b.
Proof. induction a as [|c a IH]; [done|]. simpl. apply IH. Qed.

(** A text with one match [D]: no suffix that begins in [pre] or in
    [post] is matched, and [D] is matched up to [post]. *)
Lemma scan_single_match (p : Pattern) (pre D post : jsstring)
    (caps : list jsstring) :
  (forall k, (k < length pre)%nat ->
             matchHere p [] (drop k (pre ++ D ++ post)) = None) ->
  D <> [] -> matchHere p [] (D ++ post) = Some (caps, post) ->
  (forall k, matchHere p [] (drop k post) = None) ->
  matchAll p (pre ++ D ++ post) = [D]
  /\ removeAll p (pre ++ D ++ post) = pre ++ post.
Proof.
  intros Hpre HD Hm Hpost. unfold matchAll, removeAll.
  destruct (scan_without_match p post Hpost) as [Hall Hrem].
  unfold matchAll, removeAll in Hall, Hrem.
  induction pre as [|c pre IH].
  - destruct D as [|d D]; [done|]. simpl. unfold matchLength.
    change (d :: D ++ post) with ((d :: D) ++ post). rewrite Hm.
    replace (length ((d :: D) ++ post) - length post)%nat
      with (S (length D)) by (rewrite length_app; simpl; lia).
    simpl. rewrite Nat.sub_0_r, matchAllFrom_skip, removeAllFrom_skip.
    rewrite Hall, Hrem. by rewrite take_app_length.
  - pose proof (Hpre 0%nat) as H0. simpl in H0.
    apply matchLength_None in H0; [|lia]. simpl. rewrite H0.
    destruct IH as [-> ->]; [|done].
    intros k Hk. apply (Hpre (S k)). simpl. lia.
Qed.

Lemma canonical_lookup (l kw : jsstring) (i : nat) (x : ascii) :
  map canonicalize l = map canonicalize kw -> kw !! i = Some x ->
  exists c, l !! i = Some c /\ canonicalize c = canonicalize x.
Proof.
  revert l i. induction kw as [|y kw IH]; intros l i Hl Hi; [done|].
  destruct l as [|c l]; [done|]. injection Hl as Hc Hl.
  destruct i as [|i]; simpl in *.
  - injection Hi as <-. by exists c.
  - by apply IH.
Qed.

Lemma canonical_no_underscore (l kw : jsstring) :
  map canonicalize l = map canonicalize kw -> "_"%char ∉ kw -> "_"%char ∉ l.
Proof.
  revert l. induction kw as [|y kw IH]; intros l Hl Hkw.
  - by destruct l.
  - destruct l as [|c l]; [apply not_elem_of_nil|]. injection Hl as Hc Hl.
    apply not_elem_of_cons in Hkw as [Hy Hkw]. apply not_elem_of_cons. split.
    + intros <-. apply Hy. symmetry. by apply underscore_canonical.
    + by apply IH.
Qed.

Lemma digits_no_underscore (ds : jsstring) :
  Forall (fun c => isDigit c = true) ds -> "_"%char ∉ ds.
Proof.
  intros Hds Hin. rewrite Forall_forall in Hds. by apply Hds in Hin.
Qed.

(** A match of a pattern whose keyword has the underscore at index 5
    begins five characters before an underscore. *)
Lemma keyword_match_underscore (kw : jsstring) (p : Pattern) (s : jsstring) :
  kw !! 5%nat = Some "_"%char -> matchHere (Lit kw :: p) [] s <> None ->
  s !! 5%nat = Some "_"%char.
Proof.
  intros Hkw. cbn [matchHere].
  destruct (matchLit kw s) as [s1|] eqn:Hlit; [|done]. intros _.
  apply matchLit_inv in Hlit as (l & -> & Hl).
  destruct (canonical_lookup l kw 5 "_"%char Hl Hkw) as (c & Hc & Hcan).
  apply underscore_canonical in Hcan as ->.
  by rewrite (lookup_app_l_Some _ _ _ _ Hc).
Qed.

(** Two keywords that differ at an index: the text of one is not matched
    by the other. *)
Lemma keyword_clash (kw kw' l X : jsstring) (p : Pattern) (i : nat)
    (x x' : ascii) :
  map canonicalize l = map canonicalize kw ->
  kw !! i = Some x -> kw' !! i = Some x' ->
  canonicalize x <> canonicalize x' ->
  matchHere (Lit kw' :: p) [] (l ++ X) = None.
Proof.
  intros Hl Hx Hx' Hne. cbn [matchHere].
  destruct (matchLit kw' (l ++ X)) as [s1|] eqn:Hlit; [|done].
  apply matchLit_inv in Hlit as (l' & Heq & Hl').
  destruct (canonical_lookup l kw i x Hl Hx) as (c & Hc & Hcan).
  destruct (canonical_lookup l' kw' i x' Hl' Hx') as (c' & Hc' & Hcan').
  apply (f_equal (fun t => t !! i)) in Heq.
  rewrite (lookup_app_l_Some _ _ _ _ Hc), (lookup_app_l_Some _ _ _ _ Hc') in Heq.
  congruence.
Qed.

(** The only underscore of [A ++ "_" :: B]. *)
Lemma underscore_unique (A B : jsstring) (j : nat) :
  "_"%char ∉ A -> "_"%char ∉ B ->
  (A ++ "_"%char :: B) !! j = Some "_"%char -> j = length A.
Proof.
  intros HA HB Hj. destruct (decide (j < length A)%nat) as [Hlt|Hge].
  - rewrite lookup_app_l in Hj by done. exfalso. apply HA.
    by eapply list_elem_of_lookup_2.
  - rewrite lookup_app_r in Hj by lia.
    destruct (j - length A)%nat as [|n] eqn:Hn; [lia|].
    simpl in Hj. exfalso. apply HB. by eapply list_elem_of_lookup_2.
Qed.

Lemma keyword_split (kw l a b : jsstring) :
  kw = a ++ "_"%char :: b -> "_"%char ∉ a -> "_"%char ∉ b ->
  map canonicalize l = map canonicalize kw ->
  exists la lb, l = la ++ ("_"%char :: lb) /\ length la = length a
                /\ ("_"%char ∉ la) /\ ("_"%char ∉ lb).
Proof.
  intros -> Ha Hb Hl. rewrite map_app in Hl.
  apply map_eq_app in Hl as (la & l2 & -> & Hla & Hl2).
  destruct l2 as [|c lb]; [done|]. injection Hl2 as Hc Hlb.
  apply underscore_canonical in Hc as ->. exists la, lb.
  split; [done|]. split.
  - apply (f_equal length) in Hla. by rewrite !length_map in Hla.
  - split; by eapply canonical_no_underscore.
Qed.

(** The text of a quantity directive between two texts without
    underscore. *)
Section OneQuantityDirective.
Variables (kw a b pre l name q ds post : jsstring).
Hypothesis Hkw : kw = a ++ "_"%char :: b.
Hypothesis Ha5 : length a = 5%nat.
Hypothesis Ha : "_"%char ∉ a.
Hypothesis Hb : "_"%char ∉ b.
Hypothesis Hpre : "_"%char ∉ pre.
Hypothesis Hl : map canonicalize l = map canonicalize kw.
Hypothesis Hname : name <> [].
Hypothesis Hbar : Forall (fun c => notBar c = true) name.
Hypothesis Hname_ : "_"%char ∉ name.
Hypothesis Hq : map canonicalize q = map canonicalize (str "|QUANTITY:").
Hypothesis Hds : ds <> [].
Hypothesis Hdigits : Forall (fun c => isDigit c = true) ds.
Hypothesis Hstop : stopsRun isDigit post.
Hypothesis Hpost : "_"%char ∉ post.

Lemma directive_underscore_position (j : nat) :
  (pre ++ (l ++ name ++ q ++ ds) ++ post) !! j = Some "_"%char ->
  j = (length pre + 5)%nat.
Proof using Hkw Ha5 Ha Hb Hpre Hl Hname_ Hq Hdigits Hpost.
  destruct (keyword_split kw l a b Hkw Ha Hb Hl)
    as (la & lb & -> & Hlen & Hla & Hlb).
  replace (pre ++ ((la ++ "_"%char :: lb) ++ name ++ q ++ ds) ++ post)
    with ((pre ++ la) ++ "_"%char :: (lb ++ name ++ q ++ ds ++ post))
    by (by rewrite <- !(assoc_L (++))).
  intros Hj. apply underscore_unique in Hj.
  - rewrite Hj, length_app. lia.
  - rewrite not_elem_of_app. by split.
  - rewrite !not_elem_of_app. split; [done|]. split; [done|]. split.
    + eapply canonical_no_underscore; [exact Hq|].
      by apply (bool_decide_unpack _).
    + split; [by apply digits_no_underscore|done].
Qed.

Lemma directive_match_position (kw' : jsstring) (p : Pattern) (k : nat) :
  kw' !! 5%nat = Some "_"%char ->
  matchHere (Lit kw' :: p) []
    (drop k (pre ++ (l ++ name ++ q ++ ds) ++ post)) <> None ->
  k = length pre.
Proof using Hkw Ha5 Ha Hb Hpre Hl Hname_ Hq Hdigits Hpost.
  intros Hkw' Hm. apply keyword_match_underscore in Hm; [|done].
  unfold jsstring in Hm. rewrite lookup_drop in Hm.
  apply directive_underscore_position in Hm. lia.
Qed.

Lemma directive_scan :
  matchAll (quantityPattern kw) (pre ++ (l ++ name ++ q ++ ds) ++ post)
  = [l ++ name ++ q ++ ds]
  /\ removeAll (quantityPattern kw) (pre ++ (l ++ name ++ q ++ ds) ++ post)
     = pre ++ post.
Proof using All.
  assert (Hkw5 : kw !! 5%nat = Some "_"%char).
  { rewrite Hkw. unfold jsstring. rewrite lookup_app_r by lia.
    by rewrite Ha5. }
  apply (scan_single_match _ pre _ post [name; ds]).
  - intros k Hk.
    destruct (matchHere _ [] (drop k _)) as [r|] eqn:Hm; [|done].
    exfalso. assert (k = length pre); [|lia].
    apply (directive_match_position kw
             [Plus notBar; Lit (str "|QUANTITY:"); Plus isDigit]); [done|].
    unfold quantityPattern in Hm. by rewrite Hm.
  - destruct l; [|done]. by destruct kw.
  - rewrite <- !(assoc_L (++)). by apply quantity_match_intro.
  - intros k. apply literal_first_underscore.
    + rewrite Hkw. apply elem_of_app. right. apply list_elem_of_here.
    + by apply not_elem_of_drop.
Qed.

Lemma directive_exec :
  exec (quantityPattern kw) (l ++ name ++ q ++ ds)
  = Some (l ++ name ++ q ++ ds, [name; ds]).
Proof using Hl Hname Hbar Hq Hds Hdigits.
  pose proof (quantity_match_intro kw l name q ds [] Hl Hname Hbar Hq Hds
                Hdigits I) as Hm.
  rewrite app_nil_r in Hm. apply exec_here in Hm. rewrite Hm.
  simpl. by rewrite Nat.sub_0_r, firstn_all.
Qed.

(** A pattern of another keyword finds nothing in the text. *)
Lemma directive_other_keyword (kw' : jsstring) (p : Pattern) (i : nat)
    (x x' : ascii) :
  kw' !! 5%nat = Some "_"%char ->
  kw !! i = Some x -> kw' !! i = Some x' ->
  canonicalize x <> canonicalize x' ->
  matchAll (Lit kw' :: p) (pre ++ (l ++ name ++ q ++ ds) ++ post) = []
  /\ removeAll (Lit kw' :: p) (pre ++ (l ++ name ++ q ++ ds) ++ post)
     = pre ++ (l ++ name ++ q ++ ds) ++ post.
Proof using Hkw Ha5 Ha Hb Hpre Hl Hname_ Hq Hdigits Hpost.
  intros Hkw' Hx Hx' Hne. apply scan_without_match. intros k.
  destruct (matchHere _ [] (drop k _)) as [r|] eqn:Hm; [|done].
  assert (k = length pre) as ->.
  { apply (directive_match_position kw' p); [done|]. by rewrite Hm. }
  rewrite drop_app_length, <- (assoc_L (++)) in Hm.
  by rewrite (keyword_clash kw kw' l _ p i x x') in Hm.
Qed.

Lemma directive_context_is_plain (kw' : jsstring) (p : Pattern) :
  "_"%char ∈ kw' ->
  removeAll (Lit kw' :: p) (pre ++ post) = pre ++ post.
Proof using Hpre Hpost.
  intros Hkw'. apply scan_without_match. intros k.
  apply literal_first_underscore; [done|]. apply not_elem_of_drop.
  rewrite not_elem_of_app. by split.
Qed.

End OneQuantityDirective.

(** X25. A reply of the model with one ADD directive, in any letter
    case, between two texts without underscore (the name has no bar and
    no underscore, the text after the digits does not begin with a
    digit): [processOrderInstructions] calls [findMenuItem] once, on the
    trimmed name, and adds the quantity of the directive of the item it
    returns, or does nothing when it returns [null]; and the message for
    the user is the two texts joined and trimmed. *)
Theorem single_add_directive_is_applied (menu : Catalog)
    (pre l name q ds post : jsstring) (session : Session) :
  "_"%char ∉ pre ->
  map canonicalize l = map canonicalize (str "ORDER_ADD:") ->
  name <> [] -> "|"%char ∉ name -> "_"%char ∉ name ->
  map canonicalize q = map canonicalize (str "|QUANTITY:") ->
  ds <> [] -> Forall (fun c => isDigit c = true) ds ->
  stopsRun isDigit post -> "_"%char ∉ post ->
  processOrderInstructions menu (pre ++ (l ++ name ++ q ++ ds) ++ post) session
  = Some match findMenuItem menu (trim name) with
         | Some menuItem => addItemToOrder menuItem (parseInt ds) session
         | None => session
         end
  /\ cleanResponse (pre ++ (l ++ name ++ q ++ ds) ++ post) = trim (pre ++ post).
Proof.
  intros Hpre Hl Hname Hbar%no_bar_notBar Hname_ Hq Hds Hdigits Hstop Hpost.
  assert (Ha : "_"%char ∉ str "ORDER") by (by apply (bool_decide_unpack _)).
  assert (Hb : "_"%char ∉ str "ADD:") by (by apply (bool_decide_unpack _)).
  destruct (directive_scan (str "ORDER_ADD:") (str "ORDER") (str "ADD:") pre l
              name q ds post eq_refl eq_refl Ha Hb Hpre Hl Hname Hbar Hname_
              Hq Hds Hdigits Hstop Hpost) as [Hall Hrem].
  pose proof (directive_exec (str "ORDER_ADD:") l name q ds Hl Hname Hbar Hq
                Hds Hdigits) as Hexec.
  destruct (directive_other_keyword (str "ORDER_ADD:") (str "ORDER")
              (str "ADD:") pre l name q ds post eq_refl eq_refl Ha Hb Hpre Hl
              Hname_ Hq Hdigits Hpost (str "ORDER_REMOVE:") [Plus notBar]
              6 "A"%char "R"%char eq_refl eq_refl eq_refl)
    as [Hremove _]; [by vm_compute|].
  destruct (directive_other_keyword (str "ORDER_ADD:") (str "ORDER")
              (str "ADD:") pre l name q ds post eq_refl eq_refl Ha Hb Hpre Hl
              Hname_ Hq Hdigits Hpost (str "ORDER_UPDATE:")
              [Plus notBar; Lit (str "|QUANTITY:"); Plus isDigit]
              6 "A"%char "U"%char eq_refl eq_refl eq_refl)
    as [Hupdate _]; [by vm_compute|].
  change (quantityPattern (str "ORDER_ADD:")) with ORDER_ADD
    in Hall, Hrem, Hexec.
  split.
  - unfold processOrderInstructions, ORDER_REMOVE, ORDER_UPDATE.
    rewrite Hall, Hremove, Hupdate. simpl. unfold processAdd.
    rewrite Hexec. by destruct (findMenuItem menu (trim name)).
  - unfold cleanResponse, stripDirectives. rewrite Hrem.
    unfold ORDER_REMOVE, ORDER_UPDATE.
    rewrite !(directive_context_is_plain pre post)
      by first [done | by apply (bool_decide_unpack _)].
    done.
Qed.

Lemma single_add_directive_is_applied_witness :
  let text :=
    str "Sure! " ++ (str "order_add:" ++ str " Jollof Rice " ++ str "|Quantity:"
                     ++ str "2") ++ str " Anything else?" in
  processOrderInstructions MENU text createNewSession
  = Some match findMenuItem MENU (trim (str " Jollof Rice ")) with
         | Some menuItem => addItemToOrder menuItem (parseInt (str "2"))
                              createNewSession
         | None => createNewSession
         end
  /\ cleanResponse text = trim (str "Sure! " ++ str " Anything else?").
Proof.
  intros text.
  apply (single_add_directive_is_applied MENU (str "Sure! ")
           (str "order_add:") (str " Jollof Rice ") (str "|Quantity:")
           (str "2") (str " Anything else?") createNewSession).
  - apply (bool_decide_unpack _). vm_compute. exact I.
  - reflexivity.
  - discriminate.
  - apply (bool_decide_unpack _). vm_compute. exact I.
  - apply (bool_decide_unpack _). vm_compute. exact I.
  - reflexivity.
  - discriminate.
  - repeat constructor.
  - reflexivity.
  - apply (bool_decide_unpack _). vm_compute. exact I.
Defined.

(** X26. The same reply with an UPDATE directive instead:
    [processOrderInstructions] calls [updateItemInOrder] once, with the
    id of the item that [findMenuItem] returns for the trimmed name and
    the quantity of the directive, or does nothing when [findMenuItem]
    returns [null]; and the message for the user is the two texts joined
    and trimmed. *)
Theorem single_update_directive_is_applied (menu : Catalog)
    (pre l name q ds post : jsstring) (session : Session) :
  "_"%char ∉ pre ->
  map canonicalize l = map canonicalize (str "ORDER_UPDATE:") ->
  name <> [] -> "|"%char ∉ name -> "_"%char ∉ name ->
  map canonicalize q = map canonicalize (str "|QUANTITY:") ->
  ds <> [] -> Forall (fun c => isDigit c = true) ds ->
  stopsRun isDigit post -> "_"%char ∉ post ->
  processOrderInstructions menu (pre ++ (l ++ name ++ q ++ ds) ++ post) session
  = Some match findMenuItem menu (trim name) with
         | Some menuItem =>
             updateItemInOrder (id menuItem) (parseInt ds) session
         | None => session
         end
  /\ cleanResponse (pre ++ (l ++ name ++ q ++ ds) ++ post) = trim (pre ++ post).
Proof.
  intros Hpre Hl Hname Hbar%no_bar_notBar Hname_ Hq Hds Hdigits Hstop Hpost.
  assert (Ha : "_"%char ∉ str "ORDER") by (by apply (bool_decide_unpack _)).
  assert (Hb : "_"%char ∉ str "UPDATE:") by (by apply (bool_decide_unpack _)).
  destruct (directive_scan (str "ORDER_UPDATE:") (str "ORDER") (str "UPDATE:")
              pre l name q ds post eq_refl eq_refl Ha Hb Hpre Hl Hname Hbar
              Hname_ Hq Hds Hdigits Hstop Hpost) as [Hall Hrem].
  pose proof (directive_exec (str "ORDER_UPDATE:") l name q ds Hl Hname Hbar
                Hq Hds Hdigits) as Hexec.
  destruct (directive_other_keyword (str "ORDER_UPDATE:") (str "ORDER")
              (str "UPDATE:") pre l name q ds post eq_refl eq_refl Ha Hb Hpre
              Hl Hname_ Hq Hdigits Hpost (str "ORDER_REMOVE:") [Plus notBar]
              6 "U"%char "R"%char eq_refl eq_refl eq_refl)
    as [Hremove Hremove']; [by vm_compute|].
  destruct (directive_other_keyword (str "ORDER_UPDATE:") (str "ORDER")
              (str "UPDATE:") pre l name q ds post eq_refl eq_refl Ha Hb Hpre
              Hl Hname_ Hq Hdigits Hpost (str "ORDER_ADD:")
              [Plus notBar; Lit (str "|QUANTITY:"); Plus isDigit]
              6 "U"%char "A"%char eq_refl eq_refl eq_refl)
    as [Hadd Hadd']; [by vm_compute|].
  change (quantityPattern (str "ORDER_UPDATE:")) with ORDER_UPDATE
    in Hall, Hrem, Hexec.
  split.
  - unfold processOrderInstructions, ORDER_REMOVE, ORDER_ADD.
    rewrite Hall, Hremove, Hadd. simpl. unfold processUpdate.
    rewrite Hexec. by destruct (findMenuItem menu (trim name)).
  - unfold cleanResponse, stripDirectives, ORDER_ADD, ORDER_REMOVE.
    by rewrite Hadd', Hremove', Hrem.
Qed.

Lemma single_update_directive_is_applied_witness :
  let text :=
    str "Done. " ++ (str "ORDER_UPDATE:" ++ str "Chapman" ++ str "|QUANTITY:"
                     ++ str "3") ++ str "." in
  let session :=
    mkSession [] (mkOrder [jollofLine 2; chapmanLine 1] 6200) in
  processOrderInstructions MENU text session
  = Some match findMenuItem MENU (trim (str "Chapman")) with
         | Some menuItem =>
             updateItemInOrder (id menuItem) (parseInt (str "3")) session
         | None => session
         end
  /\ cleanResponse text = trim (str "Done. " ++ str ".").
Proof.
  intros text session.
  apply (single_update_directive_is_applied MENU (str "Done. ")
           (str "ORDER_UPDATE:") (str "Chapman") (str "|QUANTITY:")
           (str "3") (str ".") session).
  - apply (bool_decide_unpack _). vm_compute. exact I.
  - reflexivity.
  - discriminate.
  - apply (bool_decide_unpack _). vm_compute. exact I.
  - apply (bool_decide_unpack _). vm_compute. exact I.
  - reflexivity.
  - discriminate.
  - repeat constructor.
  - reflexivity.
  - apply (bool_decide_unpack _). vm_compute. exact I.
Defined.

(** X27. In the prototype, which knows the ADD directive only, the same
    reply adds the quantity of the directive of the item that its own
    [findMenuItem] returns for the trimmed name, whatever the quantity
    (zero included: [addItemToOrder] of the prototype has no guard), and
    the text returned to the customer is the two texts joined and
    trimmed. *)
Theorem prototype_single_add_directive_is_applied (menu : Catalog)
    (pre l name q ds post : jsstring) (g : PrototypeOrder.Globals) :
  "_"%char ∉ pre ->
  map canonicalize l = map canonicalize (str "ORDER_ADD:") ->
  name <> [] -> "|"%char ∉ name -> "_"%char ∉ name ->
  map canonicalize q = map canonicalize (str "|QUANTITY:") ->
  ds <> [] -> Forall (fun c => isDigit c = true) ds ->
  stopsRun isDigit post -> "_"%char ∉ post ->
  PrototypeOrder.processOrderInstructions menu
    (pre ++ (l ++ name ++ q ++ ds) ++ post) g
  = Some match Prototype.findMenuItem menu (trim name) with
         | Some menuItem =>
             PrototypeOrder.addItemToOrder menuItem (parseInt ds) g
         | None => g
         end
  /\ PrototypeOrder.cleanResponse (pre ++ (l ++ name ++ q ++ ds) ++ post)
     = trim (pre ++ post).
Proof.
  intros Hpre Hl Hname Hbar%no_bar_notBar Hname_ Hq Hds Hdigits Hstop Hpost.
  assert (Ha : "_"%char ∉ str "ORDER") by (by apply (bool_decide_unpack _)).
  assert (Hb : "_"%char ∉ str "ADD:") by (by apply (bool_decide_unpack _)).
  destruct (directive_scan (str "ORDER_ADD:") (str "ORDER") (str "ADD:") pre l
              name q ds post eq_refl eq_refl Ha Hb Hpre Hl Hname Hbar Hname_
              Hq Hds Hdigits Hstop Hpost) as [Hall Hrem].
  pose proof (directive_exec (str "ORDER_ADD:") l name q ds Hl Hname Hbar Hq
                Hds Hdigits) as Hexec.
  change (quantityPattern (str "ORDER_ADD:")) with ORDER_ADD
    in Hall, Hrem, Hexec.
  split.
  - unfold PrototypeOrder.processOrderInstructions. rewrite Hall. simpl.
    unfold PrototypeOrder.processAdd. rewrite Hexec.
    by destruct (Prototype.findMenuItem menu (trim name)).
  - unfold PrototypeOrder.cleanResponse. by rewrite Hrem.
Qed.

Lemma prototype_single_add_directive_is_applied_witness :
  let text :=
    str "Sure! " ++ (str "ORDER_ADD:" ++ str "Jollof Rice" ++ str "|QUANTITY:"
                     ++ str "0") ++ str " Anything else?" in
  let g := PrototypeOrder.mkGlobals [] PrototypeOrder.pendingOrder in
  PrototypeOrder.processOrderInstructions Prototype.MENU text g
  = Some match Prototype.findMenuItem Prototype.MENU
                 (trim (str "Jollof Rice")) with
         | Some menuItem =>
             PrototypeOrder.addItemToOrder menuItem (parseInt (str "0")) g
         | None => g
         end
  /\ PrototypeOrder.cleanResponse text
     = trim (str "Sure! " ++ str " Anything else?").
Proof.
  intros text g.
  apply (prototype_single_add_directive_is_applied Prototype.MENU
           (str "Sure! ") (str "ORDER_ADD:") (str "Jollof Rice")
           (str "|QUANTITY:") (str "0") (str " Anything else?") g).
  - apply (bool_decide_unpack _). vm_compute. exact I.
  - reflexivity.
  - discriminate.
  - apply (bool_decide_unpack _). vm_compute. exact I.
  - apply (bool_decide_unpack _). vm_compute. exact I.
  - reflexivity.
  - discriminate.
  - repeat constructor.
  - reflexivity.
  - apply (bool_decide_unpack _). vm_compute. exact I.
Defined.

Lemma trim_no_space (s : jsstring) :
  (forall c, head s = Some c -> isWhiteSpace c = false) ->
  (forall c, last s = Some c -> isWhiteSpace c = false) ->
  trim s = s.
Proof.
  intros Hhead Hlast. unfold trim, trimEnd.
  rewrite (trimStart_no_space s) by done.
  rewrite (trimStart_no_space (rev s)); [apply rev_involutive|].
  intros c. rewrite head_rev_last. apply Hlast.
Qed.

Lemma isDigit_not_space (c : ascii) :
  isDigit c = true -> isWhiteSpace c = false.
Proof. destruct c as [[] [] [] [] [] [] [] []]; vm_compute; congruence. Qed.

(** X28. The message for the user can still hold a directive. In a reply
    where an ADD directive stands between ORDER_ and ADD:, the scan
    finds the inner directive only; taking it out joins the two halves,
    and what [cleanResponse] returns is an ADD directive, the one that
    was not executed. *)
Theorem cleaned_message_can_hold_a_directive
    (name1 ds1 name ds : jsstring) :
  name1 <> [] -> "|"%char ∉ name1 -> "_"%char ∉ name1 ->
  ds1 <> [] -> Forall (fun c => isDigit c = true) ds1 ->
  name <> [] -> "|"%char ∉ name -> "_"%char ∉ name ->
  ds <> [] -> Forall (fun c => isDigit c = true) ds ->
  let inner := str "ORDER_ADD:" ++ name1 ++ str "|QUANTITY:" ++ ds1 in
  let outer := str "ORDER_ADD:" ++ name ++ str "|QUANTITY:" ++ ds in
  let text :=
    str "ORDER_" ++ inner ++ str "ADD:" ++ name ++ str "|QUANTITY:" ++ ds in
  matchAll ORDER_ADD text = [inner]
  /\ cleanResponse text = outer
  /\ matchAll ORDER_ADD (cleanResponse text) = [outer].
Proof.
  intros Hname1 Hbar1%no_bar_notBar Hname1_ Hds1 Hdigits1
         Hname Hbar%no_bar_notBar Hname_ Hds Hdigits inner outer text.
  assert (Ha : "_"%char ∉ str "ORDER") by (by apply (bool_decide_unpack _)).
  assert (Hb : "_"%char ∉ str "ADD:") by (by apply (bool_decide_unpack _)).
  assert (Hq_ : "_"%char ∉ str "|QUANTITY:")
    by (by apply (bool_decide_unpack _)).
  set (post := str "ADD:" ++ name ++ str "|QUANTITY:" ++ ds).
  assert (Hpost : "_"%char ∉ post).
  { unfold post. rewrite !not_elem_of_app.
    split; [done|]. split; [done|]. split; [done|].
    by apply digits_no_underscore. }
  assert (Hscan : matchAll ORDER_ADD (str "ORDER_" ++ inner ++ post) = [inner]
                  /\ removeAll ORDER_ADD (str "ORDER_" ++ inner ++ post)
                     = str "ORDER_" ++ post).
  { apply (scan_single_match ORDER_ADD (str "ORDER_") inner post [name1; ds1]).
    - intros k Hk.
      destruct k as [|[|[|[|[|[|k]]]]]]; try reflexivity.
      simpl in Hk. lia.
    - done.
    - unfold inner. rewrite <- !(assoc_L (++)).
      by apply (quantity_match_intro (str "ORDER_ADD:")).
    - intros k. apply literal_first_underscore.
      + by apply (bool_decide_unpack _).
      + by apply not_elem_of_drop. }
  destruct Hscan as [Hall Hrem].
  assert (Houter : str "ORDER_" ++ post
                   = [] ++ (str "ORDER_ADD:" ++ name ++ str "|QUANTITY:" ++ ds)
                     ++ []).
  { by rewrite app_nil_r. }
  assert (Hclean : cleanResponse text = outer).
  { unfold cleanResponse, stripDirectives, text. fold post.
    rewrite Hrem, Houter.
    destruct (directive_other_keyword (str "ORDER_ADD:") (str "ORDER")
                (str "ADD:") [] (str "ORDER_ADD:") name (str "|QUANTITY:") ds
                [] eq_refl eq_refl Ha Hb (not_elem_of_nil _) eq_refl Hname_
                eq_refl Hdigits (not_elem_of_nil _) (str "ORDER_REMOVE:")
                [Plus notBar] 6 "A"%char "R"%char eq_refl eq_refl eq_refl)
      as [_ Hremove]; [by vm_compute|].
    destruct (directive_other_keyword (str "ORDER_ADD:") (str "ORDER")
                (str "ADD:") [] (str "ORDER_ADD:") name (str "|QUANTITY:") ds
                [] eq_refl eq_refl Ha Hb (not_elem_of_nil _) eq_refl Hname_
                eq_refl Hdigits (not_elem_of_nil _) (str "ORDER_UPDATE:")
                [Plus notBar; Lit (str "|QUANTITY:"); Plus isDigit]
                6 "A"%char "U"%char eq_refl eq_refl eq_refl)
      as [_ Hupdate]; [by vm_compute|].
    unfold ORDER_REMOVE, ORDER_UPDATE. rewrite Hremove, Hupdate.
    rewrite app_nil_r. change ([] ++ ?x) with x. fold outer.
    apply trim_no_space.
    - by intros c [= <-].
    - intros c. unfold outer. rewrite !last_app.
      destruct (last ds) as [d|] eqn:Hlast.
      + intros [= <-]. apply isDigit_not_space.
        rewrite Forall_forall in Hdigits. apply Hdigits.
        apply last_Some in Hlast as [ds' ->]. apply elem_of_app. right.
        apply list_elem_of_here.
      + exfalso. by apply last_None in Hlast. }
  split; [exact Hall|]. split; [exact Hclean|]. rewrite Hclean.
  destruct (directive_scan (str "ORDER_ADD:") (str "ORDER") (str "ADD:") []
              (str "ORDER_ADD:") name (str "|QUANTITY:") ds [] eq_refl eq_refl
              Ha Hb (not_elem_of_nil _) eq_refl Hname Hbar Hname_ eq_refl Hds
              Hdigits I (not_elem_of_nil _)) as [Hagain _].
  rewrite app_nil_r in Hagain. exact Hagain.
Qed.

Lemma cleaned_message_can_hold_a_directive_witness :
  let inner := str "ORDER_ADD:" ++ str "Suya" ++ str "|QUANTITY:" ++ str "1" in
  let outer :=
    str "ORDER_ADD:" ++ str "Chapman" ++ str "|QUANTITY:" ++ str "40" in
  let text :=
    str "ORDER_" ++ inner ++ str "ADD:" ++ str "Chapman" ++ str "|QUANTITY:"
    ++ str "40" in
  matchAll ORDER_ADD text = [inner]
  /\ cleanResponse text = outer
  /\ matchAll ORDER_ADD (cleanResponse text) = [outer].
Proof.
  apply (cleaned_message_can_hold_a_directive (str "Suya") (str "1")
           (str "Chapman") (str "40")).
  - discriminate.
  - apply (bool_decide_unpack _). vm_compute. exact I.
  - apply (bool_decide_unpack _). vm_compute. exact I.
  - discriminate.
  - repeat constructor.
  - discriminate.
  - apply (bool_decide_unpack _). vm_compute. exact I.
  - apply (bool_decide_unpack _). vm_compute. exact I.
  - discriminate.
  - repeat constructor.
Defined.

End SingleDirectiveFacts.

(** ** A blank name *)

Section BlankNameFacts.
Import Menu.

Lemma trim_blank (s : jsstring) :
  Forall (fun c => isWhiteSpace c = true) s -> trim s = [].
Proof.
  intros Hs. unfold trim, trimEnd.
  assert (Hstart : trimStart s = []).
  { induction Hs as [|c s Hc _ IH]; simpl; [done|]. by rewrite Hc. }
  by rewrite Hstart.
Qed.

Lemma includes_nil (s : jsstring) : includes s [] = true.
Proof. by destruct s. Qed.

(** X29. A blank name is not refused. When no item of the catalog has an
    empty name, [findMenuItem] of the server resolves a name of white
    space only (or the empty name) to the last item of the catalog, and
    [findMenuItem] of the prototype to the first one: every item
    includes the empty text. *)
Theorem blank_name_resolves_to_an_item (menu : Catalog) (query : jsstring) :
  Forall (fun c => isWhiteSpace c = true) query ->
  Forall (fun it => name it <> []) (allItems menu) ->
  Menu.findMenuItem menu query = last (allItems menu)
  /\ Prototype.findMenuItem menu query = head (allItems menu).
Proof.
  intros Hblank Hnames.
  assert (Hq : trim (toLowerCase query) = []).
  { by rewrite trim_toLowerCase, trim_blank. }
  split.
  - rewrite findMenuItem_unfold, Hq.
    induction Hnames as [|it its Hit _ IH] using Forall_ind; [done|].
    cbn [List.find List.filter].
    assert (Hexact : exactMatch [] it = false).
    { unfold exactMatch, toLowerCase. by destruct (name it). }
    assert (Hsub : substringMatch [] it = true).
    { unfold substringMatch. by rewrite includes_nil. }
    rewrite Hexact, Hsub.
    destruct (List.find (exactMatch []) its) as [x|] eqn:Hfind.
    + destruct its as [|it' its']; [done|]. by rewrite IH.
    + destruct its as [|it' its']; [done|].
      change (last (it :: ?l)) with
        (match l with [] => Some it | _ :: _ => last l end).
      rewrite IH. cbn [List.filter].
      assert (Hsub' : substringMatch [] it' = true).
      { unfold substringMatch. by rewrite includes_nil. }
      by rewrite Hsub'.
  - unfold Prototype.findMenuItem. rewrite Hq, prototype_findInCategories_spec.
    destruct (allItems menu) as [|it its]; [done|]. simpl.
    unfold Prototype.matches. by rewrite includes_nil.
Qed.

Lemma blank_name_resolves_to_an_item_witness :
  Menu.findMenuItem MENU (str "  ") = last (allItems MENU)
  /\ Prototype.findMenuItem MENU (str "  ") = head (allItems MENU).
Proof.
  apply (blank_name_resolves_to_an_item MENU (str "  ")).
  - repeat constructor.
  - repeat constructor; discriminate.
Defined.

End BlankNameFacts.
